(** * pg-mcp-server: the transaction lifecycle core

    A shallow embedding of [src/lib/utils.ts], [src/lib/transaction-manager.ts],
    [src/lib/tool-handlers.ts] and of the [execute_dml_ddl_dcl_tcl] tool of
    [src/lib/index.ts], with the properties of the specification stated
    over it.

    Layout: JavaScript strings and the classification of statements; the
    store (heap of transaction objects, the registry [Map], the console and
    the connections' history); synchronous code as a state-and-exception
    monad [M]; [async] functions as resumptions that stop at each [await];
    the event loop; then the theorems. *)

From Stdlib Require Import List ZArith NArith Bool String Ascii Lia Arith.
Import ListNotations.

Set Implicit Arguments.

(* ================================================================== *)
(** ** JavaScript strings *)

(** A JavaScript string is a sequence of UTF-16 code units. *)
Definition jsstring := list N.

(** An ASCII literal as a JavaScript string. *)
Definition js (s : string) : jsstring :=
  map N_of_ascii (list_ascii_of_string s).

Definition jsstring_eq_dec : forall a b : jsstring, {a = b} + {a <> b} :=
  list_eq_dec N.eq_dec.

Definition jsstring_eqb (a b : jsstring) : bool :=
  if jsstring_eq_dec a b then true else false.

(** ECMAScript [WhiteSpace] and [LineTerminator] code points, the ones
    [String.prototype.trim] strips: TAB, LF, VT, FF, CR, SP, NBSP, the
    Unicode space separators, LS, PS and ZWNBSP. *)
Definition isWhiteSpace (c : N) : bool :=
  ((9 <=? c) && (c <=? 13) || (c =? 32) || (c =? 160) || (c =? 5760)
   || (8192 <=? c) && (c <=? 8202) || (c =? 8232) || (c =? 8233)
   || (c =? 8239) || (c =? 8287) || (c =? 12288) || (c =? 65279))%N.

Fixpoint trimStart (s : jsstring) : jsstring :=
  match s with
  | c :: rest => if isWhiteSpace c then trimStart rest else s
  | [] => []
  end.

Definition trimEnd (s : jsstring) : jsstring := rev (trimStart (rev s)).

(** [String.prototype.trim] *)
Definition String_trim (s : jsstring) : jsstring := trimEnd (trimStart s).

(** [String.prototype.startsWith] *)
Fixpoint startsWith (s p : jsstring) {struct p} : bool :=
  match p, s with
  | [], _ => true
  | a :: p', b :: s' => (a =? b)%N && startsWith s' p'
  | _ :: _, [] => false
  end.

Definition isAscii (c : N) : bool := (c <? 128)%N.

Definition asciiToLower (c : N) : N :=
  if ((65 <=? c) && (c <=? 90))%N then (c + 32)%N else c.

Definition asciiToUpper (c : N) : N :=
  if ((97 <=? c) && (c <=? 122))%N then (c - 32)%N else c.

Section CaseConversion.

(** The Unicode case-mapping tables of the runtime are no part of the
    repository.  On ASCII code units the mapping is the fixed one above;
    the image of a code unit outside ASCII, which may depend on the code
    units before and after it (surrogate pairs, final sigma) and may be
    several code units long, is a parameter. *)
Variable unicodeLower : jsstring -> N -> jsstring -> jsstring.
Variable unicodeUpper : jsstring -> N -> jsstring -> jsstring.

Fixpoint caseMap (ascii : N -> N)
         (unicode : jsstring -> N -> jsstring -> jsstring)
         (before s : jsstring) : jsstring :=
  match s with
  | [] => []
  | c :: rest =>
      (if isAscii c then [ascii c] else unicode before c rest)
        ++ caseMap ascii unicode (before ++ [c]) rest
  end.

(** [String.prototype.toLowerCase] *)
Definition toLowerCase (s : jsstring) : jsstring :=
  caseMap asciiToLower unicodeLower [] s.

(** [String.prototype.toUpperCase] *)
Definition toUpperCase (s : jsstring) : jsstring :=
  caseMap asciiToUpper unicodeUpper [] s.

(** utils.ts, [isReadOnlyQuery] *)
Definition isReadOnlyQuery (sql : jsstring) : bool :=
  let trimmedSql := toLowerCase (String_trim sql) in
  startsWith trimmedSql (js "select")
  || startsWith trimmedSql (js "with")
  || startsWith trimmedSql (js "explain")
  || startsWith trimmedSql (js "show").

(** tool-handlers.ts, [getOperationType]; the last answer is the
    string "未知操作" (unknown operation), given by its code units. *)
Definition unknownOperation : jsstring := [26410; 30693; 25805; 20316]%N.

Definition getOperationType (sql : jsstring) : jsstring :=
  let normalizedSql := toUpperCase (String_trim sql) in
  if startsWith normalizedSql (js "INSERT") then js "INSERT"
  else if startsWith normalizedSql (js "UPDATE") then js "UPDATE"
  else if startsWith normalizedSql (js "DELETE") then js "DELETE"
  else if startsWith normalizedSql (js "CREATE") then js "CREATE"
  else if startsWith normalizedSql (js "ALTER") then js "ALTER"
  else if startsWith normalizedSql (js "DROP") then js "DROP"
  else if startsWith normalizedSql (js "TRUNCATE") then js "TRUNCATE"
  else if startsWith normalizedSql (js "GRANT") then js "GRANT"
  else if startsWith normalizedSql (js "REVOKE") then js "REVOKE"
  else unknownOperation.

End CaseConversion.

(** The four key words a read-only statement may begin with. *)
Definition readOnlyKeywords : list jsstring :=
  [js "select"; js "with"; js "explain"; js "show"].

(* ================================================================== *)
(** ** The store *)

(** A [pg.PoolClient] handle. *)
Definition Client := nat.

(** The result of a query; of its fields the handlers below read
    [rowCount] (a number or [null]). *)
Record QueryResult := { rowCount : option Z }.

(** types.ts, [TrackedTransaction] *)
Inductive TxState := active | terminating.

Record TrackedTransaction := {
  tx_id : jsstring;
  tx_client : Client;
  tx_startTime : Z;
  tx_sql : jsstring;
  tx_state : TxState;
  tx_released : bool
}.

(** Transaction objects live in a heap and are shared by reference: the
    registry holds references, and so do the local variables of the
    functions that looked an entry up. *)
Definition ref := nat.

(** Values thrown.  [CommitNotFound] is the [Error] that [commitAndRemove]
    creates; the others come from the driver and are opaque. *)
Inductive error :=
| CommitNotFound (id : jsstring)
| DriverError (code : N).

(** The lines the program writes on the console, one constructor per
    [console.log] / [console.error] of the source, with the values the
    template interpolates. *)
Inductive line :=
| LogMonitorStarted (intervalMs : Z)
| LogTimedOut (id : jsstring)
| ErrTimeoutRollback (id : jsstring) (err : error)
| LogAdded (id : jsstring)
| LogRemoved (id : jsstring)
| LogRollbackMissing (id : jsstring)
| LogRollingBack (id initiator reason : jsstring)
| LogRolledBack (id : jsstring)
| ErrRollback (id : jsstring) (err : error)
| LogCommitted (id : jsstring)
| ErrShutdownRollback (id : jsstring) (err : error)
| ErrRelease (err : error)
| LogExecuting (sqlHead : jsstring)
| LogAutoCommitted (rowsAffected : Z)
| ErrExecutionRolledBack
| ErrRollbackFailed (rollbackError : error).

(** What the program does to the outside, in order of time. *)
Inductive event :=
| PoolConnect
| ClientQuery (c : Client) (text : jsstring)
| ClientRelease (c : Client)
| Console (l : line).

Record Store := {
  heap : list TrackedTransaction;
  (** [TransactionManager.transactions]: a [Map], which keeps insertion
      order *)
  transactions : list (jsstring * ref);
  timeoutMs : Z;
  monitorIntervalMs : Z;
  monitorInterval : option nat;
  (** the interval timers of the runtime that are running *)
  timers : list nat;
  nextTimer : nat;
  (** what [Date.now()] answers *)
  clock : Z;
  history : list event
}.

Definition set_heap (h : list TrackedTransaction) (s : Store) : Store :=
  {| heap := h; transactions := transactions s; timeoutMs := timeoutMs s;
     monitorIntervalMs := monitorIntervalMs s;
     monitorInterval := monitorInterval s; timers := timers s;
     nextTimer := nextTimer s; clock := clock s; history := history s |}.

Definition set_transactions (m : list (jsstring * ref)) (s : Store) : Store :=
  {| heap := heap s; transactions := m; timeoutMs := timeoutMs s;
     monitorIntervalMs := monitorIntervalMs s;
     monitorInterval := monitorInterval s; timers := timers s;
     nextTimer := nextTimer s; clock := clock s; history := history s |}.

Definition set_monitor (mi : option nat) (ts : list nat) (nt : nat)
           (s : Store) : Store :=
  {| heap := heap s; transactions := transactions s; timeoutMs := timeoutMs s;
     monitorIntervalMs := monitorIntervalMs s;
     monitorInterval := mi; timers := ts;
     nextTimer := nt; clock := clock s; history := history s |}.

Definition set_clock (t : Z) (s : Store) : Store :=
  {| heap := heap s; transactions := transactions s; timeoutMs := timeoutMs s;
     monitorIntervalMs := monitorIntervalMs s;
     monitorInterval := monitorInterval s; timers := timers s;
     nextTimer := nextTimer s; clock := t; history := history s |}.

Definition record (e : event) (s : Store) : Store :=
  {| heap := heap s; transactions := transactions s; timeoutMs := timeoutMs s;
     monitorIntervalMs := monitorIntervalMs s;
     monitorInterval := monitorInterval s; timers := timers s;
     nextTimer := nextTimer s; clock := clock s;
     history := history s ++ [e] |}.

(** *** The [Map] of the registry *)

Fixpoint Map_lookup (m : list (jsstring * ref)) (k : jsstring) : option ref :=
  match m with
  | [] => None
  | (k', v) :: rest => if jsstring_eq_dec k k' then Some v else Map_lookup rest k
  end.

(** [Map.prototype.set]: the value of a key that is present is replaced
    where it stands, a new key goes last. *)
Fixpoint Map_insert (m : list (jsstring * ref)) (k : jsstring) (v : ref)
  : list (jsstring * ref) :=
  match m with
  | [] => [(k, v)]
  | (k', v') :: rest =>
      if jsstring_eq_dec k k' then (k, v) :: rest
      else (k', v') :: Map_insert rest k v
  end.

Fixpoint Map_remove (m : list (jsstring * ref)) (k : jsstring)
  : list (jsstring * ref) :=
  match m with
  | [] => []
  | (k', v) :: rest =>
      if jsstring_eq_dec k k' then Map_remove rest k
      else (k', v) :: Map_remove rest k
  end.

(** *** The heap *)

Definition noTransaction : TrackedTransaction :=
  {| tx_id := []; tx_client := 0; tx_startTime := 0; tx_sql := [];
     tx_state := active; tx_released := true |}.

Definition heap_get (h : list TrackedTransaction) (r : ref) : TrackedTransaction :=
  nth r h noTransaction.

Fixpoint heap_update (h : list TrackedTransaction) (r : ref)
         (f : TrackedTransaction -> TrackedTransaction) : list TrackedTransaction :=
  match h, r with
  | [], _ => []
  | t :: rest, O => f t :: rest
  | t :: rest, S r' => t :: heap_update rest r' f
  end.

Definition with_state (v : TxState) (t : TrackedTransaction) : TrackedTransaction :=
  {| tx_id := tx_id t; tx_client := tx_client t; tx_startTime := tx_startTime t;
     tx_sql := tx_sql t; tx_state := v; tx_released := tx_released t |}.

Definition with_released (v : bool) (t : TrackedTransaction) : TrackedTransaction :=
  {| tx_id := tx_id t; tx_client := tx_client t; tx_startTime := tx_startTime t;
     tx_sql := tx_sql t; tx_state := tx_state t; tx_released := v |}.

(* ================================================================== *)
(** ** Synchronous code: state and exceptions *)

Inductive completion (A : Type) : Type :=
| Normal (a : A)
| Throw (e : error).
Arguments Throw {A} e.

Definition M (A : Type) : Type := Store -> completion A * Store.

Definition ret {A} (a : A) : M A := fun s => (Normal a, s).

Definition throw {A} (e : error) : M A := fun s => (Throw e, s).

Definition bindM {A B} (m : M A) (f : A -> M B) : M B :=
  fun s =>
    match m s with
    | (Normal a, s') => f a s'
    | (Throw e, s') => (Throw e, s')
    end.

(** [try { m } catch (err) { h err }] *)
Definition tryCatch {A} (m : M A) (h : error -> M A) : M A :=
  fun s =>
    match m s with
    | (Normal a, s') => (Normal a, s')
    | (Throw e, s') => h e s'
    end.

Declare Scope M_scope.
Delimit Scope M_scope with M.
Notation "x <- m ;; k" := (bindM m (fun x => k))
  (at level 61, m at next level, right associativity) : M_scope.
Notation "m ;; k" := (bindM m (fun _ => k))
  (at level 61, right associativity) : M_scope.
Open Scope M_scope.

Definition emit (e : event) : M unit := fun s => (Normal tt, record e s).

Definition console_log (l : line) : M unit := emit (Console l).
Definition console_error (l : line) : M unit := emit (Console l).

Definition Date_now : M Z := fun s => (Normal (clock s), s).

Definition Map_get (id : jsstring) : M (option ref) :=
  fun s => (Normal (Map_lookup (transactions s) id), s).

Definition Map_has (id : jsstring) : M bool :=
  fun s => (Normal (match Map_lookup (transactions s) id with
                    | Some _ => true
                    | None => false
                    end), s).

Definition Map_set (id : jsstring) (r : ref) : M unit :=
  fun s => (Normal tt, set_transactions (Map_insert (transactions s) id r) s).

Definition Map_delete (id : jsstring) : M unit :=
  fun s => (Normal tt, set_transactions (Map_remove (transactions s) id) s).

Definition Map_size : M Z :=
  fun s => (Normal (Z.of_nat (List.length (transactions s))), s).

Definition Map_keys : M (list jsstring) :=
  fun s => (Normal (map fst (transactions s)), s).

(** An object literal: a new object on the heap. *)
Definition new_object (t : TrackedTransaction) : M ref :=
  fun s => (Normal (List.length (heap s)), set_heap (heap s ++ [t]) s).

Definition deref (r : ref) : M TrackedTransaction :=
  fun s => (Normal (heap_get (heap s) r), s).

Definition assign (r : ref) (f : TrackedTransaction -> TrackedTransaction) : M unit :=
  fun s => (Normal tt, set_heap (heap_update (heap s) r f) s).

(* ================================================================== *)
(** ** Asynchronous code: resumptions *)

(** The body of an [async] function is a tree: synchronous steps, the
    [await]s at which it gives the event loop control back, and the calls
    it makes without awaiting them ([Spawn]).  An awaited promise is either
    a query sent on a client or a request for a connection; whoever
    resumes the tree says how the promise settled. *)
Inductive async (A : Type) : Type :=
| Ret (a : A)
| Raise (e : error)
| Sync (B : Type) (m : M B) (k : completion B -> async A)
| AwaitQuery (c : Client) (text : jsstring)
             (k : completion QueryResult -> async A)
| AwaitConnect (k : completion Client -> async A)
| Spawn (child : async unit) (k : async A).
Arguments Raise {A} e.
Arguments Sync {A B} m k.
Arguments AwaitQuery {A} c text k.
Arguments AwaitConnect {A} k.
Arguments Spawn {A} child k.

Definition resume {A : Type} (r : completion A) : async A :=
  match r with
  | Normal a => Ret a
  | Throw e => Raise e
  end.

(** A synchronous call inside an [async] function. *)
Definition lift {A : Type} (m : M A) : async A := Sync m resume.

Fixpoint bind {A B : Type} (p : async A) (f : A -> async B) : async B :=
  match p with
  | Ret a => f a
  | Raise e => Raise e
  | Sync m k => Sync m (fun r => bind (k r) f)
  | AwaitQuery c text k => AwaitQuery c text (fun r => bind (k r) f)
  | AwaitConnect k => AwaitConnect (fun r => bind (k r) f)
  | Spawn child k => Spawn child (bind k f)
  end.

(** [try { p } catch (err) { h err }] *)
Fixpoint try_catch {A : Type} (p : async A) (h : error -> async A) : async A :=
  match p with
  | Ret a => Ret a
  | Raise e => h e
  | Sync m k => Sync m (fun r => try_catch (k r) h)
  | AwaitQuery c text k => AwaitQuery c text (fun r => try_catch (k r) h)
  | AwaitConnect k => AwaitConnect (fun r => try_catch (k r) h)
  | Spawn child k => Spawn child (try_catch k h)
  end.

(** [try { p } finally { f }]: [f] runs however [p] ends; the completion of
    [p] stands unless [f] itself throws. *)
Fixpoint try_finally {A : Type} (p : async A) (f : async unit) : async A :=
  match p with
  | Ret a => bind f (fun _ => Ret a)
  | Raise e => bind f (fun _ => Raise e)
  | Sync m k => Sync m (fun r => try_finally (k r) f)
  | AwaitQuery c text k => AwaitQuery c text (fun r => try_finally (k r) f)
  | AwaitConnect k => AwaitConnect (fun r => try_finally (k r) f)
  | Spawn child k => Spawn child (try_finally k f)
  end.

Declare Scope async_scope.
Delimit Scope async_scope with async.
Notation "x <- p ;; k" := (bind p (fun x => k))
  (at level 61, p at next level, right associativity) : async_scope.
Notation "p ;; k" := (bind p (fun _ => k))
  (at level 61, right associativity) : async_scope.

(** [await p]: the promise [p] of a query already sent. *)
Definition await_query (c : Client) (text : jsstring) : async QueryResult :=
  AwaitQuery c text resume.

(** [promise.catch(h)] on a call that is not awaited: the call runs as a
    task of its own, and [h] receives the rejection. *)
Definition fire_and_forget (p : async unit) (h : error -> async unit)
  : async unit :=
  Spawn (try_catch p h) (Ret tt).

(* ================================================================== *)
(** ** The event loop *)

(** How far a tree got: to its end, or to an [await]. *)
Inductive outcome (A : Type) : Type :=
| Finished (r : completion A)
| OnQuery (c : Client) (text : jsstring) (k : completion QueryResult -> async A)
| OnConnect (k : completion Client -> async A).
Arguments OnQuery {A} c text k.
Arguments OnConnect {A} k.

(** A suspended call that nobody awaits. *)
Inductive task :=
| TaskQuery (c : Client) (text : jsstring) (k : completion QueryResult -> async unit)
| TaskConnect (k : completion Client -> async unit).

Record Loop := { store : Store; tasks : list task }.

Definition with_store (s : Store) (l : Loop) : Loop :=
  {| store := s; tasks := tasks l |}.

(** A spawned call that stopped at an [await] waits among the tasks; one
    that ran to its end is done. *)
Definition park (o : outcome unit) (l : Loop) : Loop :=
  match o with
  | Finished _ => l
  | OnQuery c text k => {| store := store l; tasks := tasks l ++ [TaskQuery c text k] |}
  | OnConnect k => {| store := store l; tasks := tasks l ++ [TaskConnect k] |}
  end.

(** Run a tree until it ends or awaits. *)
Fixpoint run {A : Type} (p : async A) (l : Loop) : outcome A * Loop :=
  match p with
  | Ret a => (Finished (Normal a), l)
  | Raise e => (Finished (Throw e), l)
  | Sync m k => let (r, s') := m (store l) in run (k r) (with_store s' l)
  | AwaitQuery c text k => (OnQuery c text k, l)
  | AwaitConnect k => (OnConnect k, l)
  | Spawn child k => let (o, l') := run child l in run k (park o l')
  end.

Fixpoint remove_nth {A} (i : nat) (l : list A) : list A :=
  match l, i with
  | [], _ => []
  | _ :: rest, O => rest
  | a :: rest, S i' => a :: remove_nth i' rest
  end.

(** The promise awaited by task [i] settles as [r]: the task resumes. *)
Definition settle_query (i : nat) (r : completion QueryResult) (l : Loop) : Loop :=
  match nth_error (tasks l) i with
  | Some (TaskQuery _ _ k) =>
      let (o, l') := run (k r) {| store := store l; tasks := remove_nth i (tasks l) |} in
      park o l'
  | _ => l
  end.

Definition settle_connect (i : nat) (r : completion Client) (l : Loop) : Loop :=
  match nth_error (tasks l) i with
  | Some (TaskConnect k) =>
      let (o, l') := run (k r) {| store := store l; tasks := remove_nth i (tasks l) |} in
      park o l'
  | _ => l
  end.

(** Settling the pending queries one after the other, in any order: each
    step names a task by its place and says how its query ended. *)
Fixpoint drain (schedule : list (nat * completion QueryResult)) (l : Loop) : Loop :=
  match schedule with
  | [] => l
  | (i, r) :: rest => drain rest (settle_query i r l)
  end.

(* ================================================================== *)
(** ** config.ts *)

Module config.
Record t := {
  transactionTimeoutMs : Z;
  monitorIntervalMs : Z;
  enableTransactionMonitor : bool;
  maxConcurrentTransactions : Z
}.

(** The values when the environment sets none of them. *)
Definition default : t :=
  {| transactionTimeoutMs := 15000; monitorIntervalMs := 5000;
     enableTransactionMonitor := true; maxConcurrentTransactions := 10 |}.
End config.

(* ================================================================== *)
(** ** Numbers as text *)

(** A JavaScript number that is an integer, or [NaN] ([None]).  The
    integers of this program are times in milliseconds and small counts,
    far inside the range in which a double is exact (up to 2^53 in
    size); beyond it the runtime rounds, and the integers here do not. *)
Definition Number := option Z.

(** The digits of [Number.prototype.toString]: [0] to [9], then [a] to
    [z]. *)
Definition digitChar (d : N) : N := (if d <? 10 then 48 + d else 87 + d)%N.

Fixpoint digitsOf (fuel : nat) (radix n : N) : jsstring :=
  match fuel with
  | O => []
  | S fuel' =>
      if (n <? radix)%N then [digitChar n]
      else digitsOf fuel' radix (n / radix) ++ [digitChar (n mod radix)]
  end.

(** [Number.prototype.toString(radix)] on an integer, for a radix from 2
    to 36.  The fuel is the number of binary digits, which no other radix
    needs more of. *)
Definition Number_toString (x : Z) (radix : N) : jsstring :=
  match x with
  | Z0 => [48%N]
  | Zpos p => digitsOf (N.size_nat (Npos p)) radix (Npos p)
  | Zneg p => 45%N :: digitsOf (N.size_nat (Npos p)) radix (Npos p)
  end.

(** [String.prototype.substring(start, end)]: the arguments are swapped
    if they come in the wrong order and stop at the length. *)
Definition String_substring (s : jsstring) (start end_ : nat) : jsstring :=
  firstn (Nat.max start end_ - Nat.min start end_) (skipn (Nat.min start end_) s).

(** The value of a code unit as a digit: [0]-[9], [a]-[z], [A]-[Z]. *)
Definition digitValue (c : N) : option N :=
  (if (48 <=? c) && (c <=? 57) then Some (c - 48)
   else if (97 <=? c) && (c <=? 122) then Some (c - 87)
   else if (65 <=? c) && (c <=? 90) then Some (c - 55)
   else None)%N.

(** The longest run of digits of the radix at the start of [s], read as a
    number; [acc] is what was read so far, [None] when no digit was. *)
Fixpoint leadingDigits (radix : N) (s : jsstring) (acc : option N) : option N :=
  match s with
  | [] => acc
  | c :: rest =>
      match digitValue c with
      | Some d =>
          if (d <? radix)%N
          then leadingDigits radix rest
                 (Some (radix * match acc with Some a => a | None => 0 end + d)%N)
          else acc
      | None => acc
      end
  end.

(** The sign at the start of a numeral, and the numeral without it. *)
Definition signOf (s : jsstring) : Z :=
  match s with
  | 45%N :: _ => (-1)%Z
  | _ => 1%Z
  end.

Definition dropSign (s : jsstring) : jsstring :=
  match s with
  | 43%N :: rest => rest
  | 45%N :: rest => rest
  | _ => s
  end.

(** Whether a numeral begins with [0x] or [0X]. *)
Definition hasHexPrefix (s : jsstring) : bool :=
  match s with
  | 48%N :: x :: _ => ((x =? 120) || (x =? 88))%N
  | _ => false
  end.

(** [parseInt(string, radix)]: white space at the start is skipped, a
    sign is read, with the radix 16 (or none, written 0) a prefix [0x]
    is skipped, then the digits of the radix are read as far as they go;
    what follows them is ignored, and when there is no digit the answer
    is [NaN]. *)
Definition parseInt (string : jsstring) (radix : N) : Number :=
  let S := trimStart string in
  let sign := signOf S in
  let S := dropSign S in
  if ((radix =? 1) || (36 <? radix))%N then None
  else
    let stripPrefix := ((radix =? 0) || (radix =? 16))%N && hasHexPrefix S in
    let R := if stripPrefix then 16%N
             else if (radix =? 0)%N then 10%N else radix in
    let S := if stripPrefix then skipn 2 S else S in
    match leadingDigits R S None with
    | None => None
    | Some n => Some (sign * Z.of_N n)%Z
    end.

(** A digit is a figure or a small letter. *)
Definition isDigitChar (c : N) : Prop :=
  (48 <= c <= 57 \/ 97 <= c <= 122)%N.

(** What follows a number in a text: nothing, or a code unit that is no
    digit of the radix. *)
Definition endsNumber (radix : N) (rest : jsstring) : Prop :=
  match rest with
  | [] => True
  | c :: _ => match digitValue c with
              | Some d => (radix <= d)%N
              | None => True
              end
  end.


(* ================================================================== *)
(** ** config.ts: the configuration as the environment gives it *)

Module env.

(** [process.env]: the variables that are set, by name. *)
Definition t := jsstring -> option jsstring.

(** [value || fallback] on a string that may be [undefined]: the
    fallback stands in for [undefined] and for the empty string. *)
Definition or (value : option jsstring) (fallback : jsstring) : jsstring :=
  match value with
  | Some (c :: v) => c :: v
  | _ => fallback
  end.

(** The object that config.ts exports. *)
Record loaded := {
  transactionTimeoutMs : Number;
  monitorIntervalMs : Number;
  enableTransactionMonitor : bool;
  maxConcurrentTransactions : Number;
  pg_maxConnections : Number;
  pg_idleTimeoutMillis : Number;
  pg_statementTimeout : Number
}.

Definition load (e : t) : loaded :=
  {| transactionTimeoutMs :=
       parseInt (or (e (js "TRANSACTION_TIMEOUT_MS")) (js "15000")) 10;
     monitorIntervalMs :=
       parseInt (or (e (js "MONITOR_INTERVAL_MS")) (js "5000")) 10;
     enableTransactionMonitor :=
       negb match e (js "ENABLE_TRANSACTION_MONITOR") with
            | Some v => jsstring_eqb v (js "false")
            | None => false
            end;
     maxConcurrentTransactions :=
       parseInt (or (e (js "MAX_CONCURRENT_TRANSACTIONS")) (js "10")) 10;
     pg_maxConnections :=
       parseInt (or (e (js "PG_MAX_CONNECTIONS")) (js "20")) 10;
     pg_idleTimeoutMillis :=
       parseInt (or (e (js "PG_IDLE_TIMEOUT_MS")) (js "30000")) 10;
     pg_statementTimeout :=
       parseInt (or (e (js "PG_STATEMENT_TIMEOUT_MS")) (js "30000")) 10 |}.

(** The names of the variables that config.ts reads as numbers, each
    with the text that stands in when it is not set. *)
Definition numeric : list (jsstring * jsstring) :=
  [(js "TRANSACTION_TIMEOUT_MS", js "15000");
   (js "MONITOR_INTERVAL_MS", js "5000");
   (js "MAX_CONCURRENT_TRANSACTIONS", js "10");
   (js "PG_MAX_CONNECTIONS", js "20");
   (js "PG_IDLE_TIMEOUT_MS", js "30000");
   (js "PG_STATEMENT_TIMEOUT_MS", js "30000")].

(** The numbers of the configuration, in the order of [numeric]. *)
Definition numbers (c : loaded) : list Number :=
  [transactionTimeoutMs c; monitorIntervalMs c;
   maxConcurrentTransactions c; pg_maxConnections c;
   pg_idleTimeoutMillis c; pg_statementTimeout c].

(** The part of the configuration that the registry and the tools use,
    when none of its numbers is [NaN]. *)
Definition settings (c : loaded) : option config.t :=
  match transactionTimeoutMs c, monitorIntervalMs c, maxConcurrentTransactions c with
  | Some timeout, Some interval, Some limit =>
      Some {| config.transactionTimeoutMs := timeout;
              config.monitorIntervalMs := interval;
              config.enableTransactionMonitor := enableTransactionMonitor c;
              config.maxConcurrentTransactions := limit |}
  | _, _, _ => None
  end.

(** An environment in which no variable is set, and one that sets a
    variable. *)
Definition empty : t := fun _ => None.

Definition set (name value : jsstring) (e : t) : t :=
  fun n => if jsstring_eq_dec n name then Some value else e n.

End env.

(** The answers of the tools, by the fields of the JSON text they carry. *)
Inductive Response :=
| UseExecuteQuery
    (* status "warning", query_type "select"; isError *)
| DmlSuccess (operation_type : jsstring) (rows_affected execution_time_ms : Z)
    (* status "success" *)
| ExecutionError (message : error) (query : jsstring)
    (* status "error"; isError *)
| LimitReached (limit : Z)
    (* status "error", the limit in the message; isError *)
| ToolFailure (message : error).
    (* the text of the error; isError *)

(** The strings passed to [rollbackAndRemove], by their code units:
    "自动" (automatic), "事务已超时" (the transaction has timed out),
    "系统关闭" (system shutdown), "系统关闭期间正在清理事务" (cleaning up
    transactions during system shutdown). *)
Definition initiator_automatic : jsstring := [33258; 21160]%N.
Definition reason_timed_out : jsstring := [20107; 21153; 24050; 36229; 26102]%N.
Definition initiator_shutdown : jsstring := [31995; 32479; 20851; 38381]%N.
Definition reason_shutdown : jsstring :=
  [31995; 32479; 20851; 38381; 26399; 38388; 27491; 22312; 28165; 29702;
   20107; 21153]%N.

(** *** Examples of the outside *)

(** Case tables that leave the code units outside ASCII as they are. *)
Definition plainCase : jsstring -> N -> jsstring -> jsstring :=
  fun _ c _ => [c].

(** Clients whose calls never throw. *)
Definition query_returns : Store -> Client -> jsstring -> option error :=
  fun _ _ _ => None.

Definition release_returns : Store -> Client -> option error :=
  fun _ _ => None.

(** The call of [query] on the client [c0] throws. *)
Definition query_throws_on (c0 : Client) : Store -> Client -> jsstring -> option error :=
  fun _ c _ => if Nat.eqb c c0 then Some (DriverError 1) else None.

(** Every query affects one row and takes 5 ms; the pool hands out the
    connection 7 after 1 ms. *)
Definition query_succeeds : Store -> Client -> jsstring -> completion QueryResult * Z :=
  fun s _ _ => (Normal {| rowCount := Some 1%Z |}, (clock s + 5)%Z).

Definition connect_succeeds : Store -> completion Client * Z :=
  fun s => (Normal 7, (clock s + 1)%Z).

(** A configuration with room for three transactions. *)
Definition smallConfig : config.t :=
  {| config.transactionTimeoutMs := 15000; config.monitorIntervalMs := 5000;
     config.enableTransactionMonitor := true;
     config.maxConcurrentTransactions := 3 |}.

Section Server.

Set Default Proof Using "Type".

(** *** The outside *)

Variable unicodeLower : jsstring -> N -> jsstring -> jsstring.
Variable unicodeUpper : jsstring -> N -> jsstring -> jsstring.

(** Whether a call of [client.query] or of [client.release] throws, which
    may depend on all that happened before. *)
Variable queryThrows : Store -> Client -> jsstring -> option error.
Variable releaseThrows : Store -> Client -> option error.

(** How an awaited promise settles and what the time is then, for a
    handler followed from call to return. *)
Variable queryAnswer : Store -> Client -> jsstring -> completion QueryResult * Z.
Variable connectAnswer : Store -> completion Client * Z.

Variable cfg : config.t.

(** [client.release()] *)
Definition client_release (c : Client) : M unit :=
  fun s =>
    match releaseThrows s c with
    | Some e => (Throw e, record (ClientRelease c) s)
    | None => (Normal tt, record (ClientRelease c) s)
    end.

(** The call [client.query(text)], which sends the query and returns a
    promise, or throws. *)
Definition client_query_call (c : Client) (text : jsstring) : M unit :=
  fun s =>
    match queryThrows s c text with
    | Some e => (Throw e, record (ClientQuery c text) s)
    | None => (Normal tt, record (ClientQuery c text) s)
    end.

(** *** Timers *)

Definition setInterval : M nat :=
  fun s =>
    (Normal (nextTimer s),
     set_monitor (monitorInterval s) (timers s ++ [nextTimer s])
                 (S (nextTimer s)) s).

Definition clearInterval (h : nat) : M unit :=
  fun s =>
    (Normal tt,
     set_monitor (monitorInterval s)
                 (filter (fun h' => negb (Nat.eqb h h')) (timers s))
                 (nextTimer s) s).

Definition get_monitorInterval : M (option nat) :=
  fun s => (Normal (monitorInterval s), s).

Definition set_monitorInterval (mi : option nat) : M unit :=
  fun s => (Normal tt, set_monitor mi (timers s) (nextTimer s) s).

Definition get_timeoutMs : M Z := fun s => (Normal (timeoutMs s), s).

Definition get_monitorIntervalMs : M Z :=
  fun s => (Normal (monitorIntervalMs s), s).

(** *** utils.ts *)

Definition safelyReleaseClient (client : option Client) : M unit :=
  tryCatch
    (match client with
     | Some c => client_release c
     | None => ret tt
     end)
    (fun error => console_error (ErrRelease error)).

(** *** transaction-manager.ts: the synchronous methods *)

(** [startMonitor]; the callback of the timer is
    [checkTransactionTimeouts] (see [tick] below), and [unref] changes
    nothing here. *)
Definition startMonitor : M unit :=
  mi <- get_monitorInterval ;;
  match mi with
  | Some h => clearInterval h
  | None => ret tt
  end ;;
  h <- setInterval ;;
  set_monitorInterval (Some h) ;;
  interval <- get_monitorIntervalMs ;;
  console_log (LogMonitorStarted interval).

(** The store a process starts with, before the manager is built. *)
Definition emptyStore : Store :=
  {| heap := []; transactions := []; timeoutMs := 0; monitorIntervalMs := 0;
     monitorInterval := None; timers := []; nextTimer := 0; clock := 0;
     history := [] |}.

(** [constructor] *)
Definition TransactionManager_new (timeout interval : Z) (enableMonitor : bool)
  : M unit :=
  (fun s =>
     (Normal tt,
      {| heap := heap s; transactions := []; timeoutMs := timeout;
         monitorIntervalMs := interval; monitorInterval := None;
         timers := timers s; nextTimer := nextTimer s; clock := clock s;
         history := history s |})) ;;
  if enableMonitor then startMonitor else ret tt.

Definition addTransaction (id : jsstring) (client : Client) (sql : jsstring)
  : M unit :=
  now <- Date_now ;;
  transaction <- new_object
    {| tx_id := id; tx_client := client; tx_startTime := now; tx_sql := sql;
       tx_state := active; tx_released := false |} ;;
  Map_set id transaction ;;
  console_log (LogAdded id).

Definition hasTransaction (id : jsstring) : M bool := Map_has id.

Definition getTransaction (id : jsstring) : M (option ref) := Map_get id.

Definition removeTransaction (id : jsstring) : M unit :=
  transaction <- Map_get id ;;
  match transaction with
  | Some r =>
      t <- deref r ;;
      if negb (tx_released t)
      then safelyReleaseClient (Some (tx_client t)) ;;
           assign r (with_released true)
      else ret tt
  | None => ret tt
  end ;;
  Map_delete id ;;
  console_log (LogRemoved id).

(** The getter [transactionCount] *)
Definition transactionCount : M Z := Map_size.

(** *** transaction-manager.ts: the asynchronous methods *)

Open Scope async_scope.

(** [client.query(text)] followed by the [await] of its promise *)
Definition client_query (c : Client) (text : jsstring) : async QueryResult :=
  lift (client_query_call c text) ;; await_query c text.

(** [await pool.connect()] *)
Definition pool_connect : async Client :=
  lift (emit PoolConnect) ;; AwaitConnect resume.

Definition rollbackAndRemove (id initiator reason : jsstring) : async unit :=
  transaction <- lift (Map_get id) ;;
  match transaction with
  | None => lift (console_log (LogRollbackMissing id))
  | Some r =>
      lift (assign r (with_state terminating)) ;;
      try_finally
        (try_catch
           (lift (console_log (LogRollingBack id initiator reason)) ;;
            t <- lift (deref r) ;;
            _ <- client_query (tx_client t) (js "ROLLBACK") ;;
            lift (console_log (LogRolledBack id)))
           (fun err => lift (console_error (ErrRollback id err))))
        (lift (removeTransaction id))
  end.

Definition commitAndRemove (id : jsstring) : async unit :=
  transaction <- lift (Map_get id) ;;
  match transaction with
  | None => Raise (CommitNotFound id)
  | Some r =>
      lift (assign r (with_state terminating)) ;;
      try_finally
        (t <- lift (deref r) ;;
         _ <- client_query (tx_client t) (js "COMMIT") ;;
         lift (console_log (LogCommitted id)))
        (lift (removeTransaction id))
  end.

(** [Map.prototype.forEach] walks the live map in insertion order: an
    entry deleted before its turn is not visited.  (An entry added during
    the walk would be visited too; no callback of this program adds
    one.) *)
Fixpoint forEach_from (keys : list jsstring)
         (callback : ref -> jsstring -> async unit) : async unit :=
  match keys with
  | [] => Ret tt
  | key :: rest =>
      entry <- lift (Map_get key) ;;
      match entry with
      | Some value => callback value key
      | None => Ret tt
      end ;;
      forEach_from rest callback
  end.

Definition Map_forEach (callback : ref -> jsstring -> async unit) : async unit :=
  keys <- lift Map_keys ;;
  forEach_from keys callback.

(** [for (const x of xs) body] over an array *)
Fixpoint for_of {X : Type} (xs : list X) (body : X -> async unit) : async unit :=
  match xs with
  | [] => Ret tt
  | x :: rest => body x ;; for_of rest body
  end.

Definition checkTransactionTimeouts : async unit :=
  now <- lift Date_now ;;
  Map_forEach (fun transaction id =>
    t <- lift (deref transaction) ;;
    timeout <- lift get_timeoutMs ;;
    if (now - tx_startTime t >? timeout)%Z
    then lift (console_log (LogTimedOut id)) ;;
         fire_and_forget
           (rollbackAndRemove id initiator_automatic reason_timed_out)
           (fun err => lift (console_error (ErrTimeoutRollback id err)))
    else Ret tt).

Definition destroy : async unit :=
  lift (mi <- get_monitorInterval ;;
        match mi with
        | Some h => clearInterval h ;; set_monitorInterval None
        | None => ret tt
        end)%M ;;
  transactionIds <- lift Map_keys ;;
  for_of transactionIds (fun id =>
    fire_and_forget
      (rollbackAndRemove id initiator_shutdown reason_shutdown)
      (fun err => lift (console_error (ErrShutdownRollback id err)))).

(** The timer [h] fires: its callback runs if the timer still exists. *)
Definition tick (h : nat) (l : Loop) : Loop :=
  if existsb (Nat.eqb h) (timers (store l))
  then snd (run checkTransactionTimeouts l)
  else l.

(** *** tool-handlers.ts *)

(** [handleExecuteDML(pool, transactionManager, sql, timeoutMs)]; the
    manager and [timeoutMs] are parameters the body never uses. *)
Definition handleExecuteDML (sql : jsstring) (timeoutMs : Z) : async Response :=
  if isReadOnlyQuery unicodeLower sql then Ret UseExecuteQuery
  else
    client <- pool_connect ;;
    try_finally
      (try_catch
         (lift (console_log (LogExecuting (firstn 100 sql))) ;;
          _ <- client_query client (js "BEGIN") ;;
          startTime <- lift Date_now ;;
          result <- client_query client sql ;;
          endTime <- lift Date_now ;;
          let executionTimeMs := (endTime - startTime)%Z in
          _ <- client_query client (js "COMMIT") ;;
          let operation := getOperationType unicodeUpper sql in
          let rowsAffected :=
            match rowCount result with Some n => n | None => 0%Z end in
          lift (console_log (LogAutoCommitted rowsAffected)) ;;
          Ret (DmlSuccess operation rowsAffected executionTimeMs))
         (fun error =>
            try_catch
              (_ <- client_query client (js "ROLLBACK") ;;
               lift (console_error ErrExecutionRolledBack))
              (fun rollbackError =>
                 lift (console_error (ErrRollbackFailed rollbackError))) ;;
            Ret (ExecutionError error sql)))
      (lift (safelyReleaseClient (Some client))).

(** *** index.ts *)

(** [transformHandlerResponse] rebuilds the text items of an answer as
    they are. *)
Definition transformHandlerResponse (result : Response) : Response := result.

(** The callback of the tool [execute_dml_ddl_dcl_tcl] *)
Definition execute_dml_ddl_dcl_tcl (sql : jsstring) : async Response :=
  try_catch
    (count <- lift transactionCount ;;
     if (count >=? config.maxConcurrentTransactions cfg)%Z
     then Ret (LimitReached (config.maxConcurrentTransactions cfg))
     else
       result <- handleExecuteDML sql (config.transactionTimeoutMs cfg) ;;
       Ret (transformHandlerResponse result))
    (fun error => Ret (ToolFailure error)).

(** *** A call followed to its return *)

(** Each [await] is answered by the outside, and time moves on. *)
Fixpoint complete {A : Type} (p : async A) (l : Loop) : completion A * Loop :=
  match p with
  | Ret a => (Normal a, l)
  | Raise e => (Throw e, l)
  | Sync m k => let (r, s') := m (store l) in complete (k r) (with_store s' l)
  | AwaitQuery c text k =>
      let (r, t) := queryAnswer (store l) c text in
      complete (k r) (with_store (set_clock t (store l)) l)
  | AwaitConnect k =>
      let (r, t) := connectAnswer (store l) in
      complete (k r) (with_store (set_clock t (store l)) l)
  | Spawn child k => let (o, l') := run child l in complete k (park o l')
  end.

(** *** What the registry may be asked to do *)

(** A call that nobody awaits: it runs to its first [await] and waits
    there as a task. *)
Definition spawn (p : async unit) (l : Loop) : Loop :=
  let (o, l') := run p l in park o l'.

Definition sync {A : Type} (m : M A) (l : Loop) : Loop :=
  with_store (snd (m (store l))) l.

(** The calls on the manager and the events of the loop that concern
    it. *)
Inductive action :=
| New (timeout interval : Z) (enableMonitor : bool)
| Add (id : jsstring) (c : Client) (sql : jsstring)
| Remove (id : jsstring)
| Commit (id : jsstring)
| Rollback (id initiator reason : jsstring)
| TimerFires (h : nat)
| Destroy
| QuerySettles (i : nat) (r : completion QueryResult)
| TimePasses (t : Z).

Definition perform (a : action) (l : Loop) : Loop :=
  match a with
  | New timeout interval enableMonitor =>
      sync (TransactionManager_new timeout interval enableMonitor) l
  | Add id c sql => sync (addTransaction id c sql) l
  | Remove id => sync (removeTransaction id) l
  | Commit id => spawn (commitAndRemove id) l
  | Rollback id initiator reason => spawn (rollbackAndRemove id initiator reason) l
  | TimerFires h => tick h l
  | Destroy => spawn destroy l
  | QuerySettles i r => settle_query i r l
  | TimePasses t => with_store (set_clock t (store l)) l
  end.

Definition perform_all (acts : list action) (l : Loop) : Loop :=
  fold_left (fun l a => perform a l) acts l.

(** The loop of a process that has done nothing yet. *)
Definition idle : Loop := {| store := emptyStore; tasks := [] |}.

(** *** The tick in the words of the specification *)

(** A snapshot of the registry is taken when the tick starts: the ids
    and the start times as they are then.  Every id of the snapshot that
    is overdue is then rolled back, whatever became of the registry
    meanwhile. *)
Definition snapshot : M (list (jsstring * Z)) :=
  fun s =>
    (Normal (map (fun e => (fst e, tx_startTime (heap_get (heap s) (snd e))))
                 (transactions s)), s).

Definition checkTransactionTimeouts_snapshot : async unit :=
  now <- lift Date_now ;;
  entries <- lift snapshot ;;
  timeout <- lift get_timeoutMs ;;
  for_of (filter (fun e => (now - snd e >? timeout)%Z) entries) (fun e =>
    lift (console_log (LogTimedOut (fst e))) ;;
    fire_and_forget
      (rollbackAndRemove (fst e) initiator_automatic reason_timed_out)
      (fun err => lift (console_error (ErrTimeoutRollback (fst e) err)))).

Close Scope async_scope.

(** *** Reading the history *)

(** The clients on which [release] was called, in order. *)
Fixpoint releases_of (h : list event) : list Client :=
  match h with
  | [] => []
  | ClientRelease c :: rest => c :: releases_of rest
  | _ :: rest => releases_of rest
  end.

(** The queries sent, in order. *)
Fixpoint queries_of (h : list event) : list (Client * jsstring) :=
  match h with
  | [] => []
  | ClientQuery c text :: rest => (c, text) :: queries_of rest
  | _ :: rest => queries_of rest
  end.

(** How often [pool.connect()] was called. *)
Fixpoint connects_of (h : list event) : nat :=
  match h with
  | [] => 0
  | PoolConnect :: rest => S (connects_of rest)
  | _ :: rest => connects_of rest
  end.

(** The connections that [Add] staged, in order. *)
Fixpoint staged (acts : list action) : list Client :=
  match acts with
  | [] => []
  | Add _ c _ :: rest => c :: staged rest
  | _ :: rest => staged rest
  end.

(** The transaction objects of the heap that are marked released, by
    their connection. *)
Definition marked_released (h : list TrackedTransaction) : list Client :=
  map tx_client (filter tx_released h).

(** *** Invariants *)

(** The keys of a [Map] are distinct. *)
Definition Map_wf (m : list (jsstring * ref)) : Prop := NoDup (map fst m).

Definition has (l : Loop) (id : jsstring) : bool :=
  match Map_lookup (transactions (store l)) id with
  | Some _ => true
  | None => false
  end.

(** What [removeTransaction id] releases in a store: the connection of
    the entry of [id], if there is one that is not marked released. *)
Definition to_release (s : Store) (id : jsstring) : list Client :=
  match Map_lookup (transactions s) id with
  | Some r =>
      if tx_released (heap_get (heap s) r) then []
      else [tx_client (heap_get (heap s) r)]
  | None => []
  end.

(** A suspended call that, whenever and however its query settles, runs
    to its end, with the entry of [id] removed as [removeTransaction]
    removes it, and wakes or leaves no other task. *)
Definition removes (id : jsstring) (k : completion QueryResult -> async unit)
  : Prop :=
  forall (o : completion QueryResult) (l : Loop),
  exists c l',
    run (k o) l = (Finished c, l')
    /\ tasks l' = tasks l
    /\ transactions (store l') = Map_remove (transactions (store l)) id
    /\ releases_of (history (store l'))
       = releases_of (history (store l)) ++ to_release (store l) id.

Definition task_removes (id : jsstring) (t : task) : Prop :=
  match t with
  | TaskQuery _ _ k => removes id k
  | TaskConnect _ => False
  end.

(** Every synchronous step of a tree keeps [J]. *)
Fixpoint keeps (J : Store -> Prop) {A : Type} (p : async A) : Prop :=
  match p with
  | Ret _ => True
  | Raise _ => True
  | Sync m k => (forall s, J s -> J (snd (m s))) /\ (forall r, keeps J (k r))
  | AwaitQuery _ _ k => forall r, keeps J (k r)
  | AwaitConnect k => forall r, keeps J (k r)
  | Spawn child k => keeps J child /\ keeps J k
  end.

Definition task_keeps (J : Store -> Prop) (t : task) : Prop :=
  match t with
  | TaskQuery _ _ k => forall r, keeps J (k r)
  | TaskConnect k => forall r, keeps J (k r)
  end.

(** Every release of a connection by the registry is accounted for by a
    transaction object marked released, and the other way round. *)
Definition accounted (s : Store) : Prop :=
  forall c, count_occ Nat.eq_dec (releases_of (history s)) c
            = count_occ Nat.eq_dec (marked_released (heap s)) c.

(** An invariant that no step of the registry breaks: neither what it
    writes on the console or sends, nor a change of state, nor
    [removeTransaction], nor what it does to the timers and the
    clock. *)
Definition stable (J : Store -> Prop) : Prop :=
  (forall s e, (forall c, e <> ClientRelease c) -> J s -> J (record e s))
  /\ (forall s r v,
         J s -> J (set_heap (heap_update (heap s) r (with_state v)) s))
  /\ (forall s id, J s -> J (snd (removeTransaction id s)))
  /\ (forall s mi ts nt, J s -> J (set_monitor mi ts nt s))
  /\ (forall s t, J s -> J (set_clock t s)).

(** The releases are accounted for, and the transaction objects ever
    made own the connections [L], in this order. *)
Definition staged_are (L : list Client) (s : Store) : Prop :=
  accounted s /\ map tx_client (heap s) = L.

(** The calls of [rollbackAndRemove] that found their entry, by the line
    each writes before it sends [ROLLBACK]: id, initiator and reason. *)
Fixpoint started (h : list event) : list (jsstring * jsstring * jsstring) :=
  match h with
  | [] => []
  | Console (LogRollingBack id initiator reason) :: rest =>
      (id, initiator, reason) :: started rest
  | _ :: rest => started rest
  end.

Definition Map_remove_all (m : list (jsstring * ref)) (ids : list jsstring)
  : list (jsstring * ref) :=
  fold_left Map_remove ids m.

(** The entries that are overdue at time [now]. *)
Definition overdue (s : Store) (now : Z) : list (jsstring * ref) :=
  filter (fun e => (now - tx_startTime (heap_get (heap s) (snd e)) >? timeoutMs s)%Z)
         (transactions s).

(** The [ROLLBACK] that the registry sends for an entry. *)
Definition rollback_of (s : Store) (e : jsstring * ref) : Client * jsstring :=
  (tx_client (heap_get (heap s) (snd e)), js "ROLLBACK").

(** *** Sweeps *)

(** The line that the timer writes before it rolls an entry back;
    shutdown writes none. *)
Definition note (announce : bool) (id : jsstring) (l : Loop) : Loop :=
  if announce then with_store (record (Console (LogTimedOut id)) (store l)) l
  else l.

(** Rolling back the ids of a list one after the other, none of the
    calls awaited. *)
Definition sweep (announce : bool) (initiator reason : jsstring)
           (h : jsstring -> error -> async unit) (ids : list jsstring)
           (l : Loop) : Loop :=
  fold_left
    (fun l id =>
       spawn (try_catch (rollbackAndRemove id initiator reason) (h id))
             (note announce id l))
    ids l.

(** *** Examples of stores *)

(** A manager just built, with the default configuration. *)
Definition booted : Loop :=
{| store := snd (TransactionManager_new 15000 5000 true emptyStore);
   tasks := [] |}.

(** Three transactions staged at times 0, 10000 and 12000 on the
  connections 1, 2 and 3; the time is now 20000, so that with the timeout
  of 15000 the first one is overdue and the others are not. *)
Definition threeStaged : Loop :=
{| store :=
     snd ((TransactionManager_new 15000 5000 true ;;
           addTransaction (js "tx1") 1 (js "insert into t values (1)") ;;
           (fun s => (Normal tt, set_clock 10000 s)) ;;
           addTransaction (js "tx2") 2 (js "update t set x = 1") ;;
           (fun s => (Normal tt, set_clock 12000 s)) ;;
           addTransaction (js "tx3") 3 (js "delete from t") ;;
           (fun s => (Normal tt, set_clock 20000 s)))%M emptyStore);
   tasks := [] |}.

(** Drops the outside from the context where the goal does not speak of
    it, so that the tactics that follow cannot pick it up. *)
Ltac tidy :=
  try clear cfg; try clear connectAnswer; try clear queryAnswer;
  try clear releaseThrows; try clear queryThrows;
  try clear unicodeUpper; try clear unicodeLower.

(** The registry as the calls above leave it: distinct ids, each with a
  transaction object of its own that is not marked released. *)
Definition registry_wf (s : Store) : Prop :=
Map_wf (transactions s)
/\ NoDup (map snd (transactions s))
/\ Forall (fun e => tx_released (heap_get (heap s) (snd e)) = false)
          (transactions s).

(* ================================================================ *)
(** ** The rest of the tools *)

(** utils.ts, [generateTransactionId].  [random] is the text of
    [Math.random().toString(36)], which the outside decides: the text of
    a number from 0 on and below 1. *)
Definition generateTransactionId (random : jsstring) : M jsstring :=
  (now <- Date_now ;;
   let timestamp := Number_toString now 36 in
   let randomPart := String_substring random 2 10 in
   ret (js "tx_" ++ timestamp ++ js "_" ++ randomPart))%M.

(** The answers of [execute_commit] and [execute_rollback], by the
    fields of the JSON text they carry. *)
Inductive TransactionResponse :=
| TransactionNotFound (transaction_id : jsstring)
    (* status "error", the message that the transaction was not found or
       was already rolled back; isError *)
| Committed (transaction_id : jsstring)
    (* status "success", the message that the transaction was committed *)
| RolledBack (transaction_id : jsstring)
    (* status "success", the message that the transaction was rolled back *)
| TransactionError (message : error) (transaction_id : jsstring)
    (* status "error"; isError *)
| TransactionToolFailure (message : error).
    (* the text of the error; isError *)

(** The strings that [handleExecuteRollback] passes to
    [rollbackAndRemove], by their code units: "用户请求" (user request)
    and "用户明确请求回滚" (the user asked for a rollback). *)
Definition initiator_user : jsstring := [29992; 25143; 35831; 27714]%N.
Definition reason_user : jsstring :=
  [29992; 25143; 26126; 30830; 35831; 27714; 22238; 28378]%N.

Open Scope async_scope.

(** tool-handlers.ts, [handleExecuteCommit] *)
Definition handleExecuteCommit (transactionId : jsstring)
  : async TransactionResponse :=
  try_catch
    (found <- lift (hasTransaction transactionId) ;;
     if negb found then Ret (TransactionNotFound transactionId)
     else
       commitAndRemove transactionId ;;
       Ret (Committed transactionId))
    (fun error => Ret (TransactionError error transactionId)).

(** tool-handlers.ts, [handleExecuteRollback] *)
Definition handleExecuteRollback (transactionId : jsstring)
  : async TransactionResponse :=
  try_catch
    (found <- lift (hasTransaction transactionId) ;;
     if negb found then Ret (TransactionNotFound transactionId)
     else
       rollbackAndRemove transactionId initiator_user reason_user ;;
       Ret (RolledBack transactionId))
    (fun error => Ret (TransactionError error transactionId)).

(** index.ts, the callbacks of the tools [execute_commit] and
    [execute_rollback]; [transformHandlerResponse] rebuilds the answer of
    the handler as it is. *)
Definition execute_commit (transaction_id : jsstring)
  : async TransactionResponse :=
  try_catch
    (result <- handleExecuteCommit transaction_id ;;
     Ret result)
    (fun error => Ret (TransactionToolFailure error)).

Definition execute_rollback (transaction_id : jsstring)
  : async TransactionResponse :=
  try_catch
    (result <- handleExecuteRollback transaction_id ;;
     Ret result)
    (fun error => Ret (TransactionToolFailure error)).

Close Scope async_scope.

(** The connections of the entries of the registry, in its order. *)
Definition registered (s : Store) : list Client :=
  map (fun e => tx_client (heap_get (heap s) (snd e))) (transactions s).

(** A use of the registry that takes the care the registry leaves to its
    callers: an id is added only when it is not in use, and a new manager
    takes the place of one that holds nothing. *)
Fixpoint careful (acts : list action) (l : Loop) : Prop :=
  match acts with
  | [] => True
  | a :: rest =>
      match a with
      | Add id _ _ => has l id = false
      | New _ _ _ => transactions (store l) = []
      | _ => True
      end
      /\ careful rest (perform a l)
  end.

(** The key words that [getOperationType] knows, in the order in which it
    tries them. *)
Definition operationKeywords : list jsstring :=
  [js "INSERT"; js "UPDATE"; js "DELETE"; js "CREATE"; js "ALTER"; js "DROP";
   js "TRUNCATE"; js "GRANT"; js "REVOKE"].

(** An invariant that no step of the registry breaks, by the steps that
    the registry takes: what it writes on the console or sends, the
    state [terminating] that it sets, [removeTransaction], the stopping
    of the monitor, and the clock. *)
Definition steady (J : Store -> Prop) : Prop :=
  (forall s e, (forall c, e <> ClientRelease c) -> J s -> J (record e s))
  /\ (forall s r,
         J s -> J (set_heap (heap_update (heap s) r (with_state terminating)) s))
  /\ (forall s id, J s -> J (snd (removeTransaction id s)))
  /\ (forall s h,
         J s ->
         J (set_monitor None (filter (fun h' => negb (Nat.eqb h h')) (timers s))
                        (nextTimer s) s))
  /\ (forall s t, J s -> J (set_clock t s)).

(** Every transaction object ever made is either marked released or the
    object of an entry of the registry, and the registry is well
    formed. *)
Definition tracked (s : Store) : Prop :=
  registry_wf s
  /\ forall r, r < List.length (heap s) ->
               tx_released (heap_get (heap s) r) = true
               \/ In r (map snd (transactions s)).

(** An object as it may be found later: the same id, connection, start
    time and statement; a state that has not gone back from
    [terminating], and a mark [released] that has not been taken off. *)
Definition later (t t' : TrackedTransaction) : Prop :=
  tx_id t' = tx_id t /\ tx_client t' = tx_client t
  /\ tx_startTime t' = tx_startTime t /\ tx_sql t' = tx_sql t
  /\ (tx_state t = terminating -> tx_state t' = terminating)
  /\ (tx_released t = true -> tx_released t' = true).

(** The objects of the heap [h0] are still there, each as it may be
    found later. *)
Definition grown_from (h0 : list TrackedTransaction) (s : Store) : Prop :=
  List.length h0 <= List.length (heap s)
  /\ forall r, r < List.length h0 -> later (heap_get h0 r) (heap_get (heap s) r).

(** Whether a manager is made with its monitor switched on. *)
Definition startsMonitor (a : action) : bool :=
  match a with
  | New _ _ enableMonitor => enableMonitor
  | _ => false
  end.

Definition isTimerFires (a : action) : bool :=
  match a with
  | TimerFires _ => true
  | _ => false
  end.

(** A database that rejects the statement [text0] and accepts every
    other query. *)
Definition query_fails_on (text0 : jsstring)
  : Store -> Client -> jsstring -> completion QueryResult * Z :=
  fun s _ text =>
    if jsstring_eqb text text0
    then (Throw (DriverError 23505), (clock s + 5)%Z)
    else (Normal {| rowCount := None |}, (clock s + 5)%Z).

(** A call of one of the three tools that act on transactions. *)
Inductive request :=
| ExecuteDml (sql : jsstring)
| ExecuteCommit (transaction_id : jsstring)
| ExecuteRollback (transaction_id : jsstring).

(** What the caller of a tool gets: an answer of the tool, or the error
    that the callback let out. *)
Inductive reply :=
| DmlReply (r : Response)
| TransactionReply (r : TransactionResponse)
| Failure (e : error).

(** One call, followed to its return. *)
Definition serve (q : request) (l : Loop) : reply * Loop :=
  match q with
  | ExecuteDml sql =>
      match complete (execute_dml_ddl_dcl_tcl sql) l with
      | (Normal r, l') => (DmlReply r, l')
      | (Throw e, l') => (Failure e, l')
      end
  | ExecuteCommit id =>
      match complete (execute_commit id) l with
      | (Normal r, l') => (TransactionReply r, l')
      | (Throw e, l') => (Failure e, l')
      end
  | ExecuteRollback id =>
      match complete (execute_rollback id) l with
      | (Normal r, l') => (TransactionReply r, l')
      | (Throw e, l') => (Failure e, l')
      end
  end.

(** Calls served one after the other. *)
Fixpoint serve_all (qs : list request) (l : Loop) : list reply * Loop :=
  match qs with
  | [] => ([], l)
  | q :: rest =>
      let (a, l1) := serve q l in
      let (answers, l2) := serve_all rest l1 in
      (a :: answers, l2)
  end.

(** The reply that a call gets from a registry that holds nothing and
    has room: for a commit or a rollback "not found", for a statement
    anything but the error of the limit and an error let out. *)
Definition replyOfEmptyRegistry (q : request) (a : reply) : Prop :=
  match q, a with
  | ExecuteDml _, DmlReply r =>
      match r with LimitReached _ => False | _ => True end
  | ExecuteCommit id, TransactionReply r => r = TransactionNotFound id
  | ExecuteRollback id, TransactionReply r => r = TransactionNotFound id
  | _, _ => False
  end.

(* ================================================================ *)
(** ** Classification of statements *)

Lemma startsWith_prefix (p s : jsstring) :
  startsWith s p = true <-> exists rest, s = p ++ rest.
Proof.
  revert s; induction p as [|a p IH]; intros s; simpl.
  - split; [intros _; exists s; reflexivity | reflexivity].
  - destruct s as [|b s]; simpl.
    + split; [discriminate | intros [rest H]; discriminate].
    + rewrite andb_true_iff, N.eqb_eq, IH. split.
      * intros [-> [rest ->]]. exists rest. reflexivity.
      * intros [rest H]. injection H as -> ->. split; [reflexivity | eauto].
Qed.

Lemma trimStart_spec (s : jsstring) :
  exists l, s = l ++ trimStart s
            /\ forallb isWhiteSpace l = true
            /\ (forall c t, trimStart s = c :: t -> isWhiteSpace c = false).
Proof.
  induction s as [|c s (l & E & W & H)]; simpl.
  - exists []. repeat split; intros; discriminate.
  - destruct (isWhiteSpace c) eqn:Wc.
    + exists (c :: l). simpl. rewrite Wc, W. repeat split; [congruence | exact H].
    + exists []. repeat split. intros c' t [= <- _]. exact Wc.
Qed.

Lemma trimEnd_spec (s : jsstring) :
  exists r, s = trimEnd s ++ r
            /\ forallb isWhiteSpace r = true
            /\ (forall t c, trimEnd s = t ++ [c] -> isWhiteSpace c = false).
Proof.
  unfold trimEnd. destruct (trimStart_spec (rev s)) as (l & E & W & H).
  exists (rev l). repeat split.
  - rewrite <- rev_app_distr, <- E, rev_involutive. reflexivity.
  - rewrite forallb_forall in *. intros x Hx. apply W, in_rev, Hx.
  - intros t c Ht. apply (H c (rev t)).
    rewrite <- (rev_involutive (trimStart (rev s))), Ht, rev_app_distr.
    reflexivity.
Qed.

(** [trim] takes white space off both ends and nothing else. *)
Lemma String_trim_spec (s : jsstring) :
  exists l r,
    s = l ++ String_trim s ++ r
    /\ forallb isWhiteSpace l = true
    /\ forallb isWhiteSpace r = true
    /\ (forall c t, String_trim s = c :: t -> isWhiteSpace c = false)
    /\ (forall t c, String_trim s = t ++ [c] -> isWhiteSpace c = false).
Proof.
  unfold String_trim.
  destruct (trimStart_spec s) as (l & E & W & H).
  destruct (trimEnd_spec (trimStart s)) as (r & E' & W' & H').
  exists l, r. repeat split; try assumption.
  - rewrite <- E'. exact E.
  - intros c t Ht. rewrite Ht in E'. simpl in E'. eapply H. exact E'.
Qed.

Lemma caseMap_ascii ascii unicode (before s : jsstring) :
  forallb isAscii s = true ->
  caseMap ascii unicode before s = map ascii s.
Proof.
  revert before; induction s as [|c s IH]; intros before H; simpl in *.
  - reflexivity.
  - apply andb_true_iff in H as [Hc Hs]. rewrite Hc, IH by assumption.
    reflexivity.
Qed.

(** On a string of ASCII code units the case mappings are the ASCII
    ones, whatever the Unicode tables say. *)
Lemma toLowerCase_ascii (s : jsstring) :
  forallb isAscii s = true ->
  toLowerCase unicodeLower s = map asciiToLower s.
Proof. apply caseMap_ascii. Qed.

Lemma isReadOnlyQuery_true (sql : jsstring) :
  isReadOnlyQuery unicodeLower sql = true <->
  exists kw rest,
    In kw readOnlyKeywords
    /\ toLowerCase unicodeLower (String_trim sql) = kw ++ rest.
Proof.
  unfold isReadOnlyQuery, readOnlyKeywords.
  rewrite !orb_true_iff, !startsWith_prefix. split.
  - intros [[[[r H]|[r H]]|[r H]]|[r H]]; eexists; exists r; (split; [|exact H]);
      simpl; auto.
  - intros (kw & r & Hin & H). simpl in Hin.
    destruct Hin as [<-|[<-|[<-|[<-|[]]]]]; eauto.
Qed.

(** C10. [isReadOnlyQuery] answers [true] (read-only) exactly when the
    statement, with the white space trimmed off its ends and then put in
    lower case, begins with [select], [with], [explain] or [show], and
    [false] (write) in every other case; the eight statements that the
    specification lists classify as it says. *)
Theorem isReadOnlyQuery_classifies :
  (forall sql,
      isReadOnlyQuery unicodeLower sql = true <->
      exists kw rest,
        In kw readOnlyKeywords
        /\ toLowerCase unicodeLower (String_trim sql) = kw ++ rest)
  /\ (forall sql,
         isReadOnlyQuery unicodeLower sql = false <->
         forall kw rest,
           In kw readOnlyKeywords ->
           toLowerCase unicodeLower (String_trim sql) <> kw ++ rest)
  /\ isReadOnlyQuery unicodeLower (js "select * from t") = true
  /\ isReadOnlyQuery unicodeLower (js "  WITH x AS (...) SELECT 1") = true
  /\ isReadOnlyQuery unicodeLower (js "EXPLAIN SELECT 1") = true
  /\ isReadOnlyQuery unicodeLower (js "SHOW search_path") = true
  /\ isReadOnlyQuery unicodeLower (js "insert into t values (1)") = false
  /\ isReadOnlyQuery unicodeLower (js "UPDATE t SET x=1") = false
  /\ isReadOnlyQuery unicodeLower (js "DELETE FROM t") = false
  /\ isReadOnlyQuery unicodeLower (js "CREATE TABLE t(...)") = false.
Proof.
  split; [exact isReadOnlyQuery_true|].
  split; [|repeat split; reflexivity].
  intros sql. split.
  - intros H kw rest Hin E.
    assert (isReadOnlyQuery unicodeLower sql = true)
      by (apply isReadOnlyQuery_true; eauto).
    congruence.
  - intros H. destruct (isReadOnlyQuery unicodeLower sql) eqn:E; [|reflexivity].
    apply isReadOnlyQuery_true in E as (kw & rest & Hin & E).
    exfalso. exact (H kw rest Hin E).
Qed.

(* ================================================================ *)
(** ** The [Map] and the heap *)

Lemma Map_lookup_insert (m : list (jsstring * ref)) k v :
  Map_lookup (Map_insert m k v) k = Some v.
Proof.
  induction m as [|[k' v'] m IH]; simpl.
  - destruct (jsstring_eq_dec k k); congruence.
  - destruct (jsstring_eq_dec k k') as [E|E]; simpl.
    + destruct (jsstring_eq_dec k k); congruence.
    + destruct (jsstring_eq_dec k k'); congruence.
Qed.

Lemma Map_lookup_insert_other (m : list (jsstring * ref)) k v k' :
  k' <> k -> Map_lookup (Map_insert m k v) k' = Map_lookup m k'.
Proof.
  intros N. induction m as [|[k0 v0] m IH]; simpl.
  - destruct (jsstring_eq_dec k' k); congruence.
  - destruct (jsstring_eq_dec k k0) as [E|E]; simpl.
    + subst. destruct (jsstring_eq_dec k' k0); congruence.
    + destruct (jsstring_eq_dec k' k0); congruence.
Qed.

Lemma length_Map_insert (m : list (jsstring * ref)) k v :
  List.length (Map_insert m k v)
  = match Map_lookup m k with
    | Some _ => List.length m
    | None => S (List.length m)
    end.
Proof.
  induction m as [|[k' v'] m IH]; simpl; [reflexivity|].
  destruct (jsstring_eq_dec k k'); simpl; [reflexivity|].
  rewrite IH. destruct (Map_lookup m k); reflexivity.
Qed.

Lemma Map_lookup_remove (m : list (jsstring * ref)) k :
  Map_lookup (Map_remove m k) k = None.
Proof.
  induction m as [|[k' v'] m IH]; simpl; [reflexivity|].
  destruct (jsstring_eq_dec k k') as [E|E]; simpl; [exact IH|].
  destruct (jsstring_eq_dec k k'); congruence.
Qed.

Lemma Map_lookup_remove_other (m : list (jsstring * ref)) k k' :
  k' <> k -> Map_lookup (Map_remove m k) k' = Map_lookup m k'.
Proof.
  intros N. induction m as [|[k0 v0] m IH]; simpl; [reflexivity|].
  destruct (jsstring_eq_dec k k0) as [E|E]; simpl.
  - subst. destruct (jsstring_eq_dec k' k0); congruence.
  - destruct (jsstring_eq_dec k' k0); congruence.
Qed.

Lemma Map_lookup_None (m : list (jsstring * ref)) k :
  Map_lookup m k = None <-> ~ In k (map fst m).
Proof.
  induction m as [|[k' v'] m IH]; simpl.
  - (tidy; tauto).
  - destruct (jsstring_eq_dec k k'); split; intros H.
    + discriminate.
    + exfalso. apply H. left. congruence.
    + intros [E|I]; [congruence|]. apply IH in H. contradiction.
    + apply IH. (tidy; tauto).
Qed.

Lemma Map_remove_absent (m : list (jsstring * ref)) k :
  Map_lookup m k = None -> Map_remove m k = m.
Proof.
  induction m as [|[k' v'] m IH]; simpl; [reflexivity|].
  destruct (jsstring_eq_dec k k'); [discriminate|].
  intros H. rewrite IH by assumption. reflexivity.
Qed.

Lemma Map_remove_keys (m : list (jsstring * ref)) k :
  map fst (Map_remove m k)
  = filter (fun k' => negb (jsstring_eqb k k')) (map fst m).
Proof.
  induction m as [|[k' v'] m IH]; simpl; [reflexivity|].
  unfold jsstring_eqb at 1.
  destruct (jsstring_eq_dec k k'); simpl; rewrite IH; reflexivity.
Qed.

Lemma Map_wf_remove (m : list (jsstring * ref)) k :
  Map_wf m -> Map_wf (Map_remove m k).
Proof.
  unfold Map_wf. rewrite Map_remove_keys. apply NoDup_filter.
Qed.

Lemma Map_insert_keys (m : list (jsstring * ref)) k v :
  map fst (Map_insert m k v)
  = match Map_lookup m k with
    | Some _ => map fst m
    | None => map fst m ++ [k]
    end.
Proof.
  induction m as [|[k' v'] m IH]; simpl; [reflexivity|].
  destruct (jsstring_eq_dec k k'); simpl; [congruence|].
  rewrite IH. destruct (Map_lookup m k); reflexivity.
Qed.

Lemma Map_wf_insert (m : list (jsstring * ref)) k v :
  Map_wf m -> Map_wf (Map_insert m k v).
Proof.
  unfold Map_wf. rewrite Map_insert_keys.
  destruct (Map_lookup m k) eqn:E; [trivial|].
  intros H. apply NoDup_app; [assumption | repeat constructor; simpl; (tidy; tauto) |].
  intros a Ha [<-|[]]. apply Map_lookup_None in E. contradiction.
Qed.

Lemma heap_get_new (h : list TrackedTransaction) t :
  heap_get (h ++ [t]) (List.length h) = t.
Proof.
  unfold heap_get. rewrite app_nth2, Nat.sub_diag by lia. reflexivity.
Qed.

Lemma heap_get_old (h : list TrackedTransaction) t r :
  r < List.length h -> heap_get (h ++ [t]) r = heap_get h r.
Proof. intros H. unfold heap_get. apply app_nth1, H. Qed.

Lemma heap_get_update (h : list TrackedTransaction) r f :
  r < List.length h -> heap_get (heap_update h r f) r = f (heap_get h r).
Proof.
  revert r; induction h as [|t h IH]; intros [|r] H; simpl in *; try lia.
  - reflexivity.
  - apply IH. lia.
Qed.

Lemma heap_get_update_other (h : list TrackedTransaction) r f r' :
  r' <> r -> heap_get (heap_update h r f) r' = heap_get h r'.
Proof.
  revert r r'; induction h as [|t h IH]; intros [|r] [|r'] H; simpl in *;
    try reflexivity; try congruence.
  apply IH. congruence.
Qed.

Lemma length_heap_update (h : list TrackedTransaction) r f :
  List.length (heap_update h r f) = List.length h.
Proof.
  revert r; induction h as [|t h IH]; intros [|r]; simpl; congruence.
Qed.

(** A reference whose object is not marked released is no dangling
    one. *)
Lemma unreleased_in_heap (h : list TrackedTransaction) r :
  tx_released (heap_get h r) = false -> r < List.length h.
Proof.
  unfold heap_get. intros H. destruct (Nat.lt_ge_cases r (List.length h)) as [L|L].
  - exact L.
  - rewrite nth_overflow in H by exact L. discriminate.
Qed.

Lemma heap_update_clients (h : list TrackedTransaction) r f :
  (forall t, tx_client (f t) = tx_client t) ->
  map tx_client (heap_update h r f) = map tx_client h.
Proof.
  intros Hf. revert r; induction h as [|t h IH]; intros [|r]; simpl;
    try reflexivity; [rewrite Hf | rewrite IH]; reflexivity.
Qed.

Lemma heap_update_marked_same (h : list TrackedTransaction) r f :
  (forall t, tx_client (f t) = tx_client t) ->
  (forall t, tx_released (f t) = tx_released t) ->
  marked_released (heap_update h r f) = marked_released h.
Proof.
  intros Hc Hr. unfold marked_released.
  revert r; induction h as [|t h IH]; intros [|r]; simpl; try reflexivity.
  - rewrite Hr. destruct (tx_released t); simpl; rewrite ?Hc; reflexivity.
  - destruct (tx_released t); simpl; rewrite IH; reflexivity.
Qed.

Lemma heap_update_marked_new (h : list TrackedTransaction) r c :
  tx_released (heap_get h r) = false ->
  count_occ Nat.eq_dec (marked_released (heap_update h r (with_released true))) c
  = count_occ Nat.eq_dec (marked_released h) c
    + count_occ Nat.eq_dec [tx_client (heap_get h r)] c.
Proof.
  unfold marked_released, heap_get.
  revert r; induction h as [|t h IH]; intros [|r] H; simpl in *;
    try discriminate.
  - rewrite H. simpl.
    destruct (Nat.eq_dec (tx_client t) c); lia.
  - destruct (tx_released t); simpl; rewrite (IH r H); simpl;
      destruct (Nat.eq_dec (tx_client t) c);
      destruct (Nat.eq_dec (tx_client (nth r h noTransaction)) c); lia.
Qed.

Lemma marked_released_le (h : list TrackedTransaction) c :
  count_occ Nat.eq_dec (marked_released h) c
  <= count_occ Nat.eq_dec (map tx_client h) c.
Proof.
  unfold marked_released. induction h as [|t h IH]; simpl; [lia|].
  destruct (tx_released t); simpl; destruct (Nat.eq_dec (tx_client t) c); lia.
Qed.

Lemma releases_of_app (h1 h2 : list event) :
  releases_of (h1 ++ h2) = releases_of h1 ++ releases_of h2.
Proof.
  induction h1 as [|[| | |] h1 IH]; simpl; rewrite ?IH; reflexivity.
Qed.

Lemma queries_of_app (h1 h2 : list event) :
  queries_of (h1 ++ h2) = queries_of h1 ++ queries_of h2.
Proof.
  induction h1 as [|[| | |] h1 IH]; simpl; rewrite ?IH; reflexivity.
Qed.

Lemma connects_of_app (h1 h2 : list event) :
  connects_of (h1 ++ h2) = connects_of h1 + connects_of h2.
Proof.
  induction h1 as [|[| | |] h1 IH]; simpl; rewrite ?IH; reflexivity.
Qed.

(* ================================================================ *)
(** ** [addTransaction] and [removeTransaction] *)

(** C9, as the code has it.  [addTransaction] puts an entry for [id] in
    the registry, with [state = active], [released = false] and
    [startTime] the time of the call, and it never fails: an [id] that is
    new makes the registry one larger; for an [id] that is present the
    entry is replaced by the new one, the count stays, and no connection
    is released (the connection of the entry replaced stays checked
    out).  The entries of the other ids and the objects already in the
    heap stay as they are. *)
Theorem addTransaction_inserts_or_replaces :
  forall (s : Store) (id : jsstring) (c : Client) (sql : jsstring),
    let s' := snd (addTransaction id c sql s) in
    fst (addTransaction id c sql s) = Normal tt
    /\ (exists r,
           Map_lookup (transactions s') id = Some r
           /\ heap_get (heap s') r
              = {| tx_id := id; tx_client := c; tx_startTime := clock s;
                   tx_sql := sql; tx_state := active; tx_released := false |})
    /\ (forall id', id' <> id ->
           Map_lookup (transactions s') id' = Map_lookup (transactions s) id')
    /\ List.length (transactions s')
       = match Map_lookup (transactions s) id with
         | Some _ => List.length (transactions s)
         | None => S (List.length (transactions s))
         end
    /\ (forall r, r < List.length (heap s) ->
           heap_get (heap s') r = heap_get (heap s) r)
    /\ releases_of (history s') = releases_of (history s).
Proof.
  intros s id c sql. cbv zeta. unfold addTransaction, bindM, Date_now,
    new_object, Map_set, console_log, emit. simpl.
  split; [reflexivity|]. split; [|split; [|split; [|split]]].
  - exists (List.length (heap s)). split.
    + apply Map_lookup_insert.
    + apply heap_get_new.
  - intros id' N. apply Map_lookup_insert_other, N.
  - apply length_Map_insert.
  - intros r H. apply heap_get_old, H.
  - rewrite releases_of_app, app_nil_r. reflexivity.
Qed.

(** What [removeTransaction] does, in one statement. *)
Lemma removeTransaction_effect (s : Store) (id : jsstring) :
  let s' := snd (removeTransaction id s) in
  fst (removeTransaction id s) = Normal tt
  /\ transactions s' = Map_remove (transactions s) id
  /\ releases_of (history s') = releases_of (history s) ++ to_release s id
  /\ queries_of (history s') = queries_of (history s)
  /\ connects_of (history s') = connects_of (history s)
  /\ heap s'
     = match to_release s id, Map_lookup (transactions s) id with
       | _ :: _, Some r => heap_update (heap s) r (with_released true)
       | _, _ => heap s
       end
  /\ timers s' = timers s /\ monitorInterval s' = monitorInterval s
  /\ clock s' = clock s /\ timeoutMs s' = timeoutMs s.
Proof.
  cbv zeta. unfold to_release, removeTransaction, bindM, Map_get, deref,
    safelyReleaseClient, tryCatch, client_release, assign, Map_delete,
    console_log, console_error, emit, ret. simpl.
  destruct (Map_lookup (transactions s) id) as [r|]; simpl.
  - destruct (tx_released (heap_get (heap s) r)); simpl.
    + rewrite releases_of_app, queries_of_app, connects_of_app, !app_nil_r.
      simpl. repeat split; lia.
    + destruct (releaseThrows s (tx_client (heap_get (heap s) r))); simpl;
        rewrite ?releases_of_app, ?queries_of_app, ?connects_of_app; simpl;
        rewrite ?releases_of_app, ?queries_of_app, ?connects_of_app; simpl;
        rewrite ?app_nil_r; repeat split; lia.
  - rewrite releases_of_app, queries_of_app, connects_of_app, !app_nil_r.
    simpl. repeat split; lia.
Qed.

Lemma to_release_after_remove (s : Store) (id : jsstring) :
  to_release (snd (removeTransaction id s)) id = [].
Proof.
  unfold to_release.
  destruct (removeTransaction_effect s id) as (_ & -> & _).
  rewrite Map_lookup_remove. reflexivity.
Qed.

(** [removeTransaction] keeps the account of releases. *)
Lemma removeTransaction_accounted (s : Store) (id : jsstring) :
  accounted s -> accounted (snd (removeTransaction id s)).
Proof.
  intros J c.
  destruct (removeTransaction_effect s id) as (_ & _ & -> & _ & _ & -> & _).
  rewrite count_occ_app, J. unfold to_release.
  destruct (Map_lookup (transactions s) id) as [r|]; simpl; [|lia].
  destruct (tx_released (heap_get (heap s) r)) eqn:R; simpl; [lia|].
  rewrite heap_update_marked_new by exact R. simpl. reflexivity.
Qed.

Lemma removeTransaction_clients (s : Store) (id : jsstring) :
  map tx_client (heap (snd (removeTransaction id s))) = map tx_client (heap s).
Proof.
  destruct (removeTransaction_effect s id) as (_ & _ & _ & _ & _ & -> & _).
  destruct (to_release s id); [reflexivity|].
  destruct (Map_lookup (transactions s) id); [|reflexivity].
  apply heap_update_clients. reflexivity.
Qed.

(* ================================================================ *)
(** ** Running trees *)

Lemma run_bind : forall (A : Type) (p : async A) (B : Type) (f : A -> async B) (l : Loop),
  run (bind p f) l
  = match run p l with
    | (Finished (Normal a), l') => run (f a) l'
    | (Finished (Throw e), l') => (Finished (Throw e), l')
    | (OnQuery c text k, l') => (OnQuery c text (fun r => bind (k r) f), l')
    | (OnConnect k, l') => (OnConnect (fun r => bind (k r) f), l')
    end.
Proof.
  induction p as [A a|A e|A B0 m k IH|A c text k IH|A k IH|A child IHc k IHk];
    intros B f l; simpl; try reflexivity.
  - destruct (m (store l)) as [r s']. apply IH.
  - destruct (run child l) as [o l']. apply IHk.
Qed.

Lemma run_try_catch : forall (A : Type) (p : async A) (h : error -> async A) (l : Loop),
  run (try_catch p h) l
  = match run p l with
    | (Finished (Normal a), l') => (Finished (Normal a), l')
    | (Finished (Throw e), l') => run (h e) l'
    | (OnQuery c text k, l') => (OnQuery c text (fun r => try_catch (k r) h), l')
    | (OnConnect k, l') => (OnConnect (fun r => try_catch (k r) h), l')
    end.
Proof.
  induction p as [A a|A e|A B0 m k IH|A c text k IH|A k IH|A child IHc k IHk];
    intros h l; simpl; try reflexivity.
  - destruct (m (store l)) as [r s']. apply IH.
  - destruct (run child l) as [o l']. apply IHk.
Qed.

Lemma run_try_finally : forall (A : Type) (p : async A) (f : async unit) (l : Loop),
  run (try_finally p f) l
  = match run p l with
    | (Finished r, l') => run (bind f (fun _ => resume r)) l'
    | (OnQuery c text k, l') => (OnQuery c text (fun r => try_finally (k r) f), l')
    | (OnConnect k, l') => (OnConnect (fun r => try_finally (k r) f), l')
    end.
Proof.
  induction p as [A a|A e|A B0 m k IH|A c text k IH|A k IH|A child IHc k IHk];
    intros f l; simpl; try reflexivity.
  - destruct (m (store l)) as [r s']. apply IH.
  - destruct (run child l) as [o l']. apply IHk.
Qed.

Lemma run_lift (A : Type) (m : M A) (l : Loop) :
  run (lift m) l = (Finished (fst (m (store l))), with_store (snd (m (store l))) l).
Proof.
  unfold lift. simpl. destruct (m (store l)) as [[a|e] s']; reflexivity.
Qed.

Lemma run_resume (A : Type) (r : completion A) (l : Loop) :
  run (resume r) l = (Finished r, l).
Proof. destruct r; reflexivity. Qed.

Lemma run_fire_and_forget (p : async unit) h (l : Loop) :
  run (fire_and_forget p h) l
  = (Finished (Normal tt), spawn (try_catch p h) l).
Proof.
  unfold fire_and_forget, spawn. simpl.
  destruct (run (try_catch p h) l). reflexivity.
Qed.

(** The same for a call followed to its return. *)
Lemma complete_bind : forall (A : Type) (p : async A) (B : Type) (f : A -> async B) (l : Loop),
  complete (bind p f) l
  = match complete p l with
    | (Normal a, l') => complete (f a) l'
    | (Throw e, l') => (Throw e, l')
    end.
Proof.
  induction p as [A a|A e|A B0 m k IH|A c text k IH|A k IH|A child IHc k IHk];
    intros B f l; simpl; try reflexivity.
  - destruct (m (store l)) as [r s']. apply IH.
  - destruct (queryAnswer (store l) c text) as [r t]. apply IH.
  - destruct (connectAnswer (store l)) as [r t]. apply IH.
  - destruct (run child l) as [o l']. apply IHk.
Qed.

Lemma complete_try_catch :
  forall (A : Type) (p : async A) (h : error -> async A) (l : Loop),
  complete (try_catch p h) l
  = match complete p l with
    | (Normal a, l') => (Normal a, l')
    | (Throw e, l') => complete (h e) l'
    end.
Proof.
  induction p as [A a|A e|A B0 m k IH|A c text k IH|A k IH|A child IHc k IHk];
    intros h l; simpl; try reflexivity.
  - destruct (m (store l)) as [r s']. apply IH.
  - destruct (queryAnswer (store l) c text) as [r t]. apply IH.
  - destruct (connectAnswer (store l)) as [r t]. apply IH.
  - destruct (run child l) as [o l']. apply IHk.
Qed.

Lemma complete_try_finally :
  forall (A : Type) (p : async A) (f : async unit) (l : Loop),
  complete (try_finally p f) l
  = match complete p l with
    | (r, l') => complete (bind f (fun _ => resume r)) l'
    end.
Proof.
  induction p as [A a|A e|A B0 m k IH|A c text k IH|A k IH|A child IHc k IHk];
    intros f l; simpl; try reflexivity.
  - destruct (m (store l)) as [r s']. apply IH.
  - destruct (queryAnswer (store l) c text) as [r t]. apply IH.
  - destruct (connectAnswer (store l)) as [r t]. apply IH.
  - destruct (run child l) as [o l']. apply IHk.
Qed.

Lemma complete_lift (A : Type) (m : M A) (l : Loop) :
  complete (lift m) l = (fst (m (store l)), with_store (snd (m (store l))) l).
Proof.
  unfold lift. simpl. destruct (m (store l)) as [[a|e] s']; reflexivity.
Qed.

Lemma complete_resume (A : Type) (r : completion A) (l : Loop) :
  complete (resume r) l = (r, l).
Proof. destruct r; reflexivity. Qed.

(** *** Trees whose steps keep an invariant *)

Lemma keeps_resume J (A : Type) (r : completion A) : keeps J (resume r).
Proof. destruct r; exact I. Qed.

Lemma keeps_lift J (A : Type) (m : M A) :
  (forall s, J s -> J (snd (m s))) -> keeps J (lift m).
Proof. intros H. split; [exact H | intros r; apply keeps_resume]. Qed.

Lemma keeps_bind J : forall (A : Type) (p : async A) (B : Type) (f : A -> async B),
  keeps J p -> (forall a, keeps J (f a)) -> keeps J (bind p f).
Proof.
  induction p as [A a|A e|A B0 m k IH|A c text k IH|A k IH|A child IHc k IHk];
    intros B f Hp Hf; simpl in *; auto.
  - destruct Hp as [Hm Hk]. split; [exact Hm | intros r; apply IH; auto].
  - destruct Hp as [Hc Hk]. split; [exact Hc | apply IHk; auto].
Qed.

Lemma keeps_try_catch J : forall (A : Type) (p : async A) (h : error -> async A),
  keeps J p -> (forall e, keeps J (h e)) -> keeps J (try_catch p h).
Proof.
  induction p as [A a|A e|A B0 m k IH|A c text k IH|A k IH|A child IHc k IHk];
    intros h Hp Hh; simpl in *; auto.
  - destruct Hp as [Hm Hk]. split; [exact Hm | intros r; apply IH; auto].
  - destruct Hp as [Hc Hk]. split; [exact Hc | apply IHk; auto].
Qed.

Lemma keeps_try_finally J : forall (A : Type) (p : async A) (f : async unit),
  keeps J p -> keeps J f -> keeps J (try_finally p f).
Proof.
  induction p as [A a|A e|A B0 m k IH|A c text k IH|A k IH|A child IHc k IHk];
    intros f Hp Hf; simpl in *; auto.
  - apply keeps_bind; [exact Hf | intros; exact I].
  - apply keeps_bind; [exact Hf | intros; exact I].
  - destruct Hp as [Hm Hk]. split; [exact Hm | intros r; apply IH; auto].
  - destruct Hp as [Hc Hk]. split; [exact Hc | apply IHk; auto].
Qed.

Definition outcome_keeps (J : Store -> Prop) {A : Type} (o : outcome A) : Prop :=
  match o with
  | Finished _ => True
  | OnQuery _ _ k => forall r, keeps J (k r)
  | OnConnect k => forall r, keeps J (k r)
  end.

Lemma park_keeps J (o : outcome unit) (l : Loop) :
  outcome_keeps J o -> Forall (task_keeps J) (tasks l) ->
  Forall (task_keeps J) (tasks (park o l)).
Proof.
  intros Ho Hl. destruct o; simpl; try exact Hl;
    apply Forall_app; split; try exact Hl; repeat constructor; exact Ho.
Qed.

(** A tree whose steps keep [J], run among tasks whose steps keep [J],
    leaves a loop of the same kind. *)
Lemma run_keeps J : forall (A : Type) (p : async A) (l : Loop),
  keeps J p -> Forall (task_keeps J) (tasks l) ->
  (J (store l) -> J (store (snd (run p l))))
  /\ Forall (task_keeps J) (tasks (snd (run p l)))
  /\ outcome_keeps J (fst (run p l)).
Proof.
  induction p as [A a|A e|A B0 m k IH|A c text k IH|A k IH|A child IHc k IHk];
    intros l Hp Ht; simpl in *; auto.
  - destruct Hp as [Hm Hk]. specialize (Hm (store l)).
    destruct (m (store l)) as [r s']. simpl in Hm.
    destruct (IH r (with_store s' l) (Hk r) Ht) as (Hs' & Ht' & Ho).
    auto.
  - destruct Hp as [Hc Hk].
    destruct (IHc l Hc Ht) as (Hs' & Ht' & Ho).
    destruct (run child l) as [o l']. simpl in *.
    destruct (IHk (park o l') Hk (park_keeps _ _ Ho Ht')) as (Hs'' & Ht'' & Ho').
    repeat split; auto.
    intros Hs. apply Hs''. destruct o; apply Hs', Hs.
Qed.

(* ================================================================ *)
(** ** [rollbackAndRemove] and [commitAndRemove] *)

Arguments bind : simpl never.
Arguments try_catch : simpl never.
Arguments try_finally : simpl never.
Arguments lift : simpl never.
Arguments resume : simpl never.
Arguments run : simpl never.
Arguments complete : simpl never.
Arguments removeTransaction : simpl never.
Arguments record : simpl never.
Arguments set_heap : simpl never.

Lemma run_client_query (c : Client) (text : jsstring) (l : Loop) :
  run (client_query c text) l
  = match queryThrows (store l) c text with
    | Some e =>
        (Finished (Throw e), with_store (record (ClientQuery c text) (store l)) l)
    | None =>
        (OnQuery c text resume, with_store (record (ClientQuery c text) (store l)) l)
    end.
Proof.
  unfold client_query. rewrite run_bind, run_lift. unfold client_query_call.
  destruct (queryThrows (store l) c text); reflexivity.
Qed.

Lemma heap_get_update_client (h : list TrackedTransaction) r f :
  (forall t, tx_client (f t) = tx_client t) ->
  tx_client (heap_get (heap_update h r f) r) = tx_client (heap_get h r).
Proof.
  intros Hf. unfold heap_get.
  revert r; induction h as [|t h IH]; intros [|r]; simpl; auto.
Qed.

Lemma with_store_twice (s s' : Store) (l : Loop) :
  with_store s (with_store s' l) = with_store s l.
Proof. reflexivity. Qed.

Lemma removeTransaction_normal (s : Store) (id : jsstring) :
  fst (removeTransaction id s) = Normal tt.
Proof. apply removeTransaction_effect. Qed.

Ltac run_step :=
  repeat (first [ rewrite run_bind | rewrite run_try_finally
                | rewrite run_try_catch | rewrite run_lift
                | rewrite run_resume | rewrite run_client_query
                | rewrite removeTransaction_normal ];
          simpl; rewrite ?with_store_twice).

Lemma rollbackAndRemove_runs (l : Loop) (id initiator reason : jsstring) :
  match Map_lookup (transactions (store l)) id with
  | None =>
      run (rollbackAndRemove id initiator reason) l
      = (Finished (Normal tt),
         with_store (record (Console (LogRollbackMissing id)) (store l)) l)
  | Some r =>
      let c := tx_client (heap_get (heap (store l)) r) in
      let s0 := record (Console (LogRollingBack id initiator reason))
                  (set_heap (heap_update (heap (store l)) r (with_state terminating))
                            (store l)) in
      let s1 := record (ClientQuery c (js "ROLLBACK")) s0 in
      match queryThrows s0 c (js "ROLLBACK") with
      | Some e =>
          run (rollbackAndRemove id initiator reason) l
          = (Finished (Normal tt),
             with_store (snd (removeTransaction id
                                (record (Console (ErrRollback id e)) s1))) l)
      | None =>
          exists k,
            run (rollbackAndRemove id initiator reason) l
            = (OnQuery c (js "ROLLBACK") k, with_store s1 l)
            /\ forall o l2,
                run (k o) l2
                = (Finished (Normal tt),
                   with_store
                     (snd (removeTransaction id
                             (record (Console match o with
                                              | Normal _ => LogRolledBack id
                                              | Throw e => ErrRollback id e
                                              end) (store l2)))) l2)
      end
  end.
Proof.
  unfold rollbackAndRemove. rewrite run_bind, run_lift. simpl.
  destruct (Map_lookup (transactions (store l)) id) as [r|].
  - run_step.
    rewrite heap_get_update_client by reflexivity.
    destruct (queryThrows _ _ _) as [e|].
    + run_step. reflexivity.
    + eexists. split; [reflexivity|].
      intros o l2. destruct o as [a|e]; run_step; reflexivity.
  - reflexivity.
Qed.

Lemma with_store_same (l : Loop) : with_store (store l) l = l.
Proof. destruct l; reflexivity. Qed.

Lemma commitAndRemove_runs (l : Loop) (id : jsstring) :
  match Map_lookup (transactions (store l)) id with
  | None =>
      run (commitAndRemove id) l = (Finished (Throw (CommitNotFound id)), l)
  | Some r =>
      let c := tx_client (heap_get (heap (store l)) r) in
      let s0 := set_heap (heap_update (heap (store l)) r (with_state terminating))
                         (store l) in
      let s1 := record (ClientQuery c (js "COMMIT")) s0 in
      match queryThrows s0 c (js "COMMIT") with
      | Some e =>
          run (commitAndRemove id) l
          = (Finished (Throw e), with_store (snd (removeTransaction id s1)) l)
      | None =>
          exists k,
            run (commitAndRemove id) l
            = (OnQuery c (js "COMMIT") k, with_store s1 l)
            /\ forall o l2,
                run (k o) l2
                = (Finished match o with
                            | Normal _ => Normal tt
                            | Throw e => Throw e
                            end,
                   with_store
                     (snd (removeTransaction id
                             match o with
                             | Normal _ =>
                                 record (Console (LogCommitted id)) (store l2)
                             | Throw _ => store l2
                             end)) l2)
      end
  end.
Proof.
  unfold commitAndRemove. rewrite run_bind, run_lift. simpl.
  destruct (Map_lookup (transactions (store l)) id) as [r|].
  - run_step.
    rewrite heap_get_update_client by reflexivity.
    destruct (queryThrows _ _ _) as [e|].
    + run_step. reflexivity.
    + eexists. split; [reflexivity|].
      intros o l2. destruct o as [a|e]; run_step; reflexivity.
  - rewrite with_store_same. reflexivity.
Qed.

Lemma heap_get_update_field (X : Type) (g : TrackedTransaction -> X)
      (h : list TrackedTransaction) r f r' :
  (forall t, g (f t) = g t) ->
  g (heap_get (heap_update h r f) r') = g (heap_get h r').
Proof.
  intros Hf. unfold heap_get.
  revert r r'; induction h as [|t h IH]; intros [|r] [|r']; simpl; auto.
Qed.

Lemma to_release_with_state (s : Store) r v id :
  to_release (set_heap (heap_update (heap s) r (with_state v)) s) id
  = to_release s id.
Proof.
  unfold to_release. simpl.
  destruct (Map_lookup (transactions s) id) as [r'|]; [|reflexivity].
  rewrite (heap_get_update_field tx_released) by reflexivity.
  rewrite (heap_get_update_field tx_client) by reflexivity.
  reflexivity.
Qed.

Lemma removeTransaction_history (s : Store) (id : jsstring) :
  exists evs, history (snd (removeTransaction id s)) = history s ++ evs.
Proof.
  unfold removeTransaction, bindM, Map_get, deref, safelyReleaseClient,
    tryCatch, client_release, assign, Map_delete, console_log,
    console_error, emit, ret, record. simpl.
  destruct (Map_lookup (transactions s) id) as [r|]; simpl.
  - destruct (tx_released (heap_get (heap s) r)); simpl.
    + eexists; reflexivity.
    + destruct (releaseThrows s (tx_client (heap_get (heap s) r))); simpl;
        rewrite <- ?app_assoc; eexists; reflexivity.
  - eexists; reflexivity.
Qed.

Lemma has_after_remove (s : Store) (id : jsstring) (l : Loop) :
  has (with_store (snd (removeTransaction id s)) l) id = false.
Proof.
  unfold has. simpl.
  destruct (removeTransaction_effect s id) as (_ & -> & _).
  rewrite Map_lookup_remove. reflexivity.
Qed.

Lemma removeTransaction_state (s : Store) (id : jsstring) (r : ref) :
  tx_state (heap_get (heap (snd (removeTransaction id s))) r)
  = tx_state (heap_get (heap s) r).
Proof.
  destruct (removeTransaction_effect s id) as (_ & _ & _ & _ & _ & -> & _).
  destruct (to_release s id); [reflexivity|].
  destruct (Map_lookup (transactions s) id); [|reflexivity].
  apply (heap_get_update_field tx_state). reflexivity.
Qed.

(** The state of an object of the heap after the registry has set it to
    [terminating]. *)
Lemma state_set_terminating (h : list TrackedTransaction) (r : ref) :
  r < List.length h ->
  tx_state (heap_get (heap_update h r (with_state terminating)) r) = terminating.
Proof. intros H. rewrite heap_get_update by exact H. reflexivity. Qed.

(* ================================================================ *)
(** ** Invariants of the registry *)

Lemma keeps_client_query J (c : Client) (text : jsstring) :
  stable J -> keeps J (client_query c text).
Proof.
  intros (Hrec & _). unfold client_query.
  apply keeps_bind.
  - apply keeps_lift. intros s Hs. unfold client_query_call.
    destruct (queryThrows s c text); apply Hrec; auto; discriminate.
  - intros _ r. apply keeps_resume.
Qed.

Lemma keeps_log J (ln : line) : stable J -> keeps J (lift (console_log ln)).
Proof.
  intros (Hrec & _). apply keeps_lift. intros s Hs.
  apply Hrec; auto; discriminate.
Qed.

Lemma keeps_removeTransaction J (id : jsstring) :
  stable J -> keeps J (lift (removeTransaction id)).
Proof. intros (_ & _ & Hrm & _). apply keeps_lift. intros s. apply Hrm. Qed.

Lemma keeps_rollbackAndRemove J (id initiator reason : jsstring) :
  stable J -> keeps J (rollbackAndRemove id initiator reason).
Proof.
  intros St. pose proof St as (Hrec & Hst & Hrm & _).
  unfold rollbackAndRemove.
  apply keeps_bind; [apply keeps_lift; auto|].
  intros [r|]; [|apply keeps_log, St].
  apply keeps_bind; [apply keeps_lift; intros s; apply Hst|]. intros _.
  apply keeps_try_finally; [|apply keeps_removeTransaction, St].
  apply keeps_try_catch; [|intros e; apply keeps_log, St].
  apply keeps_bind; [apply keeps_log, St|]. intros _.
  apply keeps_bind; [apply keeps_lift; auto|]. intros t.
  apply keeps_bind; [apply keeps_client_query, St|]. intros _.
  apply keeps_log, St.
Qed.

Lemma keeps_commitAndRemove J (id : jsstring) :
  stable J -> keeps J (commitAndRemove id).
Proof.
  intros St. pose proof St as (Hrec & Hst & Hrm & _).
  unfold commitAndRemove.
  apply keeps_bind; [apply keeps_lift; auto|].
  intros [r|]; [|exact I].
  apply keeps_bind; [apply keeps_lift; intros s; apply Hst|]. intros _.
  apply keeps_try_finally; [|apply keeps_removeTransaction, St].
  apply keeps_bind; [apply keeps_lift; auto|]. intros t.
  apply keeps_bind; [apply keeps_client_query, St|]. intros _.
  apply keeps_log, St.
Qed.

Lemma keeps_fire_and_forget J (p : async unit) h :
  keeps J p -> (forall e, keeps J (h e)) -> keeps J (fire_and_forget p h).
Proof.
  intros Hp Hh. split; [|exact I]. apply keeps_try_catch; assumption.
Qed.

Lemma keeps_for_of J (X : Type) (xs : list X) (body : X -> async unit) :
  (forall x, keeps J (body x)) -> keeps J (for_of xs body).
Proof.
  intros Hb. induction xs as [|x xs IH]; cbn [for_of]; [exact I|].
  apply keeps_bind; auto.
Qed.

Lemma keeps_forEach_from J (keys : list jsstring) callback :
  (forall r k, keeps J (callback r k)) -> keeps J (forEach_from keys callback).
Proof.
  intros Hb. induction keys as [|k keys IH]; cbn [forEach_from]; [exact I|].
  apply keeps_bind; [apply keeps_lift; auto|]. intros [r|];
    (apply keeps_bind; [|intros _; exact IH]); [apply Hb | exact I].
Qed.

Lemma keeps_checkTransactionTimeouts J :
  stable J -> keeps J checkTransactionTimeouts.
Proof.
  intros St. unfold checkTransactionTimeouts, Map_forEach.
  apply keeps_bind; [apply keeps_lift; auto|]. intros now.
  apply keeps_bind; [apply keeps_lift; auto|]. intros keys.
  apply keeps_forEach_from. intros r k.
  apply keeps_bind; [apply keeps_lift; auto|]. intros t.
  apply keeps_bind; [apply keeps_lift; auto|]. intros timeout.
  destruct (_ >? _)%Z; [|exact I].
  apply keeps_bind; [apply keeps_log, St|]. intros _.
  apply keeps_fire_and_forget; [apply keeps_rollbackAndRemove, St|].
  intros e. apply keeps_log, St.
Qed.

Lemma keeps_destroy J : stable J -> keeps J destroy.
Proof.
  intros St. pose proof St as (_ & _ & _ & Hmon & _). unfold destroy.
  apply keeps_bind.
  - apply keeps_lift. intros s Hs.
    unfold bindM, get_monitorInterval, clearInterval, set_monitorInterval, ret.
    simpl. destruct (monitorInterval s); simpl; auto.
  - intros _. apply keeps_bind; [apply keeps_lift; auto|]. intros ids.
    apply keeps_for_of. intros id.
    apply keeps_fire_and_forget; [apply keeps_rollbackAndRemove, St|].
    intros e. apply keeps_log, St.
Qed.

Lemma spawn_keeps J (p : async unit) (l : Loop) :
  keeps J p -> Forall (task_keeps J) (tasks l) ->
  (J (store l) -> J (store (spawn p l)))
  /\ Forall (task_keeps J) (tasks (spawn p l)).
Proof.
  intros Hp Ht. unfold spawn.
  destruct (@run_keeps J _ p l Hp Ht) as (Hs' & Ht' & Ho).
  destruct (run p l) as [o l']. simpl in *. split.
  - destruct o; exact Hs'.
  - apply park_keeps; assumption.
Qed.

Lemma Forall_remove_nth (X : Type) (P : X -> Prop) (i : nat) (xs : list X) :
  Forall P xs -> Forall P (remove_nth i xs).
Proof.
  intros H. revert i. induction H as [|x xs Hx Hxs IH]; intros [|i]; simpl;
    auto.
Qed.

Lemma settle_query_keeps J (i : nat) (r : completion QueryResult) (l : Loop) :
  Forall (task_keeps J) (tasks l) ->
  (J (store l) -> J (store (settle_query i r l)))
  /\ Forall (task_keeps J) (tasks (settle_query i r l)).
Proof.
  intros Ht. unfold settle_query.
  destruct (nth_error (tasks l) i) as [[c text k|k]|] eqn:E; auto.
  assert (Hk : task_keeps J (TaskQuery c text k)).
  { rewrite Forall_forall in Ht. apply Ht. eapply nth_error_In, E. }
  apply (@spawn_keeps J (k r) {| store := store l; tasks := remove_nth i (tasks l) |});
    [apply Hk | apply Forall_remove_nth, Ht].
Qed.

Lemma stable_staged_are (L : list Client) : stable (staged_are L).
Proof.
  unfold stable, staged_are, accounted.
  split; [|split; [|split; [|split]]].
  - intros s e He [Ha Hc]. split; [|exact Hc].
    intros c. unfold record. simpl.
    rewrite releases_of_app, count_occ_app, Ha.
    destruct e; simpl; try lia. exfalso. eapply He. reflexivity.
  - intros s r v [Ha Hc]. simpl. split.
    + intros c. rewrite heap_update_marked_same by reflexivity. apply Ha.
    + rewrite heap_update_clients by reflexivity. exact Hc.
  - intros s id [Ha Hc]. split.
    + apply removeTransaction_accounted. exact Ha.
    + rewrite removeTransaction_clients. exact Hc.
  - intros s mi ts nt H. exact H.
  - intros s t H. exact H.
Qed.

Lemma perform_staged (a : action) (l : Loop) (L : list Client) :
  staged_are L (store l) ->
  (forall L', Forall (task_keeps (staged_are L')) (tasks l)) ->
  staged_are (L ++ staged [a]) (store (perform a l))
  /\ (forall L', Forall (task_keeps (staged_are L')) (tasks (perform a l))).
Proof.
  intros Hs Ht.
  assert (Sp : forall p : async unit,
             (forall L', keeps (staged_are L') p) ->
             staged_are L (store (spawn p l))
             /\ (forall L', Forall (task_keeps (staged_are L'))
                                   (tasks (spawn p l)))).
  { intros p Hp. split.
    - apply (@spawn_keeps (staged_are L) p l (Hp L) (Ht L)), Hs.
    - intros L'. apply (@spawn_keeps (staged_are L') p l (Hp L') (Ht L')). }
  destruct a as [timeout interval enable|id c sql|id|id|id i rz|h| |i r|t];
    simpl; rewrite ?app_nil_r.
  - split; [|exact Ht]. destruct Hs as [Ha Hc].
    unfold sync, TransactionManager_new, startMonitor, bindM,
      get_monitorInterval, clearInterval, setInterval, set_monitorInterval,
      get_monitorIntervalMs, console_log, emit, ret, staged_are, accounted,
      record.
    destruct enable; simpl; [|split; assumption].
    split; [|assumption]. intros c0.
    rewrite releases_of_app, count_occ_app, Ha. simpl. lia.
  - split; [|exact Ht]. destruct Hs as [Ha Hc].
    unfold sync, addTransaction, bindM, Date_now, new_object, Map_set,
      console_log, emit, staged_are, accounted, marked_released, record.
    simpl. split.
    + intros c0. rewrite releases_of_app, count_occ_app, Ha. simpl.
      rewrite filter_app, map_app, count_occ_app. simpl. reflexivity.
    + rewrite map_app, Hc. reflexivity.
  - split; [|exact Ht]. apply stable_staged_are, Hs.
  - apply Sp. intros L'. apply keeps_commitAndRemove, stable_staged_are.
  - apply Sp. intros L'. apply keeps_rollbackAndRemove, stable_staged_are.
  - unfold tick. destruct (existsb _ _); [|auto].
    assert (K : forall L', keeps (staged_are L') checkTransactionTimeouts)
      by (intros L'; apply keeps_checkTransactionTimeouts, stable_staged_are).
    split.
    + apply (@run_keeps (staged_are L) _ _ l (K L) (Ht L)), Hs.
    + intros L'. apply (@run_keeps (staged_are L') _ _ l (K L') (Ht L')).
  - apply Sp. intros L'. apply keeps_destroy, stable_staged_are.
  - split.
    + apply (@settle_query_keeps (staged_are L) i r l (Ht L)), Hs.
    + intros L'. apply (@settle_query_keeps (staged_are L') i r l (Ht L')).
  - split; [|exact Ht]. apply stable_staged_are, Hs.
Qed.

Lemma staged_app (a1 a2 : list action) : staged (a1 ++ a2) = staged a1 ++ staged a2.
Proof.
  induction a1 as [|[] a1 IH]; simpl; rewrite ?IH; reflexivity.
Qed.

Lemma perform_all_staged (acts : list action) :
  forall (l : Loop) (L : list Client),
    staged_are L (store l) ->
    (forall L', Forall (task_keeps (staged_are L')) (tasks l)) ->
    staged_are (L ++ staged acts) (store (perform_all acts l)).
Proof.
  induction acts as [|a acts IH]; intros l L Hs Ht.
  - simpl. rewrite app_nil_r. exact Hs.
  - destruct (perform_staged a l Hs Ht) as [Hs' Ht'].
    specialize (IH _ _ Hs' Ht').
    replace (L ++ staged (a :: acts)) with ((L ++ staged [a]) ++ staged acts)
      by (rewrite <- app_assoc, <- staged_app; reflexivity).
    exact IH.
Qed.

(** However the registry is used, [release] is called on a connection no
    more often than the connection was staged. *)
Lemma released_at_most_as_staged (acts : list action) (c : Client) :
  count_occ Nat.eq_dec (releases_of (history (store (perform_all acts idle)))) c
  <= count_occ Nat.eq_dec (staged acts) c.
Proof.
  assert (H0 : staged_are [] (store idle)) by (split; [intros c0|]; reflexivity).
  destruct (perform_all_staged acts idle H0 (fun _ => Forall_nil _)) as [Ha Hc].
  rewrite Ha. simpl in Hc. rewrite <- Hc. apply marked_released_le.
Qed.

(** C5. [removeTransaction] never fails and leaves no entry for [id].
    If there was an entry whose object was not marked released, [release]
    is called on its connection, once, and the object is marked
    released; if the object was marked already, or if [id] was absent,
    [release] is not called (for an absent [id] the registry and the heap
    stay as they are).  A second [removeTransaction] of the same id
    changes neither the registry nor the heap and releases nothing.  And
    through whatever calls and in whatever order entries are removed
    (directly, by commit, by rollback, by the timer, at shutdown, with
    queries settling in any order), [release] is called on a connection
    at most as often as the connection was staged: at most once for a
    connection staged once. *)
Theorem removeTransaction_releases_once :
  forall (s : Store) (id : jsstring),
    let s1 := snd (removeTransaction id s) in
    let s2 := snd (removeTransaction id s1) in
    fst (removeTransaction id s) = Normal tt
    /\ transactions s1 = Map_remove (transactions s) id
    /\ Map_lookup (transactions s1) id = None
    /\ releases_of (history s1) = releases_of (history s) ++ to_release s id
    /\ match Map_lookup (transactions s) id with
       | Some r => tx_released (heap_get (heap s1) r) = true
       | None => transactions s1 = transactions s /\ heap s1 = heap s
       end
    /\ fst (removeTransaction id s1) = Normal tt
    /\ transactions s2 = transactions s1
    /\ heap s2 = heap s1
    /\ releases_of (history s2) = releases_of (history s1)
    /\ forall (acts : list action) (c : Client),
        count_occ Nat.eq_dec
                  (releases_of (history (store (perform_all acts idle)))) c
        <= count_occ Nat.eq_dec (staged acts) c.
Proof.
  intros s id. cbv zeta.
  destruct (removeTransaction_effect s id) as (Hn & Ht & Hr & _ & _ & Hh & _).
  destruct (removeTransaction_effect (snd (removeTransaction id s)) id)
    as (Hn2 & Ht2 & Hr2 & _ & _ & Hh2 & _).
  assert (L1 : Map_lookup (transactions (snd (removeTransaction id s))) id = None)
    by (rewrite Ht; apply Map_lookup_remove).
  rewrite to_release_after_remove in Hr2, Hh2. rewrite app_nil_r in Hr2.
  repeat split; try assumption.
  - unfold to_release in Hh.
    destruct (Map_lookup (transactions s) id) as [r|] eqn:L.
    + destruct (tx_released (heap_get (heap s) r)) eqn:R; rewrite Hh.
      * exact R.
      * rewrite heap_get_update by (apply unreleased_in_heap, R). reflexivity.
    + split; [|exact Hh]. rewrite Ht. apply Map_remove_absent, L.
  - rewrite Ht2. apply Map_remove_absent, L1.
  - apply released_at_most_as_staged.
Qed.

(* ================================================================ *)
(** ** The tool [execute_dml_ddl_dcl_tcl] and its handler *)

(** C6. When the registry holds [maxConcurrentTransactions] entries or
    more, the tool answers with the limit error at once: the call ends
    without reaching any [await], and the loop is as it was, so
    [pool.connect] was not called and the registry did not change. *)
Theorem execute_dml_rejects_at_the_limit :
  forall (l : Loop) (sql : jsstring),
    (Z.of_nat (List.length (transactions (store l)))
     >= config.maxConcurrentTransactions cfg)%Z ->
    run (execute_dml_ddl_dcl_tcl sql) l
    = (Finished (Normal (LimitReached (config.maxConcurrentTransactions cfg))), l).
Proof.
  intros l sql H. unfold execute_dml_ddl_dcl_tcl.
  rewrite run_try_catch, run_bind, run_lift. simpl.
  destruct (Z.geb_spec (Z.of_nat (List.length (transactions (store l))))
                       (config.maxConcurrentTransactions cfg)) as [G|G];
    [|lia].
  rewrite with_store_same. reflexivity.
Qed.

(** Below the limit the tool hands the statement to the handler. *)
Lemma execute_dml_proceeds_below_the_limit (l : Loop) (sql : jsstring) :
  (Z.of_nat (List.length (transactions (store l)))
   < config.maxConcurrentTransactions cfg)%Z ->
  complete (execute_dml_ddl_dcl_tcl sql) l
  = match complete (handleExecuteDML sql (config.transactionTimeoutMs cfg)) l with
    | (Normal r, l') => (Normal r, l')
    | (Throw e, l') => (Normal (ToolFailure e), l')
    end.
Proof.
  intros H. unfold execute_dml_ddl_dcl_tcl.
  rewrite complete_try_catch, complete_bind, complete_lift. simpl.
  destruct (Z.geb_spec (Z.of_nat (List.length (transactions (store l))))
                       (config.maxConcurrentTransactions cfg)) as [G|G];
    [lia|].
  rewrite complete_bind, with_store_same.
  destruct (complete _ l) as [[r|e] l']; reflexivity.
Qed.

Lemma complete_AwaitQuery (A : Type) c text
      (k : completion QueryResult -> async A) (l : Loop) :
  complete (AwaitQuery c text k) l
  = complete (k (fst (queryAnswer (store l) c text)))
             (with_store (set_clock (snd (queryAnswer (store l) c text)) (store l)) l).
Proof.
  change (complete (AwaitQuery c text k) l)
    with (let (r, t) := queryAnswer (store l) c text in
          complete (k r) (with_store (set_clock t (store l)) l)).
  destruct (queryAnswer (store l) c text); reflexivity.
Qed.

Lemma complete_AwaitConnect (A : Type)
      (k : completion Client -> async A) (l : Loop) :
  complete (AwaitConnect k) l
  = complete (k (fst (connectAnswer (store l))))
             (with_store (set_clock (snd (connectAnswer (store l))) (store l)) l).
Proof.
  change (complete (AwaitConnect k) l)
    with (let (r, t) := connectAnswer (store l) in
          complete (k r) (with_store (set_clock t (store l)) l)).
  destruct (connectAnswer (store l)); reflexivity.
Qed.

Lemma complete_client_query (c : Client) (text : jsstring) (l : Loop) :
  complete (client_query c text) l
  = match queryThrows (store l) c text with
    | Some e => (Throw e, with_store (record (ClientQuery c text) (store l)) l)
    | None =>
        (fst (queryAnswer (record (ClientQuery c text) (store l)) c text),
         with_store
           (set_clock (snd (queryAnswer (record (ClientQuery c text) (store l)) c text))
                      (record (ClientQuery c text) (store l))) l)
    end.
Proof.
  unfold client_query. rewrite complete_bind, complete_lift.
  unfold client_query_call.
  destruct (queryThrows (store l) c text); simpl; [reflexivity|].
  unfold await_query. rewrite complete_AwaitQuery, complete_resume.
  reflexivity.
Qed.

Lemma complete_pool_connect (l : Loop) :
  complete pool_connect l
  = (fst (connectAnswer (record PoolConnect (store l))),
     with_store (set_clock (snd (connectAnswer (record PoolConnect (store l))))
                           (record PoolConnect (store l))) l).
Proof.
  unfold pool_connect. rewrite complete_bind, complete_lift. simpl.
  rewrite complete_AwaitConnect, complete_resume. reflexivity.
Qed.

Lemma complete_safelyReleaseClient (c : Client) (l : Loop) :
  complete (lift (safelyReleaseClient (Some c))) l
  = (Normal tt,
     with_store
       match releaseThrows (store l) c with
       | Some e => record (Console (ErrRelease e)) (record (ClientRelease c) (store l))
       | None => record (ClientRelease c) (store l)
       end l).
Proof.
  rewrite complete_lift.
  unfold safelyReleaseClient, tryCatch, client_release, console_error, emit.
  destruct (releaseThrows (store l) c); reflexivity.
Qed.

Lemma complete_Ret (A : Type) (a : A) (l : Loop) :
  complete (Ret a) l = (Normal a, l).
Proof. reflexivity. Qed.

Ltac complete_step :=
  repeat (first [ rewrite complete_bind | rewrite complete_try_finally
                | rewrite complete_try_catch
                | rewrite complete_safelyReleaseClient | rewrite complete_lift
                | rewrite complete_resume | rewrite complete_client_query
                | rewrite complete_Ret ];
          simpl; rewrite ?with_store_twice).

Ltac ask_outside :=
  match goal with
  | |- context [queryThrows ?s ?c ?t] =>
      destruct (queryThrows s c t)
  | |- context [queryAnswer ?s ?c ?t] =>
      destruct (queryAnswer s c t) as [[?|?] ?]
  | |- context [releaseThrows ?s ?c] =>
      destruct (releaseThrows s c)
  end.



(* ================================================================ *)
(** ** Sweeps: the timer and shutdown *)

Lemma started_app (h1 h2 : list event) :
  started (h1 ++ h2) = started h1 ++ started h2.
Proof.
  induction h1 as [|[| | |[]] h1 IH]; simpl; rewrite ?IH; reflexivity.
Qed.

Lemma removeTransaction_started (s : Store) (id : jsstring) :
  started (history (snd (removeTransaction id s))) = started (history s).
Proof.
  unfold removeTransaction, bindM, Map_get, deref, safelyReleaseClient,
    tryCatch, client_release, assign, Map_delete, console_log,
    console_error, emit, ret, record. simpl.
  destruct (Map_lookup (transactions s) id) as [r|]; simpl.
  - destruct (tx_released (heap_get (heap s) r)); simpl.
    + rewrite started_app. simpl. apply app_nil_r.
    + destruct (releaseThrows s (tx_client (heap_get (heap s) r))); simpl;
        rewrite !started_app; simpl; rewrite !app_nil_r; reflexivity.
  - rewrite started_app. simpl. apply app_nil_r.
Qed.

Lemma removeTransaction_startTime (s : Store) (id : jsstring) (r : ref) :
  tx_startTime (heap_get (heap (snd (removeTransaction id s))) r)
  = tx_startTime (heap_get (heap s) r).
Proof.
  destruct (removeTransaction_effect s id) as (_ & _ & _ & _ & _ & -> & _).
  destruct (to_release s id); [reflexivity|].
  destruct (Map_lookup (transactions s) id); [|reflexivity].
  apply (heap_get_update_field tx_startTime). reflexivity.
Qed.

Lemma removeTransaction_client (s : Store) (id : jsstring) (r : ref) :
  tx_client (heap_get (heap (snd (removeTransaction id s))) r)
  = tx_client (heap_get (heap s) r).
Proof.
  destruct (removeTransaction_effect s id) as (_ & _ & _ & _ & _ & -> & _).
  destruct (to_release s id); [reflexivity|].
  destruct (Map_lookup (transactions s) id); [|reflexivity].
  apply (heap_get_update_field tx_client). reflexivity.
Qed.

(** The continuation of a rollback that waits for its query removes the
    entry when it is resumed, also under the [catch] of the caller. *)
Lemma rollback_continuation_removes (id : jsstring)
      (k : completion QueryResult -> async unit) (h : error -> async unit) :
  (forall o l2,
      run (k o) l2
      = (Finished (Normal tt),
         with_store
           (snd (removeTransaction id
                   (record (Console match o with
                                    | Normal _ => LogRolledBack id
                                    | Throw e => ErrRollback id e
                                    end) (store l2)))) l2)) ->
  removes id (fun r => try_catch (k r) h).
Proof.
  intros K o l. eexists _, _. rewrite run_try_catch, K. split; [reflexivity|].
  match goal with |- context [removeTransaction id ?s] =>
    destruct (removeTransaction_effect s id) as (_ & Ht & Hr & _)
  end.
  split; [reflexivity|]. split; [exact Ht|].
  simpl. rewrite Hr. unfold record at 1. simpl.
  rewrite releases_of_app. simpl. rewrite app_nil_r. reflexivity.
Qed.

(** One call of [rollbackAndRemove] that is not awaited, on an id that is
    present: the entry is either removed at once (the call of [query]
    threw) or a task waits that will remove it. *)
Lemma spawn_rollback (l : Loop) (id initiator reason : jsstring)
      (h : error -> async unit) (r : ref) :
  Map_lookup (transactions (store l)) id = Some r ->
  let l1 := spawn (try_catch (rollbackAndRemove id initiator reason) h) l in
  ((transactions (store l1) = Map_remove (transactions (store l)) id
    /\ tasks l1 = tasks l)
   \/ (transactions (store l1) = transactions (store l)
       /\ exists c k, tasks l1 = tasks l ++ [TaskQuery c (js "ROLLBACK") k]
                      /\ removes id k))
  /\ queries_of (history (store l1))
     = queries_of (history (store l))
         ++ [(tx_client (heap_get (heap (store l)) r), js "ROLLBACK")]
  /\ started (history (store l1))
     = started (history (store l)) ++ [(id, initiator, reason)]
  /\ (forall r', tx_startTime (heap_get (heap (store l1)) r')
                 = tx_startTime (heap_get (heap (store l)) r'))
  /\ (forall r', tx_client (heap_get (heap (store l1)) r')
                 = tx_client (heap_get (heap (store l)) r'))
  /\ timeoutMs (store l1) = timeoutMs (store l)
  /\ timers (store l1) = timers (store l)
  /\ monitorInterval (store l1) = monitorInterval (store l).
Proof.
  intros L. cbv zeta. unfold spawn. rewrite run_try_catch.
  pose proof (rollbackAndRemove_runs l id initiator reason) as R.
  rewrite L in R. cbv zeta in R.
  destruct (queryThrows _ _ _) as [e|].
  - rewrite R. simpl.
    match goal with |- context [removeTransaction id ?s] =>
      destruct (removeTransaction_effect s id)
        as (_ & Ht & _ & Hq & _ & _ & Hti & Hmi & _ & Hto);
      pose proof (removeTransaction_started s id) as Hs;
      pose proof (removeTransaction_startTime s id) as Hst;
      pose proof (removeTransaction_client s id) as Hcl
    end.
    split; [left; split; [exact Ht | reflexivity]|].
    split; [|split; [|split; [|split; [|split; [|split]]]]].
    + rewrite Hq. unfold record. simpl. rewrite !queries_of_app. simpl.
      rewrite !app_nil_r. reflexivity.
    + rewrite Hs. unfold record. simpl. rewrite !started_app. simpl.
      rewrite !app_nil_r. reflexivity.
    + intros r'. rewrite Hst. unfold record. simpl.
      apply (heap_get_update_field tx_startTime). reflexivity.
    + intros r'. rewrite Hcl. unfold record. simpl.
      apply (heap_get_update_field tx_client). reflexivity.
    + rewrite Hto. reflexivity.
    + rewrite Hti. reflexivity.
    + rewrite Hmi. reflexivity.
  - destruct R as (k & R & K). rewrite R. simpl.
    split.
    { right. split; [reflexivity|]. eexists _, _. split; [reflexivity|].
      apply rollback_continuation_removes, K. }
    unfold record. simpl. rewrite !queries_of_app, !started_app. simpl.
    rewrite !app_nil_r. repeat split.
    + intros r'. apply (heap_get_update_field tx_startTime). reflexivity.
    + intros r'. apply (heap_get_update_field tx_client). reflexivity.
Qed.

Lemma Map_remove_all_lookup_in (ids : list jsstring) :
  forall (m : list (jsstring * ref)) (k : jsstring),
    In k ids -> Map_lookup (Map_remove_all m ids) k = None.
Proof.
  unfold Map_remove_all.
  induction ids as [|id ids IH]; intros m k H; simpl in *; [contradiction|].
  destruct (in_dec jsstring_eq_dec k ids) as [I|N]; [apply IH, I|].
  destruct H as [->|H]; [|contradiction].
  clear IH. revert m. induction ids as [|id ids IH]; intros m; simpl.
  - apply Map_lookup_remove.
  - simpl in N.
    assert (E : Map_remove (Map_remove m k) id = Map_remove (Map_remove m id) k).
    { clear. induction m as [|[k' v'] m IH]; simpl; [reflexivity|].
      destruct (jsstring_eq_dec k k'), (jsstring_eq_dec id k'); simpl;
        rewrite ?IH; try reflexivity.
      - destruct (jsstring_eq_dec k k'); [|contradiction]. reflexivity.
      - destruct (jsstring_eq_dec id k'); [|contradiction]. reflexivity.
      - destruct (jsstring_eq_dec k k'), (jsstring_eq_dec id k');
          try contradiction. reflexivity. }
    rewrite E. apply IH. (tidy; tauto).
Qed.

Lemma Map_remove_all_lookup_other (ids : list jsstring) :
  forall (m : list (jsstring * ref)) (k : jsstring),
    ~ In k ids -> Map_lookup (Map_remove_all m ids) k = Map_lookup m k.
Proof.
  unfold Map_remove_all.
  induction ids as [|id ids IH]; intros m k H; simpl in *; [reflexivity|].
  rewrite IH by (tidy; tauto). apply Map_lookup_remove_other. intros ->. (tidy; tauto).
Qed.

Lemma Map_empty_by_lookup (m : list (jsstring * ref)) :
  (forall k, Map_lookup m k = None) -> m = [].
Proof.
  destruct m as [|[k v] m]; [reflexivity|]. intros H. specialize (H k).
  simpl in H. destruct (jsstring_eq_dec k k); congruence.
Qed.

Lemma Map_lookup_In (m : list (jsstring * ref)) (e : jsstring * ref) :
  Map_wf m -> In e m -> Map_lookup m (fst e) = Some (snd e).
Proof.
  unfold Map_wf. induction m as [|[k v] m IH]; simpl; [contradiction|].
  intros W [<-|H]; simpl.
  - destruct (jsstring_eq_dec k k); congruence.
  - inversion W as [|? ? N W']; subst.
    destruct (jsstring_eq_dec (fst e) k) as [E|E].
    + exfalso. apply N. rewrite <- E. apply in_map, H.
    + apply IH; assumption.
Qed.

Lemma note_store_facts (announce : bool) (id : jsstring) (l : Loop) :
  transactions (store (note announce id l)) = transactions (store l)
  /\ heap (store (note announce id l)) = heap (store l)
  /\ tasks (note announce id l) = tasks l
  /\ queries_of (history (store (note announce id l)))
     = queries_of (history (store l))
  /\ started (history (store (note announce id l)))
     = started (history (store l))
  /\ timeoutMs (store (note announce id l)) = timeoutMs (store l)
  /\ timers (store (note announce id l)) = timers (store l)
  /\ monitorInterval (store (note announce id l)) = monitorInterval (store l).
Proof.
  unfold note, record. destruct announce; simpl;
    rewrite ?queries_of_app, ?started_app; simpl; rewrite ?app_nil_r;
    repeat split.
Qed.

Lemma sweep_cons (announce : bool) (initiator reason : jsstring)
      (h : jsstring -> error -> async unit) id ids (l : Loop) :
  sweep announce initiator reason h (id :: ids) l
  = sweep announce initiator reason h ids
          (spawn (try_catch (rollbackAndRemove id initiator reason) (h id))
                 (note announce id l)).
Proof. reflexivity. Qed.

(** What a sweep does: every id of the list is either removed at once or
    left to a task that will remove it; one [ROLLBACK] goes to the
    connection of each entry, in the order of the list, whether or not
    earlier ones failed. *)
Lemma sweep_spec (announce : bool) (initiator reason : jsstring)
      (h : jsstring -> error -> async unit) :
  forall (entries : list (jsstring * ref)) (l : Loop),
    NoDup (map fst entries) ->
    (forall e, In e entries ->
               Map_lookup (transactions (store l)) (fst e) = Some (snd e)) ->
    let l' := sweep announce initiator reason h (map fst entries) l in
    (exists removed pending new,
        tasks l' = tasks l ++ new
        /\ Forall2 task_removes pending new
        /\ transactions (store l')
           = Map_remove_all (transactions (store l)) removed
        /\ (forall id, In id (map fst entries)
                       <-> In id removed \/ In id pending))
    /\ queries_of (history (store l'))
       = queries_of (history (store l)) ++ map (rollback_of (store l)) entries
    /\ started (history (store l'))
       = started (history (store l))
           ++ map (fun e => (fst e, initiator, reason)) entries
    /\ (forall r', tx_startTime (heap_get (heap (store l')) r')
                   = tx_startTime (heap_get (heap (store l)) r'))
    /\ (forall r', tx_client (heap_get (heap (store l')) r')
                   = tx_client (heap_get (heap (store l)) r'))
    /\ timeoutMs (store l') = timeoutMs (store l)
    /\ timers (store l') = timers (store l)
    /\ monitorInterval (store l') = monitorInterval (store l).
Proof.
  induction entries as [|[id0 r0] entries IH]; intros l N L; cbv zeta.
  - simpl. split; [|rewrite !app_nil_r; repeat split].
    exists [], [], []. rewrite app_nil_r. repeat split; try constructor;
      simpl; (tidy; tauto).
  - simpl map. rewrite sweep_cons.
    destruct (note_store_facts announce id0 l)
      as (Nt & Nh & Nk & Nq & Ns & Nto & Nti & Nmi).
    assert (L0 : Map_lookup (transactions (store (note announce id0 l))) id0
                 = Some r0)
      by (rewrite Nt; apply (L (id0, r0)); left; reflexivity).
    destruct (spawn_rollback (note announce id0 l) id0 initiator reason
                             (h id0) L0)
      as (Hcase & Hq & Hs & Hst & Hcl & Hto & Hti & Hmi).
    set (l1 := spawn (try_catch (rollbackAndRemove id0 initiator reason) (h id0))
                     (note announce id0 l)) in *.
    inversion N as [|? ? N0 N']; subst.
    assert (L1 : forall e, In e entries ->
                 Map_lookup (transactions (store l1)) (fst e) = Some (snd e)).
    { intros e He.
      assert (fst e <> id0) by (intros E; apply N0; rewrite <- E; apply in_map, He).
      destruct Hcase as [[Ht _]|[Ht _]]; rewrite Ht, Nt.
      - rewrite Map_lookup_remove_other by assumption. apply L. right. exact He.
      - apply L. right. exact He. }
    destruct (IH l1 N' L1)
      as ((removed & pending & new & It & If & Itr & Iin)
          & Iq & Is & Ist & Icl & Ito & Iti & Imi).
    split; [|split; [|split; [|split; [|split; [|split; [|split]]]]]].
    + destruct Hcase as [[Ht Hk]|[Ht (c & k & Hk & Hrm)]].
      * exists (id0 :: removed), pending, new.
        split; [rewrite It, Hk, Nk; reflexivity|].
        split; [exact If|].
        split; [rewrite Itr, Ht, Nt; reflexivity|].
        intros id. simpl. rewrite Iin. (tidy; tauto).
      * exists removed, (id0 :: pending), (TaskQuery c (js "ROLLBACK") k :: new).
        split; [rewrite It, Hk, Nk, <- app_assoc; reflexivity|].
        split; [constructor; assumption|].
        split; [rewrite Itr, Ht, Nt; reflexivity|].
        intros id. simpl. rewrite Iin. (tidy; tauto).
    + rewrite Iq, Hq, Nq, Nh, <- app_assoc. simpl. f_equal. f_equal.
      apply map_ext. intros e. unfold rollback_of.
      rewrite Hcl, Nh. reflexivity.
    + rewrite Is, Hs, Ns, <- app_assoc. reflexivity.
    + intros r'. rewrite Ist, Hst, Nh. reflexivity.
    + intros r'. rewrite Icl, Hcl, Nh. reflexivity.
    + rewrite Ito, Hto, Nto. reflexivity.
    + rewrite Iti, Hti, Nti. reflexivity.
    + rewrite Imi, Hmi, Nmi. reflexivity.
Qed.

Lemma for_of_sweep (initiator reason : jsstring)
      (h : jsstring -> error -> async unit) (ids : list jsstring) :
  forall l : Loop,
    run (for_of ids (fun id =>
           fire_and_forget (rollbackAndRemove id initiator reason) (h id))) l
    = (Finished (Normal tt), sweep false initiator reason h ids l).
Proof.
  induction ids as [|id ids IH]; intros l; [reflexivity|].
  cbn [for_of]. rewrite run_bind, run_fire_and_forget, sweep_cons. apply IH.
Qed.

Lemma for_of_sweep_announced (X : Type) (key : X -> jsstring)
      (initiator reason : jsstring)
      (h : jsstring -> error -> async unit) (xs : list X) :
  forall l : Loop,
    run (for_of xs (fun x =>
           (lift (console_log (LogTimedOut (key x))) ;;
            fire_and_forget (rollbackAndRemove (key x) initiator reason)
                            (h (key x)))%async)) l
    = (Finished (Normal tt), sweep true initiator reason h (map key xs) l).
Proof.
  induction xs as [|x xs IH]; intros l; [reflexivity|].
  cbn [for_of map]. rewrite sweep_cons, !run_bind, run_lift. simpl.
  rewrite run_fire_and_forget. apply IH.
Qed.

(** [destroy] stops the timer and sweeps the ids of the registry. *)
Lemma destroy_runs (l : Loop) :
  run destroy l
  = (Finished (Normal tt),
     sweep false initiator_shutdown reason_shutdown
           (fun id err => lift (console_error (ErrShutdownRollback id err)))
           (map fst (transactions (store l)))
           (with_store
              match monitorInterval (store l) with
              | Some h =>
                  set_monitor None
                    (filter (fun h' => negb (Nat.eqb h h')) (timers (store l)))
                    (nextTimer (store l)) (store l)
              | None => store l
              end l)).
Proof.
  unfold destroy. rewrite run_bind, run_lift.
  unfold bindM, get_monitorInterval, clearInterval, set_monitorInterval, ret.
  simpl. rewrite run_bind, run_lift. simpl. rewrite with_store_twice.
  rewrite for_of_sweep.
  destruct (monitorInterval (store l)); reflexivity.
Qed.

Lemma filter_snapshot (s : Store) (now : Z) (m : list (jsstring * ref)) :
  map fst
      (filter (fun e : jsstring * Z => (now - snd e >? timeoutMs s)%Z)
              (map (fun e => (fst e, tx_startTime (heap_get (heap s) (snd e)))) m))
  = map fst
        (filter (fun e => (now - tx_startTime (heap_get (heap s) (snd e))
                           >? timeoutMs s)%Z) m).
Proof.
  induction m as [|e m IH]; simpl; [reflexivity|].
  destruct (_ >? _)%Z; simpl; rewrite IH; reflexivity.
Qed.

(** The tick in the words of the specification sweeps the ids that are
    overdue in the snapshot. *)
Lemma checkTransactionTimeouts_snapshot_runs (l : Loop) :
  run checkTransactionTimeouts_snapshot l
  = (Finished (Normal tt),
     sweep true initiator_automatic reason_timed_out
           (fun id err => lift (console_error (ErrTimeoutRollback id err)))
           (map fst (overdue (store l) (clock (store l)))) l).
Proof.
  unfold checkTransactionTimeouts_snapshot.
  rewrite run_bind, run_lift. simpl.
  rewrite run_bind, run_lift. simpl.
  rewrite run_bind, run_lift. simpl. rewrite !with_store_twice, with_store_same.
  etransitivity;
    [exact (for_of_sweep_announced
              (@fst jsstring Z) _ _
              (fun id err => lift (console_error (ErrTimeoutRollback id err)))
              _ _)|].
  unfold overdue. rewrite filter_snapshot. reflexivity.
Qed.

(** The walk over the live map does the same, as long as the keys of the
    map are distinct: rolling one entry back changes neither which of
    the others are present nor when they started. *)
Lemma forEach_sweep (now : Z) :
  forall (entries : list (jsstring * ref)) (l : Loop),
    NoDup (map fst entries) ->
    (forall e, In e entries ->
               Map_lookup (transactions (store l)) (fst e) = Some (snd e)) ->
    run (forEach_from (map fst entries) (fun transaction id =>
           (t <- lift (deref transaction) ;;
            timeout <- lift get_timeoutMs ;;
            if (now - tx_startTime t >? timeout)%Z
            then lift (console_log (LogTimedOut id)) ;;
                 fire_and_forget
                   (rollbackAndRemove id initiator_automatic reason_timed_out)
                   (fun err => lift (console_error (ErrTimeoutRollback id err)))
            else Ret tt)%async)) l
    = (Finished (Normal tt),
       sweep true initiator_automatic reason_timed_out
             (fun id err => lift (console_error (ErrTimeoutRollback id err)))
             (map fst (filter (fun e =>
                                 (now - tx_startTime (heap_get (heap (store l)) (snd e))
                                  >? timeoutMs (store l))%Z) entries)) l).
Proof.
  induction entries as [|[id0 r0] entries IH]; intros l N L; [reflexivity|].
  inversion N as [|? ? N0 N']; subst.
  cbn [map forEach_from fst snd filter].
  rewrite run_bind, run_lift. simpl.
  pose proof (L (id0, r0) (or_introl eq_refl)) as L00. simpl in L00.
  rewrite L00. simpl.
  rewrite !run_bind, run_lift. simpl. rewrite run_bind, run_lift. simpl.
  rewrite !with_store_twice, with_store_same.
  destruct (_ >? _)%Z.
  - cbn [map fst]. rewrite sweep_cons. unfold note.
    rewrite run_bind, run_lift. simpl. rewrite run_fire_and_forget. simpl.
    assert (L0 : Map_lookup
                   (transactions
                      (store (with_store (record (Console (LogTimedOut id0)) (store l)) l)))
                   id0 = Some r0)
      by (apply (L (id0, r0)); left; reflexivity).
    destruct (spawn_rollback _ id0 initiator_automatic reason_timed_out
                (fun err => lift (console_error (ErrTimeoutRollback id0 err))) L0)
      as (Hcase & _ & _ & Hst & _ & Hto & _).
    set (l1 := spawn _ _) in *.
    rewrite IH; [|exact N'|].
    + f_equal. f_equal. f_equal. apply filter_ext. intros e.
      rewrite Hst, Hto. reflexivity.
    + intros e He.
      assert (fst e <> id0) by (intros E; apply N0; rewrite <- E; apply in_map, He).
      destruct Hcase as [[Ht _]|[Ht _]]; rewrite Ht; simpl.
      * rewrite Map_lookup_remove_other by assumption. apply L. right. exact He.
      * apply L. right. exact He.
  - change (run (Ret tt) l) with (Finished (Normal tt), l). simpl.
    apply IH; [exact N'|]. intros e He. apply L. right. exact He.
Qed.

(** The tick as the code has it. *)
Lemma checkTransactionTimeouts_runs (l : Loop) :
  Map_wf (transactions (store l)) ->
  run checkTransactionTimeouts l
  = (Finished (Normal tt),
     sweep true initiator_automatic reason_timed_out
           (fun id err => lift (console_error (ErrTimeoutRollback id err)))
           (map fst (overdue (store l) (clock (store l)))) l).
Proof.
  intros W. unfold checkTransactionTimeouts, Map_forEach.
  rewrite run_bind, run_lift. simpl.
  rewrite run_bind, run_lift. simpl. rewrite with_store_twice, with_store_same.
  apply forEach_sweep; [exact W|]. intros e He. apply Map_lookup_In; assumption.
Qed.

(** *** Settling the queries that a sweep left pending *)

Lemma Forall2_nth_error_r (X Y : Type) (P : X -> Y -> Prop) xs ys i y :
  Forall2 P xs ys -> nth_error ys i = Some y ->
  exists x, nth_error xs i = Some x /\ P x y.
Proof.
  intros F. revert i. induction F as [|x0 y0 xs ys H F IH]; intros [|i] E;
    simpl in *; try discriminate.
  - injection E as <-. eauto.
  - apply IH, E.
Qed.

Lemma Forall2_remove_nth (X Y : Type) (P : X -> Y -> Prop) xs ys i :
  Forall2 P xs ys -> Forall2 P (remove_nth i xs) (remove_nth i ys).
Proof.
  intros F. revert i. induction F as [|x0 y0 xs ys H F IH]; intros [|i];
    simpl; auto.
Qed.

Lemma In_remove_nth (X : Type) (xs : list X) i x a :
  nth_error xs i = Some x ->
  (In a xs <-> In a (remove_nth i xs) \/ a = x).
Proof.
  revert i. induction xs as [|x0 xs IH]; intros [|i] E; simpl in *;
    try discriminate.
  - injection E as <-. split; intros [H|H]; auto.
  - rewrite (IH i E). split; intros H; (tidy; intuition).
Qed.

Lemma Map_remove_all_app (m : list (jsstring * ref)) d1 d2 :
  Map_remove_all (Map_remove_all m d1) d2 = Map_remove_all m (d1 ++ d2).
Proof. unfold Map_remove_all. symmetry. apply fold_left_app. Qed.

Lemma settle_removes (i : nat) (r : completion QueryResult) (l : Loop)
      (pend : list jsstring) :
  Forall2 task_removes pend (tasks l) ->
  exists pend' done,
    Forall2 task_removes pend' (tasks (settle_query i r l))
    /\ transactions (store (settle_query i r l))
       = Map_remove_all (transactions (store l)) done
    /\ (forall id, In id pend <-> In id pend' \/ In id done).
Proof.
  intros F. unfold settle_query.
  destruct (nth_error (tasks l) i) as [[c text k|k]|] eqn:E.
  - destruct (Forall2_nth_error_r i F E) as (id & Ei & Hk).
    destruct (Hk r {| store := store l; tasks := remove_nth i (tasks l) |})
      as (c0 & l' & -> & Ht & Htr & _).
    exists (remove_nth i pend), [id]. simpl in *. rewrite Ht, Htr.
    split; [apply Forall2_remove_nth, F|]. split; [reflexivity|].
    intros a. rewrite (In_remove_nth pend i a Ei). simpl. (tidy; intuition).
  - destruct (Forall2_nth_error_r i F E) as (id & _ & []).
  - exists pend, []. simpl. split; [exact F|]. split; [reflexivity|]. (tidy; tauto).
Qed.

Lemma drain_removes (schedule : list (nat * completion QueryResult)) :
  forall (l : Loop) (pend : list jsstring),
    Forall2 task_removes pend (tasks l) ->
    exists pend' done,
      Forall2 task_removes pend' (tasks (drain schedule l))
      /\ transactions (store (drain schedule l))
         = Map_remove_all (transactions (store l)) done
      /\ (forall id, In id pend <-> In id pend' \/ In id done).
Proof.
  induction schedule as [|[i r] schedule IH]; intros l pend F; simpl.
  - exists pend, []. split; [exact F|]. split; [reflexivity|]. simpl. (tidy; tauto).
  - destruct (settle_removes i r l F) as (p1 & d1 & F1 & T1 & I1).
    destruct (IH _ _ F1) as (p2 & d2 & F2 & T2 & I2).
    exists p2, (d1 ++ d2). split; [exact F2|].
    split; [rewrite T2, T1; apply Map_remove_all_app|].
    intros id. rewrite I1, I2, in_app_iff. (tidy; tauto).
Qed.

(** Once all the queries of a sweep have settled, in whatever order and
    however they ended, the entries it left pending are gone and the
    others are as they were. *)
Lemma drained (schedule : list (nat * completion QueryResult)) (l : Loop)
      (pend : list jsstring) :
  Forall2 task_removes pend (tasks l) ->
  tasks (drain schedule l) = [] ->
  forall id,
    Map_lookup (transactions (store (drain schedule l))) id
    = if in_dec jsstring_eq_dec id pend then None
      else Map_lookup (transactions (store l)) id.
Proof.
  intros F E id.
  destruct (drain_removes schedule l F) as (p & d & Fp & T & I).
  rewrite E in Fp. inversion Fp; subst. rewrite T.
  destruct (in_dec jsstring_eq_dec id pend) as [H|H].
  - apply Map_remove_all_lookup_in. apply I in H as [[]|H]. exact H.
  - apply Map_remove_all_lookup_other. intros D. apply H, I. auto.
Qed.

(** The pending queries can all be settled: taking the first task each
    time, with any outcomes, leaves no task. *)
Lemma drain_in_order (rs : list (completion QueryResult)) :
  forall (l : Loop) (pend : list jsstring),
    Forall2 task_removes pend (tasks l) ->
    List.length rs = List.length (tasks l) ->
    tasks (drain (map (pair 0) rs) l) = [].
Proof.
  induction rs as [|r rs IH]; intros l pend F E; simpl in *.
  - destruct (tasks l); [reflexivity | discriminate].
  - unfold settle_query.
    destruct (tasks l) as [|t ts] eqn:T; [discriminate|]. simpl in *.
    inversion F as [|id t' pend' ts' Hk F']; subst.
    destruct t as [c text k|k]; simpl in Hk; [|contradiction].
    destruct (Hk r {| store := store l; tasks := ts |}) as (c0 & l' & -> & Ht & _).
    simpl in *. apply (IH l' pend'); rewrite Ht; [exact F' | lia].
Qed.

Lemma Forall2_app_nil (X Y : Type) (P : X -> Y -> Prop) xs ys xs' ys' :
  Forall2 P xs ys -> Forall2 P xs' ys' -> Forall2 P (xs ++ xs') (ys ++ ys').
Proof. intros F F'. induction F; simpl; auto. Qed.

(** After a sweep over all the entries that a list names, and once the
    queries have settled, none of those entries is left. *)
Lemma swept_and_drained (l l' : Loop) (pend0 removed pending : list jsstring)
      (new : list task) (ids : list jsstring)
      (schedule : list (nat * completion QueryResult)) :
  Forall2 task_removes pend0 (tasks l) ->
  tasks l' = tasks l ++ new ->
  Forall2 task_removes pending new ->
  transactions (store l') = Map_remove_all (transactions (store l)) removed ->
  (forall id, In id ids <-> In id removed \/ In id pending) ->
  tasks (drain schedule l') = [] ->
  forall id,
    Map_lookup (transactions (store (drain schedule l'))) id
    = if in_dec jsstring_eq_dec id (pend0 ++ ids) then None
      else Map_lookup (transactions (store l)) id.
Proof.
  intros F0 Ht F Htr Hin E id.
  assert (F' : Forall2 task_removes (pend0 ++ pending) (tasks l'))
    by (rewrite Ht; apply Forall2_app_nil; assumption).
  rewrite (@drained schedule l' _ F' E id), Htr.
  destruct (in_dec jsstring_eq_dec id (pend0 ++ pending)) as [H|H];
    destruct (in_dec jsstring_eq_dec id (pend0 ++ ids)) as [H'|H'];
    try reflexivity.
  - exfalso. apply H'. apply in_app_iff in H as [H|H]; apply in_app_iff; auto.
    right. apply Hin. auto.
  - destruct (in_dec jsstring_eq_dec id removed) as [R|R].
    + apply Map_remove_all_lookup_in, R.
    + exfalso. apply in_app_iff in H' as [H'|H'].
      * apply H, in_app_iff. auto.
      * apply Hin in H' as [H'|H']; [contradiction|].
        apply H, in_app_iff. auto.
  - apply Map_remove_all_lookup_other. intros R. apply H', in_app_iff.
    right. apply Hin. auto.
Qed.

(** *** The registry at the moment a sweep returns *)

Lemma terminating_in_heap (h : list TrackedTransaction) (r : ref) :
  tx_state (heap_get h r) = terminating -> r < List.length h.
Proof.
  unfold heap_get. intros H. destruct (Nat.lt_ge_cases r (List.length h)) as [L|L].
  - exact L.
  - rewrite nth_overflow in H by exact L. discriminate.
Qed.

Lemma state_kept_terminating (h : list TrackedTransaction) (r r' : ref) :
  tx_state (heap_get h r') = terminating ->
  tx_state (heap_get (heap_update h r (with_state terminating)) r') = terminating.
Proof.
  intros H. destruct (Nat.eq_dec r' r) as [->|N].
  - apply state_set_terminating, terminating_in_heap, H.
  - rewrite heap_get_update_other by exact N. exact H.
Qed.

Lemma removeTransaction_heap_length (s : Store) (id : jsstring) :
  List.length (heap (snd (removeTransaction id s))) = List.length (heap s).
Proof.
  destruct (removeTransaction_effect s id) as (_ & _ & _ & _ & _ & -> & _).
  destruct (to_release s id); [reflexivity|].
  destruct (Map_lookup (transactions s) id); [|reflexivity].
  apply length_heap_update.
Qed.

(** One call of [rollbackAndRemove] that is not awaited, up to the moment
    the caller goes on: the object of the entry is in the state
    [terminating], the objects that were are still, and if the call of
    [query] does not throw the entry is still registered and one more
    query is pending. *)
Lemma spawn_rollback_state (l : Loop) (id initiator reason : jsstring)
      (h : error -> async unit) (r : ref) :
  Map_lookup (transactions (store l)) id = Some r ->
  let l1 := spawn (try_catch (rollbackAndRemove id initiator reason) h) l in
  List.length (heap (store l1)) = List.length (heap (store l))
  /\ (r < List.length (heap (store l)) ->
      tx_state (heap_get (heap (store l1)) r) = terminating)
  /\ (forall r', tx_state (heap_get (heap (store l)) r') = terminating ->
                 tx_state (heap_get (heap (store l1)) r') = terminating)
  /\ ((forall s c t, queryThrows s c t = None) ->
      transactions (store l1) = transactions (store l)
      /\ List.length (tasks l1) = S (List.length (tasks l))).
Proof.
  intros L. cbv zeta. unfold spawn. rewrite run_try_catch.
  pose proof (rollbackAndRemove_runs l id initiator reason) as R.
  rewrite L in R. cbv zeta in R.
  destruct (queryThrows _ _ _) as [e|] eqn:Q.
  - rewrite R. simpl.
    match goal with |- context [removeTransaction id ?s] =>
      pose proof (removeTransaction_heap_length s id) as Hl;
      pose proof (removeTransaction_state s id) as Hst
    end.
    split; [rewrite Hl; unfold record; simpl; apply length_heap_update|].
    split; [intros Hr; rewrite Hst; unfold record; simpl;
            apply state_set_terminating, Hr|].
    split; [intros r' Hr'; rewrite Hst; unfold record; simpl;
            apply state_kept_terminating, Hr'|].
    intros NoThrow. rewrite NoThrow in Q. discriminate.
  - destruct R as (k & R & K). rewrite R. simpl.
    split; [apply length_heap_update|].
    split; [intros Hr; apply state_set_terminating, Hr|].
    split; [intros r' Hr'; apply state_kept_terminating, Hr'|].
    intros _. split; [reflexivity|].
    rewrite length_app. simpl. apply Nat.add_1_r.
Qed.

(** A sweep, up to the moment it returns: the object of every entry of
    the list is in the state [terminating]; and if no call of [query]
    throws, the registry is as it was, with one more query pending for
    each entry of the list. *)
Lemma sweep_at_return (announce : bool) (initiator reason : jsstring)
      (h : jsstring -> error -> async unit) :
  forall (entries : list (jsstring * ref)) (l : Loop),
    NoDup (map fst entries) ->
    (forall e, In e entries ->
               Map_lookup (transactions (store l)) (fst e) = Some (snd e)) ->
    let l' := sweep announce initiator reason h (map fst entries) l in
    List.length (heap (store l')) = List.length (heap (store l))
    /\ (forall r', tx_state (heap_get (heap (store l)) r') = terminating ->
                   tx_state (heap_get (heap (store l')) r') = terminating)
    /\ (forall e, In e entries ->
                  snd e < List.length (heap (store l)) ->
                  tx_state (heap_get (heap (store l')) (snd e)) = terminating)
    /\ ((forall s c t, queryThrows s c t = None) ->
        transactions (store l') = transactions (store l)
        /\ List.length (tasks l')
           = List.length (tasks l) + List.length entries).
Proof.
  induction entries as [|[id0 r0] entries IH]; intros l N L; cbv zeta.
  - simpl. split; [reflexivity|]. split; [auto|].
    split; [intros e []|]. intros _. split; [reflexivity | apply plus_n_O].
  - simpl map. rewrite sweep_cons.
    destruct (note_store_facts announce id0 l) as (Nt & Nh & Nk & _).
    assert (L0 : Map_lookup (transactions (store (note announce id0 l))) id0
                 = Some r0)
      by (rewrite Nt; apply (L (id0, r0)); left; reflexivity).
    destruct (spawn_rollback (note announce id0 l) id0 initiator reason
                             (h id0) L0) as (Hcase & _).
    destruct (spawn_rollback_state (note announce id0 l) id0 initiator reason
                                   (h id0) L0) as (Hl & Hset & Hkept & Hno).
    set (l1 := spawn (try_catch (rollbackAndRemove id0 initiator reason) (h id0))
                     (note announce id0 l)) in *.
    rewrite Nh in Hl, Hset, Hkept. rewrite Nt, Nk in Hno.
    inversion N as [|? ? N0 N']; subst.
    assert (L1 : forall e, In e entries ->
                 Map_lookup (transactions (store l1)) (fst e) = Some (snd e)).
    { intros e He.
      assert (fst e <> id0) by (intros E; apply N0; rewrite <- E; apply in_map, He).
      destruct Hcase as [[Ht _]|[Ht _]]; rewrite Ht, Nt.
      - rewrite Map_lookup_remove_other by assumption. apply L. right. exact He.
      - apply L. right. exact He. }
    destruct (IH l1 N' L1) as (Il & Ikept & Iset & Ino).
    split; [rewrite Il; exact Hl|].
    split; [intros r' Hr'; apply Ikept, Hkept, Hr'|].
    split.
    + intros e [<-|He] Hr.
      * apply Ikept, Hset, Hr.
      * apply Iset; [exact He | rewrite Hl; exact Hr].
    + intros NoThrow.
      destruct (Hno NoThrow) as [Ht Hk]. destruct (Ino NoThrow) as [It Ik].
      split; [rewrite It; exact Ht|].
      rewrite Ik, Hk. simpl. rewrite <- plus_n_Sm. reflexivity.
Qed.

(** C8, as the code has it.  [destroy] stops the timer (its handle is
    cleared and the timer no longer fires), then takes the ids of the
    registry as they are and calls [rollbackAndRemove] on each with the
    shutdown initiator, awaiting none of the calls.  It ends without an
    error whatever the calls of [query] do: with [n] entries, [n] times
    [ROLLBACK] is sent, one to the connection of each entry, in the order
    of the registry.  Once the queries have settled, in any order and
    whether they succeeded or failed, the registry is empty; and they can
    all be settled.  At the moment [destroy] returns, every entry has
    either been removed already or is left to a pending query whose
    continuation removes it; the object of every entry is in the state
    [terminating]; and if no call of [query] throws, the registry is
    exactly as it was before, with one more query pending for each
    entry.  The two hypotheses hold in every state that the registry can
    reach ([reachable] below). *)
Theorem destroy_sweeps_the_registry :
  forall (l : Loop) (pend0 : list jsstring),
    Map_wf (transactions (store l)) ->
    Forall2 task_removes pend0 (tasks l) ->
    let l' := snd (run destroy l) in
    fst (run destroy l) = Finished (Normal tt)
    /\ monitorInterval (store l') = None
    /\ match monitorInterval (store l) with
       | Some h => tick h l' = l'
       | None => True
       end
    /\ queries_of (history (store l'))
       = queries_of (history (store l))
           ++ map (rollback_of (store l)) (transactions (store l))
    /\ List.length (queries_of (history (store l')))
       = List.length (queries_of (history (store l)))
         + List.length (transactions (store l))
    /\ started (history (store l'))
       = started (history (store l))
           ++ map (fun e => (fst e, initiator_shutdown, reason_shutdown))
                  (transactions (store l))
    /\ (forall schedule,
           tasks (drain schedule l') = [] ->
           transactions (store (drain schedule l')) = [])
    /\ (forall rs,
           List.length rs = List.length (tasks l') ->
           tasks (drain (map (pair 0) rs) l') = []
           /\ transactions (store (drain (map (pair 0) rs) l')) = [])
    /\ (exists removed pending new,
           tasks l' = tasks l ++ new
           /\ Forall2 task_removes pending new
           /\ transactions (store l')
              = Map_remove_all (transactions (store l)) removed
           /\ (forall id, In id (map fst (transactions (store l)))
                          <-> In id removed \/ In id pending))
    /\ (forall e, In e (transactions (store l)) ->
                  snd e < List.length (heap (store l)) ->
                  tx_state (heap_get (heap (store l')) (snd e)) = terminating)
    /\ ((forall s c t, queryThrows s c t = None) ->
        transactions (store l') = transactions (store l)
        /\ List.length (tasks l')
           = List.length (tasks l) + List.length (transactions (store l))).
Proof.
  intros l pend0 W F0. cbv zeta. rewrite destroy_runs. simpl.
  set (lm := with_store _ l).
  assert (Em : transactions (store lm) = transactions (store l)
               /\ heap (store lm) = heap (store l)
               /\ history (store lm) = history (store l)
               /\ tasks lm = tasks l)
    by (unfold lm; destruct (monitorInterval (store l)); repeat split).
  destruct Em as (Emt & Emh & Emy & Emk).
  assert (Lm : forall e, In e (transactions (store l)) ->
               Map_lookup (transactions (store lm)) (fst e) = Some (snd e))
    by (intros e He; rewrite Emt; apply Map_lookup_In; assumption).
  destruct (sweep_spec false initiator_shutdown reason_shutdown
              (fun id err => lift (console_error (ErrShutdownRollback id err)))
              (transactions (store l)) lm W Lm)
    as ((removed & pending & new & Ht & F & Htr & Hin)
        & Hq & Hs & _ & _ & _ & Hti & Hmi).
  destruct (sweep_at_return false initiator_shutdown reason_shutdown
              (fun id err => lift (console_error (ErrShutdownRollback id err)))
              (transactions (store l)) lm W Lm)
    as (_ & _ & Hset & Hno).
  set (l' := sweep _ _ _ _ _ lm) in *.
  rewrite Emk in Ht. rewrite Emt in Htr.
  rewrite Emh in Hset. rewrite Emt, Emk in Hno.
  assert (Empty : forall schedule,
             tasks (drain schedule l') = [] ->
             transactions (store (drain schedule l')) = []).
  { intros schedule E. apply Map_empty_by_lookup. intros id.
    rewrite (@swept_and_drained l l' pend0 removed pending new _ schedule
                                F0 Ht F Htr Hin E id).
    destruct (in_dec jsstring_eq_dec id (pend0 ++ map fst (transactions (store l))))
      as [H|H]; [reflexivity|].
    apply Map_lookup_None. intros I. apply H, in_app_iff. auto. }
  split; [reflexivity|].
  split; [rewrite Hmi; unfold lm; destruct (monitorInterval (store l)) eqn:Mi;
          [reflexivity | exact Mi]|].
  split.
  { destruct (monitorInterval (store l)) as [h|] eqn:Mi; [|exact I].
    unfold tick. rewrite Hti. unfold lm. simpl.
    replace (existsb (Nat.eqb h)
               (filter (fun h' => negb (Nat.eqb h h')) (timers (store l))))
      with false; [reflexivity|].
    symmetry. apply not_true_is_false. intros E.
    apply existsb_exists in E as (x & Hx & Ex).
    apply filter_In in Hx as [_ Hx]. rewrite Ex in Hx. discriminate. }
  split.
  { rewrite Hq, Emy. f_equal. apply map_ext. intros e.
    unfold rollback_of. rewrite Emh. reflexivity. }
  split.
  { rewrite Hq, Emy, length_app, length_map. reflexivity. }
  split; [rewrite Hs, Emy; reflexivity|].
  split; [exact Empty|].
  split.
  { intros rs E.
    assert (D : tasks (drain (map (pair 0) rs) l') = []).
    { apply (@drain_in_order rs l' (pend0 ++ pending)); [|exact E].
      rewrite Ht. apply Forall2_app_nil; assumption. }
    split; [exact D | apply Empty, D]. }
  split; [exists removed, pending, new; repeat split; try assumption;
          apply Hin|].
  split; [exact Hset | exact Hno].
Qed.

Lemma NoDup_map_filter (X Y : Type) (g : X -> Y) (f : X -> bool) (xs : list X) :
  NoDup (map g xs) -> NoDup (map g (filter f xs)).
Proof.
  induction xs as [|x xs IH]; simpl; intros N; [constructor|].
  inversion N as [|? ? N0 N']; subst.
  destruct (f x); simpl; [constructor|]; auto.
  intros I. apply N0. apply in_map_iff in I as (y & <- & Hy).
  apply in_map, (proj1 (filter_In f y xs) Hy).
Qed.

(** C7. A tick of the timer runs [checkTransactionTimeouts], which does
    what the snapshot algorithm of the specification does: for every
    entry of the registry whose age ([now - startTime]) is more than the
    timeout when the tick starts, and for no other, it calls
    [rollbackAndRemove] with the initiator "automatic" and the reason
    "timed out" of the source, and so sends [ROLLBACK] to the connection
    of that entry.  No caller has to do anything: once the queries have
    settled, in any order and whether they succeeded or failed, [has]
    answers [false] for every entry that was overdue, and the entries
    that were not are as before; and the queries can all be settled.  The
    two hypotheses hold in every state that the registry can reach
    ([reachable] below). *)
Theorem checkTransactionTimeouts_rolls_back_overdue :
  forall (l : Loop) (pend0 : list jsstring),
    Map_wf (transactions (store l)) ->
    Forall2 task_removes pend0 (tasks l) ->
    let late := overdue (store l) (clock (store l)) in
    let l' := snd (run checkTransactionTimeouts l) in
    run checkTransactionTimeouts l = run checkTransactionTimeouts_snapshot l
    /\ fst (run checkTransactionTimeouts l) = Finished (Normal tt)
    /\ (forall h, tick h l
                  = if existsb (Nat.eqb h) (timers (store l)) then l' else l)
    /\ started (history (store l'))
       = started (history (store l))
           ++ map (fun e => (fst e, initiator_automatic, reason_timed_out)) late
    /\ queries_of (history (store l'))
       = queries_of (history (store l)) ++ map (rollback_of (store l)) late
    /\ (forall schedule id,
           tasks (drain schedule l') = [] ->
           has (drain schedule l') id
           = if in_dec jsstring_eq_dec id (pend0 ++ map fst late) then false
             else has l id)
    /\ (forall rs,
           List.length rs = List.length (tasks l') ->
           tasks (drain (map (pair 0) rs) l') = []).
Proof.
  intros l pend0 W F0. cbv zeta.
  rewrite checkTransactionTimeouts_snapshot_runs,
    (checkTransactionTimeouts_runs l W). simpl.
  assert (N : NoDup (map fst (overdue (store l) (clock (store l)))))
    by (apply NoDup_map_filter, W).
  assert (L : forall e, In e (overdue (store l) (clock (store l))) ->
              Map_lookup (transactions (store l)) (fst e) = Some (snd e)).
  { intros e He. apply Map_lookup_In; [exact W|].
    apply (proj1 (filter_In _ _ _) He). }
  destruct (sweep_spec true initiator_automatic reason_timed_out
              (fun id err => lift (console_error (ErrTimeoutRollback id err)))
              (overdue (store l) (clock (store l))) l N L)
    as ((removed & pending & new & Ht & F & Htr & Hin) & Hq & Hs & _).
  set (l' := sweep _ _ _ _ _ l) in *.
  split; [reflexivity|]. split; [reflexivity|].
  split.
  { intros h. unfold tick. rewrite (checkTransactionTimeouts_runs l W).
    reflexivity. }
  split; [exact Hs|]. split; [exact Hq|]. split.
  - intros schedule id E. unfold has.
    rewrite (@swept_and_drained l l' pend0 removed pending new _ schedule
                                F0 Ht F Htr Hin E id).
    destruct (in_dec jsstring_eq_dec id _); reflexivity.
  - intros rs E.
    apply (@drain_in_order rs l' (pend0 ++ pending)); [|exact E].
    rewrite Ht. apply Forall2_app_nil; assumption.
Qed.

(* ================================================================ *)
(** ** The states that the registry can reach *)

Lemma Map_remove_filter (m : list (jsstring * ref)) (k : jsstring) :
  Map_remove m k = filter (fun e => negb (jsstring_eqb k (fst e))) m.
Proof.
  induction m as [|[k' v'] m IH]; simpl; [reflexivity|].
  unfold jsstring_eqb at 1.
  destruct (jsstring_eq_dec k k'); simpl; rewrite IH; reflexivity.
Qed.

Lemma Map_lookup_Some_In (m : list (jsstring * ref)) k v :
  Map_lookup m k = Some v -> In (k, v) m.
Proof.
  induction m as [|[k' v'] m IH]; simpl; [discriminate|].
  destruct (jsstring_eq_dec k k'); [intros [= <-]; left; congruence|].
  intros H. right. apply IH, H.
Qed.

Lemma Map_insert_In (m : list (jsstring * ref)) k v e :
  In e (Map_insert m k v) -> e = (k, v) \/ In e m.
Proof.
  induction m as [|[k' v'] m IH]; simpl.
  - intros [<-|[]]. auto.
  - destruct (jsstring_eq_dec k k'); simpl; intros [<-|H]; auto.
    destruct (IH H); auto.
Qed.

Lemma Map_insert_refs (m : list (jsstring * ref)) k v :
  NoDup (map snd m) -> ~ In v (map snd m) ->
  NoDup (map snd (Map_insert m k v)).
Proof.
  induction m as [|[k' v'] m IH]; simpl; intros N F.
  - repeat constructor. simpl. (tidy; tauto).
  - inversion N as [|? ? N0 N']; subst.
    destruct (jsstring_eq_dec k k'); simpl; constructor; auto.
    intros I. apply in_map_iff in I as (e & E & He).
    destruct (Map_insert_In _ _ _ _ He) as [->|H]; simpl in *.
    + apply F. auto.
    + apply N0. rewrite <- E. apply in_map, H.
Qed.

Lemma NoDup_map_inj (X Y : Type) (g : X -> Y) (xs : list X) a b :
  NoDup (map g xs) -> In a xs -> In b xs -> g a = g b -> a = b.
Proof.
  induction xs as [|x xs IH]; simpl; [contradiction|].
  intros N Ha Hb E. inversion N as [|? ? N0 N']; subst.
  destruct Ha as [->|Ha], Hb as [->|Hb]; auto.
  - exfalso. apply N0. rewrite E. apply in_map, Hb.
  - exfalso. apply N0. rewrite <- E. apply in_map, Ha.
Qed.

Lemma stable_registry_wf : stable registry_wf.
Proof.
  unfold stable, registry_wf.
  split; [|split; [|split; [|split]]].
  - intros s e _ H. exact H.
  - intros s r v (W & N & U). simpl. repeat split; try assumption.
    eapply Forall_impl; [|exact U]. intros e He. simpl in *.
    rewrite (heap_get_update_field tx_released) by reflexivity. exact He.
  - intros s id (W & N & U).
    destruct (removeTransaction_effect s id) as (_ & -> & _ & _ & _ & Hh & _).
    split; [apply Map_wf_remove, W|]. split.
    + rewrite Map_remove_filter. apply NoDup_map_filter, N.
    + rewrite Hh, Map_remove_filter. apply Forall_forall. intros e He.
      apply filter_In in He as [He Hne].
      rewrite Forall_forall in U. specialize (U e He).
      unfold to_release.
      destruct (Map_lookup (transactions s) id) as [r|] eqn:L; [|exact U].
      destruct (tx_released (heap_get (heap s) r)); [exact U|].
      rewrite heap_get_update_other; [exact U|].
      intros E. apply Map_lookup_Some_In in L.
      assert (X : e = (id, r)) by (apply (NoDup_map_inj _ _ _ _ N He L); exact E).
      subst e. simpl in Hne. unfold jsstring_eqb in Hne.
      destruct (jsstring_eq_dec id id); [discriminate | congruence].
  - intros s mi ts nt H. exact H.
  - intros s t H. exact H.
Qed.

Lemma addTransaction_registry_wf (s : Store) id c sql :
  registry_wf s -> registry_wf (snd (addTransaction id c sql s)).
Proof.
  intros (W & N & U).
  unfold registry_wf, addTransaction, bindM, Date_now, new_object, Map_set,
    console_log, emit, record. simpl.
  assert (V : forall e, In e (transactions s) -> snd e < List.length (heap s)).
  { intros e He. rewrite Forall_forall in U.
    apply unreleased_in_heap, U, He. }
  split; [apply Map_wf_insert, W|]. split.
  - apply Map_insert_refs; [exact N|]. intros I.
    apply in_map_iff in I as (e & E & He). specialize (V e He). lia.
  - apply Forall_forall. intros e He.
    destruct (Map_insert_In _ _ _ _ He) as [->|H]; simpl.
    + rewrite heap_get_new. reflexivity.
    + rewrite heap_get_old by (apply V, H).
      rewrite Forall_forall in U. apply U, H.
Qed.

Lemma TransactionManager_new_registry_wf (s : Store) timeout interval enable :
  registry_wf (snd (TransactionManager_new timeout interval enable s)).
Proof.
  unfold registry_wf, Map_wf, TransactionManager_new, startMonitor, bindM,
    get_monitorInterval, clearInterval, setInterval, set_monitorInterval,
    get_monitorIntervalMs, console_log, emit, ret, record.
  destruct enable; simpl; repeat split; constructor.
Qed.

(** A call on the registry keeps an invariant that its steps keep. *)
Lemma perform_keeps (J : Store -> Prop) (a : action) (l : Loop) :
  stable J ->
  (forall s id c sql, J s -> J (snd (addTransaction id c sql s))) ->
  (forall s t i e, J s -> J (snd (TransactionManager_new t i e s))) ->
  J (store l) -> Forall (task_keeps J) (tasks l) ->
  J (store (perform a l)) /\ Forall (task_keeps J) (tasks (perform a l)).
Proof.
  intros St Hadd Hnew Hs Ht.
  assert (Sp : forall p : async unit,
             keeps J p ->
             J (store (spawn p l)) /\ Forall (task_keeps J) (tasks (spawn p l))).
  { intros p Hp. destruct (@spawn_keeps J p l Hp Ht). auto. }
  destruct a as [timeout interval enable|id c sql|id|id|id i rz|h| |i r|t];
    simpl.
  - split; [apply Hnew, Hs | exact Ht].
  - split; [apply Hadd, Hs | exact Ht].
  - split; [apply St, Hs | exact Ht].
  - apply Sp, keeps_commitAndRemove, St.
  - apply Sp, keeps_rollbackAndRemove, St.
  - unfold tick. destruct (existsb _ _); [|auto].
    destruct (@run_keeps J _ checkTransactionTimeouts l
                         (keeps_checkTransactionTimeouts St) Ht) as (A & B & _).
    auto.
  - apply Sp, keeps_destroy, St.
  - destruct (@settle_query_keeps J i r l Ht). auto.
  - split; [apply St, Hs | exact Ht].
Qed.

Lemma perform_all_keeps (J : Store -> Prop) (acts : list action) :
  stable J ->
  (forall s id c sql, J s -> J (snd (addTransaction id c sql s))) ->
  (forall s t i e, J s -> J (snd (TransactionManager_new t i e s))) ->
  forall l : Loop,
    J (store l) -> Forall (task_keeps J) (tasks l) ->
    J (store (perform_all acts l)).
Proof.
  intros St Hadd Hnew. induction acts as [|a acts IH]; intros l Hs Ht.
  - exact Hs.
  - destruct (perform_keeps a l St Hadd Hnew Hs Ht) as [Hs' Ht'].
    apply (IH _ Hs' Ht').
Qed.

(** In every state that the registry can reach from the start, the ids
    are distinct and no entry is marked released. *)
Lemma reachable_registry_wf (acts : list action) :
  registry_wf (store (perform_all acts idle)).
Proof.
  apply perform_all_keeps.
  - exact stable_registry_wf.
  - intros s id c sql. apply addTransaction_registry_wf.
  - intros s t i e _. apply TransactionManager_new_registry_wf.
  - repeat split; constructor.
  - constructor.
Qed.

Lemma reachable_unreleased (acts : list action) (id : jsstring) (r : ref) :
  Map_lookup (transactions (store (perform_all acts idle))) id = Some r ->
  tx_released (heap_get (heap (store (perform_all acts idle))) r) = false.
Proof.
  intros L. destruct (reachable_registry_wf acts) as (_ & _ & U).
  rewrite Forall_forall in U. apply (U (id, r)), Map_lookup_Some_In, L.
Qed.

Lemma continuation_removes (id : jsstring)
      (k : completion QueryResult -> async unit) :
  (forall o l2, exists c ln,
      run (k o) l2
      = (Finished c,
         with_store
           (snd (removeTransaction id
                   match ln with
                   | Some x => record (Console x) (store l2)
                   | None => store l2
                   end)) l2)) ->
  removes id k.
Proof.
  intros K o l. destruct (K o l) as (c & ln & ->). exists c. eexists.
  split; [reflexivity|].
  match goal with |- context [removeTransaction id ?s] =>
    destruct (removeTransaction_effect s id) as (_ & Ht & Hr & _)
  end.
  split; [reflexivity|]. simpl. rewrite Ht, Hr.
  destruct ln; unfold record; simpl;
    rewrite ?releases_of_app; simpl; rewrite ?app_nil_r; auto.
Qed.

Lemma spawn_commit_tasks (l : Loop) (id : jsstring) :
  tasks (spawn (commitAndRemove id) l) = tasks l
  \/ exists c k,
      tasks (spawn (commitAndRemove id) l)
      = tasks l ++ [TaskQuery c (js "COMMIT") k]
      /\ removes id k.
Proof.
  unfold spawn. pose proof (commitAndRemove_runs l id) as R.
  destruct (Map_lookup (transactions (store l)) id) as [r|].
  - cbv zeta in R. destruct (queryThrows _ _ _) as [e|].
    + rewrite R. left. reflexivity.
    + destruct R as (k & -> & K). right. eexists _, k. split; [reflexivity|].
      apply continuation_removes. intros o l2. rewrite K.
      destruct o as [a|e]; [exists (Normal tt), (Some (LogCommitted id))
                           | exists (Throw e), None]; reflexivity.
  - rewrite R. left. reflexivity.
Qed.

Lemma spawn_rollback_tasks (l : Loop) (id initiator reason : jsstring) :
  tasks (spawn (rollbackAndRemove id initiator reason) l) = tasks l
  \/ exists c k,
      tasks (spawn (rollbackAndRemove id initiator reason) l)
      = tasks l ++ [TaskQuery c (js "ROLLBACK") k]
      /\ removes id k.
Proof.
  unfold spawn. pose proof (rollbackAndRemove_runs l id initiator reason) as R.
  destruct (Map_lookup (transactions (store l)) id) as [r|].
  - cbv zeta in R. destruct (queryThrows _ _ _) as [e|].
    + rewrite R. left. reflexivity.
    + destruct R as (k & -> & K). right. eexists _, k. split; [reflexivity|].
      apply continuation_removes. intros o l2. rewrite K.
      exists (Normal tt). eexists (Some _). reflexivity.
  - rewrite R. left. reflexivity.
Qed.

(** The tasks that wait in a loop are all continuations of the registry,
    each about to remove an entry, and a call on the registry leaves it
    so. *)
Lemma perform_tasks_remove (a : action) (l : Loop) (pend : list jsstring) :
  Map_wf (transactions (store l)) ->
  Forall2 task_removes pend (tasks l) ->
  exists pend', Forall2 task_removes pend' (tasks (perform a l)).
Proof.
  intros W F.
  assert (One : forall l' id c k,
             tasks l' = tasks l ++ [TaskQuery c (js "ROLLBACK") k]
             \/ tasks l' = tasks l ++ [TaskQuery c (js "COMMIT") k] ->
             removes id k ->
             exists pend', Forall2 task_removes pend' (tasks l')).
  { intros l' id c k E Hk. exists (pend ++ [id]).
    destruct E as [-> | ->]; apply Forall2_app_nil; auto;
      repeat constructor; exact Hk. }
  destruct a as [timeout interval enable|id c sql|id|id|id i rz|h| |i r|t];
    simpl; try (exists pend; exact F).
  - destruct (spawn_commit_tasks l id) as [E|(c & k & E & Hk)].
    + rewrite E. eauto.
    + eapply One; eauto.
  - destruct (spawn_rollback_tasks l id i rz) as [E|(c & k & E & Hk)].
    + rewrite E. eauto.
    + eapply One; eauto.
  - unfold tick. destruct (existsb _ _); [|eauto].
    rewrite (checkTransactionTimeouts_runs l W). simpl.
    assert (N : NoDup (map fst (overdue (store l) (clock (store l)))))
      by (apply NoDup_map_filter, W).
    assert (L : forall e, In e (overdue (store l) (clock (store l))) ->
                Map_lookup (transactions (store l)) (fst e) = Some (snd e)).
    { intros e He. apply Map_lookup_In; [exact W|].
      apply (proj1 (filter_In _ _ _) He). }
    destruct (sweep_spec true initiator_automatic reason_timed_out
                (fun id err => lift (console_error (ErrTimeoutRollback id err)))
                (overdue (store l) (clock (store l))) l N L)
      as ((removed & pending & new & -> & Fn & _) & _).
    exists (pend ++ pending). apply Forall2_app_nil; assumption.
  - unfold spawn. rewrite destroy_runs. simpl.
    set (lm := with_store _ l).
    assert (Em : transactions (store lm) = transactions (store l)
                 /\ tasks lm = tasks l)
      by (unfold lm; destruct (monitorInterval (store l)); split; reflexivity).
    destruct Em as (Emt & Emk).
    assert (Lm : forall e, In e (transactions (store l)) ->
                 Map_lookup (transactions (store lm)) (fst e) = Some (snd e))
      by (intros e He; rewrite Emt; apply Map_lookup_In; assumption).
    destruct (sweep_spec false initiator_shutdown reason_shutdown
                (fun id err => lift (console_error (ErrShutdownRollback id err)))
                (transactions (store l)) lm W Lm)
      as ((removed & pending & new & -> & Fn & _) & _).
    exists (pend ++ pending). rewrite Emk. apply Forall2_app_nil; assumption.
  - destruct (settle_removes i r l F) as (p' & d & F' & _). eauto.
Qed.

(** What holds of every loop that calls on the registry and settlements
    of its queries lead to: the registry is well formed, and the tasks
    that wait are continuations that remove an entry. *)
Lemma reachable (acts : list action) :
  registry_wf (store (perform_all acts idle))
  /\ exists pend, Forall2 task_removes pend (tasks (perform_all acts idle)).
Proof.
  split; [apply reachable_registry_wf|].
  assert (G : forall (l : Loop),
             registry_wf (store l) ->
             Forall (task_keeps registry_wf) (tasks l) ->
             (exists pend, Forall2 task_removes pend (tasks l)) ->
             exists pend, Forall2 task_removes pend (tasks (perform_all acts l))).
  { induction acts as [|a acts IH]; intros l Hs Ht (pend & F); [eauto|].
    destruct (perform_keeps a l stable_registry_wf
                (fun s id c sql => @addTransaction_registry_wf s id c sql)
                (fun s t i e _ => TransactionManager_new_registry_wf s t i e)
                Hs Ht) as [Hs' Ht'].
    apply (IH _ Hs' Ht'). apply (perform_tasks_remove a l (proj1 Hs) F). }
  apply G.
  - repeat split; constructor.
  - constructor.
  - exists []. constructor.
Qed.

(** C4. [rollbackAndRemove] on an id that is absent writes a line on the
    console and returns without an error and without any other effect.
    On an id that is present it sets the state of the entry to
    [terminating] (the object of the entry has this state when [ROLLBACK]
    is sent, and keeps it), writes the initiator and the reason on the
    console and sends [ROLLBACK] on the connection of the entry.  Then:
    if the call of [query] throws, [removeTransaction] runs at once, the
    error that was thrown is written on the console, and the call ends
    without an error; if the call of [query] does not throw, the call
    waits for the query, and whether the query then succeeds or is
    rejected, [removeTransaction] runs, an error of the rollback is
    written on the console, and the call ends without an error.  In every
    case the entry is gone and its connection released unless it was
    already.  The continuation after the [await] does so in whatever
    state the loop is when the query settles.  In every state that the
    registry can reach, the object of an entry is in the heap, so that
    there the state is set. *)
Theorem rollbackAndRemove_never_fails :
  forall (l : Loop) (id initiator reason : jsstring),
    (forall acts r,
        Map_lookup (transactions (store (perform_all acts idle))) id = Some r ->
        r < List.length (heap (store (perform_all acts idle))))
    /\
    match Map_lookup (transactions (store l)) id with
    | None =>
        run (rollbackAndRemove id initiator reason) l
        = (Finished (Normal tt),
           with_store (record (Console (LogRollbackMissing id)) (store l)) l)
    | Some r =>
        let c := tx_client (heap_get (heap (store l)) r) in
        let s0 := record (Console (LogRollingBack id initiator reason))
                    (set_heap (heap_update (heap (store l)) r (with_state terminating))
                              (store l)) in
        let s1 := record (ClientQuery c (js "ROLLBACK")) s0 in
        (r < List.length (heap (store l)) ->
         tx_state (heap_get (heap s0) r) = terminating)
        /\ match queryThrows s0 c (js "ROLLBACK") with
           | Some e =>
               exists l',
                 run (rollbackAndRemove id initiator reason) l
                 = (Finished (Normal tt), l')
                 /\ l' = with_store
                           (snd (removeTransaction id
                                   (record (Console (ErrRollback id e)) s1))) l
                 /\ tasks l' = tasks l
                 /\ has l' id = false
                 /\ transactions (store l') = Map_remove (transactions (store l)) id
                 /\ (r < List.length (heap (store l)) ->
                     tx_state (heap_get (heap (store l')) r) = terminating)
                 /\ queries_of (history (store l'))
                    = queries_of (history (store l)) ++ [(c, js "ROLLBACK")]
                 /\ releases_of (history (store l'))
                    = releases_of (history (store l)) ++ to_release (store l) id
                 /\ In (Console (LogRollingBack id initiator reason))
                       (history (store l'))
                 /\ In (Console (ErrRollback id e)) (history (store l'))
           | None =>
               exists k,
                 run (rollbackAndRemove id initiator reason) l
                 = (OnQuery c (js "ROLLBACK") k, with_store s1 l)
                 /\ tasks (with_store s1 l) = tasks l
                 /\ transactions s1 = transactions (store l)
                 /\ heap s1
                    = heap_update (heap (store l)) r (with_state terminating)
                 /\ (r < List.length (heap (store l)) ->
                     tx_state (heap_get (heap s1) r) = terminating)
                 /\ history s1
                    = history (store l)
                        ++ [Console (LogRollingBack id initiator reason);
                            ClientQuery c (js "ROLLBACK")]
                 /\ forall (o : completion QueryResult) (l2 : Loop),
                    exists l3,
                      run (k o) l2 = (Finished (Normal tt), l3)
                      /\ l3 = with_store
                                (snd (removeTransaction id
                                        (record (Console match o with
                                                         | Normal _ => LogRolledBack id
                                                         | Throw e => ErrRollback id e
                                                         end) (store l2)))) l2
                      /\ tasks l3 = tasks l2
                      /\ has l3 id = false
                      /\ transactions (store l3)
                         = Map_remove (transactions (store l2)) id
                      /\ (forall r', tx_state (heap_get (heap (store l3)) r')
                                     = tx_state (heap_get (heap (store l2)) r'))
                      /\ releases_of (history (store l3))
                         = releases_of (history (store l2))
                             ++ to_release (store l2) id
                      /\ queries_of (history (store l3))
                         = queries_of (history (store l2))
                      /\ In (Console match o with
                                     | Normal _ => LogRolledBack id
                                     | Throw e => ErrRollback id e
                                     end) (history (store l3))
           end
    end.
Proof.
  intros l id initiator reason.
  split; [intros acts r H;
          apply unreleased_in_heap, (@reachable_unreleased acts id r), H|].
  pose proof (rollbackAndRemove_runs l id initiator reason) as R.
  destruct (Map_lookup (transactions (store l)) id) as [r|] eqn:L; [|exact R].
  cbv zeta in R |- *.
  split; [intros Hr; apply state_set_terminating, Hr|].
  destruct (queryThrows _ _ _) as [e|].
  - eexists. split; [exact R|]. split; [reflexivity|].
    match goal with |- context [removeTransaction id ?s] =>
      destruct (removeTransaction_effect s id) as (_ & Ht & Hr & Hq & _);
      destruct (removeTransaction_history s id) as (evs & Hh);
      pose proof (removeTransaction_state s id r) as Hst
    end.
    split; [reflexivity|]. split; [apply has_after_remove|].
    split; [exact Ht|].
    split; [intros Hr'; cbn [store with_store]; rewrite Hst;
            apply state_set_terminating, Hr'|].
    split; [|split; [|split]].
    + simpl. rewrite Hq. unfold record. simpl.
      rewrite !queries_of_app. simpl. rewrite !app_nil_r. reflexivity.
    + simpl. rewrite Hr. unfold record at 1 2 3. simpl.
      rewrite !releases_of_app. simpl. rewrite !app_nil_r.
      f_equal. unfold to_release at 1. simpl.
      fold (to_release (set_heap (heap_update (heap (store l)) r
                                              (with_state terminating))
                                 (store l)) id).
      apply to_release_with_state.
    + simpl. rewrite Hh. unfold record. simpl.
      rewrite !in_app_iff. simpl. (tidy; tauto).
    + simpl. rewrite Hh. unfold record. simpl.
      rewrite !in_app_iff. simpl. (tidy; tauto).
  - destruct R as (k & R & K). exists k. split; [exact R|].
    split; [reflexivity|]. split; [reflexivity|]. split; [reflexivity|].
    split; [intros Hr; apply state_set_terminating, Hr|].
    split; [unfold record; simpl; rewrite <- app_assoc; reflexivity|].
    intros o l2. eexists. split; [apply K|]. split; [reflexivity|].
    match goal with |- context [removeTransaction id ?s] =>
      destruct (removeTransaction_effect s id) as (_ & Ht & Hr & Hq & _);
      destruct (removeTransaction_history s id) as (evs & Hh);
      pose proof (removeTransaction_state s id) as Hst
    end.
    split; [reflexivity|]. split; [apply has_after_remove|].
    split; [exact Ht|].
    split; [intros r'; cbn [store with_store]; rewrite Hst; reflexivity|].
    split; [|split].
    + simpl. rewrite Hr. unfold record at 1. simpl.
      rewrite releases_of_app. simpl. rewrite app_nil_r. reflexivity.
    + simpl. rewrite Hq. unfold record. simpl.
      rewrite queries_of_app. simpl. rewrite app_nil_r. reflexivity.
    + simpl. rewrite Hh. unfold record. simpl.
      rewrite !in_app_iff. simpl. (tidy; tauto).
Qed.

(** C3. [commitAndRemove] on an id that is absent fails with the
    not-found error and does nothing else.  On an id that is present it
    sets the state of the entry to [terminating] (the object of the entry
    has this state when [COMMIT] is sent, and keeps it) and sends
    [COMMIT] on the connection of the entry.  Then: if the call of
    [query] throws, [removeTransaction] runs at once and the call ends
    with the very error that was thrown; if the call of [query] does not
    throw, the call waits for the query, and when the query succeeds
    [removeTransaction] runs and the call ends without an error, and when
    the query is rejected [removeTransaction] runs and the call ends with
    the error of the rejection.  In every case the entry is gone ([has]
    answers [false]) and [release] was called on the connection of the
    entry once (and not at all if the entry was marked released already).
    The continuation after the [await] does so in whatever state the loop
    is when the query settles.  In every state that the registry can
    reach, no entry is marked released, so that there [release] is called
    exactly once, and the object of an entry is in the heap, so that
    there the state is set. *)
Theorem commitAndRemove_cleans_up :
  forall (l : Loop) (id : jsstring),
    (forall acts r,
        Map_lookup (transactions (store (perform_all acts idle))) id = Some r ->
        tx_released (heap_get (heap (store (perform_all acts idle))) r) = false
        /\ r < List.length (heap (store (perform_all acts idle))))
    /\
    match Map_lookup (transactions (store l)) id with
    | None =>
        run (commitAndRemove id) l = (Finished (Throw (CommitNotFound id)), l)
    | Some r =>
        let c := tx_client (heap_get (heap (store l)) r) in
        let once := if tx_released (heap_get (heap (store l)) r)
                    then [] else [c] in
        let s0 := set_heap (heap_update (heap (store l)) r (with_state terminating))
                           (store l) in
        let s1 := record (ClientQuery c (js "COMMIT")) s0 in
        (r < List.length (heap (store l)) ->
         tx_state (heap_get (heap s0) r) = terminating)
        /\ match queryThrows s0 c (js "COMMIT") with
           | Some e =>
               exists l',
                 run (commitAndRemove id) l = (Finished (Throw e), l')
                 /\ l' = with_store (snd (removeTransaction id s1)) l
                 /\ tasks l' = tasks l
                 /\ has l' id = false
                 /\ transactions (store l') = Map_remove (transactions (store l)) id
                 /\ (r < List.length (heap (store l)) ->
                     tx_state (heap_get (heap (store l')) r) = terminating)
                 /\ queries_of (history (store l'))
                    = queries_of (history (store l)) ++ [(c, js "COMMIT")]
                 /\ releases_of (history (store l'))
                    = releases_of (history (store l)) ++ once
           | None =>
               exists k,
                 run (commitAndRemove id) l
                 = (OnQuery c (js "COMMIT") k, with_store s1 l)
                 /\ tasks (with_store s1 l) = tasks l
                 /\ transactions s1 = transactions (store l)
                 /\ heap s1
                    = heap_update (heap (store l)) r (with_state terminating)
                 /\ (r < List.length (heap (store l)) ->
                     tx_state (heap_get (heap s1) r) = terminating)
                 /\ history s1
                    = history (store l) ++ [ClientQuery c (js "COMMIT")]
                 /\ to_release s1 id = once
                 /\ forall (o : completion QueryResult) (l2 : Loop),
                    exists l3,
                      run (k o) l2
                      = (Finished match o with
                                  | Normal _ => Normal tt
                                  | Throw e => Throw e
                                  end, l3)
                      /\ l3 = with_store
                                (snd (removeTransaction id
                                        match o with
                                        | Normal _ =>
                                            record (Console (LogCommitted id))
                                                   (store l2)
                                        | Throw _ => store l2
                                        end)) l2
                      /\ tasks l3 = tasks l2
                      /\ has l3 id = false
                      /\ transactions (store l3)
                         = Map_remove (transactions (store l2)) id
                      /\ (forall r', tx_state (heap_get (heap (store l3)) r')
                                     = tx_state (heap_get (heap (store l2)) r'))
                      /\ releases_of (history (store l3))
                         = releases_of (history (store l2))
                             ++ to_release (store l2) id
                      /\ queries_of (history (store l3))
                         = queries_of (history (store l2))
           end
    end.
Proof.
  intros l id.
  split; [intros acts r H; pose proof (@reachable_unreleased acts id r H) as U;
          split; [exact U | apply unreleased_in_heap, U]|].
  pose proof (commitAndRemove_runs l id) as R.
  destruct (Map_lookup (transactions (store l)) id) as [r|] eqn:L; [|exact R].
  cbv zeta in R |- *.
  assert (T : to_release
                (set_heap (heap_update (heap (store l)) r (with_state terminating))
                          (store l)) id
              = if tx_released (heap_get (heap (store l)) r)
                then [] else [tx_client (heap_get (heap (store l)) r)]).
  { rewrite to_release_with_state. unfold to_release. rewrite L. reflexivity. }
  split; [intros Hr; apply state_set_terminating, Hr|].
  destruct (queryThrows _ _ _) as [e|].
  - eexists. split; [exact R|]. split; [reflexivity|].
    match goal with |- context [removeTransaction id ?s] =>
      destruct (removeTransaction_effect s id) as (_ & Ht & Hr & Hq & _);
      pose proof (removeTransaction_state s id r) as Hst
    end.
    split; [reflexivity|]. split; [apply has_after_remove|].
    split; [exact Ht|].
    split; [intros Hr'; cbn [store with_store]; rewrite Hst;
            apply state_set_terminating, Hr'|].
    split.
    + simpl. rewrite Hq. unfold record. simpl.
      rewrite !queries_of_app. simpl. rewrite ?app_nil_r. reflexivity.
    + simpl. rewrite Hr, <- T. unfold record, to_release. simpl.
      rewrite releases_of_app. simpl. rewrite ?app_nil_r. reflexivity.
  - destruct R as (k & R & K). exists k. split; [exact R|].
    split; [reflexivity|]. split; [reflexivity|]. split; [reflexivity|].
    split; [intros Hr; apply state_set_terminating, Hr|].
    split; [reflexivity|]. split; [exact T|].
    intros o l2. eexists. split; [apply K|]. split; [reflexivity|].
    match goal with |- context [removeTransaction id ?s] =>
      destruct (removeTransaction_effect s id) as (_ & Ht & Hr & Hq & _);
      pose proof (removeTransaction_state s id) as Hst
    end.
    split; [reflexivity|]. split; [apply has_after_remove|].
    destruct o as [a|e]; simpl in *.
    + split; [exact Ht|]. split; [exact Hst|]. split.
      * rewrite Hr. unfold record at 1. simpl.
        rewrite releases_of_app. simpl. rewrite ?app_nil_r. reflexivity.
      * rewrite Hq. unfold record. simpl.
        rewrite queries_of_app. simpl. rewrite ?app_nil_r. reflexivity.
    + auto.
Qed.

(* ================================================================ *)
(** ** Numbers as text, and the ids of transactions *)

Lemma digitValue_digitChar (d : N) :
  (d < 36)%N -> digitValue (digitChar d) = Some d.
Proof.
  intros H. unfold digitValue, digitChar.
  destruct (N.ltb_spec d 10).
  - replace ((48 <=? 48 + d) && (48 + d <=? 57))%N with true.
    + f_equal. lia.
    + symmetry. apply andb_true_iff. split; apply N.leb_le; lia.
  - replace ((48 <=? 87 + d) && (87 + d <=? 57))%N with false.
    + replace ((97 <=? 87 + d) && (87 + d <=? 122))%N with true.
      * f_equal. lia.
      * symmetry. apply andb_true_iff. split; apply N.leb_le; lia.
    + symmetry. apply andb_false_iff. right. apply N.leb_gt. lia.
Qed.

Lemma digitChar_range (d : N) : (d < 36)%N -> isDigitChar (digitChar d).
Proof.
  intros H. unfold isDigitChar, digitChar. destruct (N.ltb_spec d 10); lia.
Qed.

Lemma digitsOf_range (radix : N) :
  (2 <= radix <= 36)%N ->
  forall (fuel : nat) (n : N), Forall isDigitChar (digitsOf fuel radix n).
Proof.
  intros R. induction fuel as [|fuel IH]; intros n; simpl; [constructor|].
  destruct (N.ltb_spec n radix).
  - constructor; [|constructor]. apply digitChar_range. lia.
  - apply Forall_app. split; [apply IH|].
    constructor; [|constructor]. apply digitChar_range.
    pose proof (N.mod_lt n radix). lia.
Qed.

Lemma size_nat_bound (p : positive) :
  (Npos p < 2 ^ N.of_nat (N.size_nat (Npos p)))%N.
Proof.
  simpl. induction p as [p IH|p IH|]; simpl Pos.size_nat.
  - rewrite Nat2N.inj_succ, N.pow_succ_r'. lia.
  - rewrite Nat2N.inj_succ, N.pow_succ_r'. lia.
  - reflexivity.
Qed.

(** Reading the digits that [digitsOf] wrote gives the number back, put
    after what was read before; and the digits are at least one. *)
Lemma leadingDigits_digitsOf (radix : N) :
  (2 <= radix <= 36)%N ->
  forall (fuel : nat) (n : N) (acc : option N) (rest : jsstring),
    (0 < n < 2 ^ N.of_nat fuel)%N ->
    digitsOf fuel radix n <> []
    /\ leadingDigits radix (digitsOf fuel radix n ++ rest) acc
       = leadingDigits radix rest
           (Some (match acc with Some a => a | None => 0 end
                  * radix ^ N.of_nat (List.length (digitsOf fuel radix n)) + n)%N).
Proof.
  intros R. induction fuel as [|fuel IH]; intros n acc rest B.
  - change (2 ^ N.of_nat 0)%N with 1%N in B. lia.
  - simpl digitsOf. destruct (N.ltb_spec n radix) as [Lt|Ge].
    + split; [discriminate|]. cbn [app leadingDigits List.length].
      rewrite digitValue_digitChar by lia.
      destruct (N.ltb_spec n radix); [|lia].
      do 2 f_equal. change (N.of_nat 1) with 1%N.
      rewrite N.pow_1_r. lia.
    + assert (B' : (0 < n / radix < 2 ^ N.of_nat fuel)%N).
      { split.
        - apply N.div_str_pos. lia.
        - rewrite Nat2N.inj_succ, N.pow_succ_r' in B.
          apply N.Div0.div_lt_upper_bound. nia. }
      destruct (IH (n / radix)%N acc (digitChar (n mod radix) :: rest) B')
        as [_ E].
      split; [intros X; apply app_eq_nil in X as [_ X]; discriminate|].
      rewrite <- app_assoc. cbn [app]. rewrite E. cbn [leadingDigits].
      pose proof (N.mod_lt n radix) as M.
      rewrite digitValue_digitChar by lia.
      destruct (N.ltb_spec (n mod radix) radix); [|lia].
      do 2 f_equal. rewrite length_app. cbn [List.length].
      rewrite Nat.add_1_r, Nat2N.inj_succ, N.pow_succ_r'.
      pose proof (N.div_mod n radix). nia.
Qed.

Lemma leadingDigits_end (radix : N) (rest : jsstring) (acc : option N) :
  endsNumber radix rest -> leadingDigits radix rest acc = acc.
Proof.
  destruct rest as [|c rest]; simpl; [reflexivity|].
  destruct (digitValue c) as [d|]; [|reflexivity].
  intros H. destruct (N.ltb_spec d radix); [lia | reflexivity].
Qed.

Lemma trimStart_no_space (s : jsstring) :
  match s with c :: _ => isWhiteSpace c = false | [] => True end ->
  trimStart s = s.
Proof. destruct s as [|c s]; simpl; [reflexivity|]. intros ->. reflexivity. Qed.

Lemma trimStart_spaces (ws s : jsstring) :
  forallb isWhiteSpace ws = true -> trimStart (ws ++ s) = trimStart s.
Proof.
  induction ws as [|c ws IH]; simpl; [reflexivity|].
  intros H. apply andb_true_iff in H as [-> H]. apply IH, H.
Qed.

Lemma isDigitChar_plain (c : N) :
  isDigitChar c ->
  isWhiteSpace c = false /\ c <> 43%N /\ c <> 45%N /\ c <> 95%N
  /\ c <> 120%N \/ c = 120%N /\ isWhiteSpace c = false.
Proof.
  unfold isDigitChar, isWhiteSpace. intros H.
  destruct (N.eq_dec c 120) as [->|N]; [right; split; reflexivity|].
  left. repeat split; try lia.
  repeat (apply orb_false_iff; split);
    try (apply andb_false_iff; first [left; apply N.leb_gt; lia
                                     | right; apply N.leb_gt; lia]);
    apply N.eqb_neq; lia.
Qed.

Lemma sign_of_digit (c : N) (t : jsstring) :
  c <> 43%N -> c <> 45%N ->
  signOf (c :: t) = 1%Z /\ dropSign (c :: t) = c :: t.
Proof.
  intros P M. unfold signOf, dropSign.
  destruct c as [|q]; [split; reflexivity|].
  do 7 (try (destruct q as [q|q|]; try (split; reflexivity)));
    congruence.
Qed.

(** [parseInt] reads an integer back from the text that [toString]
    gives of it in the same radix, also when white space comes before it
    and when something that is no digit comes after it. *)
Lemma parseInt_Number_toString (x : Z) (radix : N) (ws rest : jsstring) :
  (2 <= radix <= 36)%N -> radix <> 16%N ->
  forallb isWhiteSpace ws = true ->
  endsNumber radix rest ->
  parseInt (ws ++ Number_toString x radix ++ rest) radix = Some x.
Proof.
  intros R R16 W E. unfold parseInt. cbv zeta.
  rewrite trimStart_spaces by exact W.
  assert (Rb : ((radix =? 1) || (36 <? radix))%N = false).
  { apply orb_false_iff. split; [apply N.eqb_neq | apply N.ltb_ge]; lia. }
  assert (Sb : ((radix =? 0) || (radix =? 16))%N = false).
  { apply orb_false_iff. split; apply N.eqb_neq; lia. }
  assert (R0 : (radix =? 0)%N = false) by (apply N.eqb_neq; lia).
  rewrite Rb, Sb, R0. cbn [andb].
  assert (D : forall p,
             exists c t,
               digitsOf (N.size_nat (Npos p)) radix (Npos p) = c :: t
               /\ isDigitChar c
               /\ leadingDigits radix (c :: t ++ rest) None = Some (Npos p)).
  { intros p.
    destruct (@leadingDigits_digitsOf radix R (N.size_nat (Npos p)) (Npos p)
                                      None rest) as [Ne L].
    { split; [lia | apply size_nat_bound]. }
    pose proof (@digitsOf_range radix R (N.size_nat (Npos p)) (Npos p)) as F.
    destruct (digitsOf (N.size_nat (Npos p)) radix (Npos p)) as [|c t] eqn:Dg;
      [congruence|].
    exists c, t. split; [reflexivity|]. split; [inversion F; assumption|].
    cbn [app] in L. rewrite L, leadingDigits_end by exact E.
    do 2 f_equal. }
  destruct x as [|p|p].
  - cbn [Number_toString app].
    rewrite trimStart_no_space by reflexivity.
    cbn [signOf dropSign leadingDigits]. cbv iota.
    change (digitValue 48) with (Some 0%N). cbv iota.
    destruct (N.ltb_spec 0 radix); [|lia].
    rewrite leadingDigits_end by exact E. rewrite N.mul_0_r. reflexivity.
  - unfold Number_toString. destruct (D p) as (c & t & -> & Hc & L).
    cbn [app].
    assert (Wc : isWhiteSpace c = false)
      by (destruct (isDigitChar_plain Hc) as [(Wc & _)|[_ Wc]]; exact Wc).
    assert (PM : c <> 43%N /\ c <> 45%N)
      by (unfold isDigitChar in Hc; lia).
    rewrite trimStart_no_space by exact Wc.
    destruct (@sign_of_digit c (t ++ rest) (proj1 PM) (proj2 PM)) as [-> ->].
    rewrite L. reflexivity.
  - unfold Number_toString. destruct (D p) as (c & t & -> & Hc & L).
    cbn [app]. rewrite trimStart_no_space by reflexivity.
    change (signOf (45%N :: c :: t ++ rest)) with (-1)%Z.
    change (dropSign (45%N :: c :: t ++ rest)) with (c :: t ++ rest).
    rewrite L. reflexivity.
Qed.

Lemma split_at_first (X : Type) (a : X) (l1 r1 l2 r2 : list X) :
  ~ In a l1 -> ~ In a l2 ->
  l1 ++ a :: r1 = l2 ++ a :: r2 -> l1 = l2 /\ r1 = r2.
Proof.
  revert l2. induction l1 as [|x l1 IH]; intros [|y l2] N1 N2 E; simpl in *.
  - injection E as ->. auto.
  - injection E as <- _. exfalso. apply N2. auto.
  - injection E as -> _. exfalso. apply N1. auto.
  - injection E as -> E. destruct (IH l2) as [-> ->]; auto.
Qed.

(** The text of an integer holds figures and small letters, after a
    minus sign if the integer is negative: no underscore. *)
Lemma Number_toString_no_underscore (x : Z) (radix : N) :
  (2 <= radix <= 36)%N -> ~ In 95%N (Number_toString x radix).
Proof.
  intros R I.
  assert (D : forall f n, ~ In 95%N (digitsOf f radix n)).
  { intros f n H. pose proof (@digitsOf_range radix R f n) as F.
    rewrite Forall_forall in F. specialize (F _ H).
    unfold isDigitChar in F. lia. }
  destruct x as [|p|p]; simpl in I.
  - destruct I as [I|[]]. discriminate.
  - apply (D _ _ I).
  - destruct I as [I|I]; [discriminate | apply (D _ _ I)].
Qed.

Lemma Number_toString_inj (x y : Z) (radix : N) :
  (2 <= radix <= 36)%N -> radix <> 16%N ->
  Number_toString x radix = Number_toString y radix -> x = y.
Proof.
  intros R R16 E.
  pose proof (@parseInt_Number_toString x radix [] [] R R16 eq_refl I) as Px.
  pose proof (@parseInt_Number_toString y radix [] [] R R16 eq_refl I) as Py.
  simpl in Px, Py. rewrite app_nil_r in Px, Py. congruence.
Qed.

Lemma length_String_substring (s : jsstring) (a b : nat) :
  List.length (String_substring s a b) <= Nat.max a b - Nat.min a b.
Proof. unfold String_substring. apply firstn_le_length. Qed.

(** X1. An id that [generateTransactionId] makes is [tx_], the time of
    the call in radix 36, an underscore and at most eight code units of
    the random text; making it changes nothing.  The time can be read
    back from the id: [parseInt] of the id without its first three code
    units, in radix 36, is the time of the call.  The random part is
    empty when the random text has no more than two code units, as the
    text ["0"] of the number 0 has. *)
Theorem generateTransactionId_reads_back :
  forall (random : jsstring) (s : Store),
  exists id randomPart,
    generateTransactionId random s = (Normal id, s)
    /\ id = js "tx_" ++ Number_toString (clock s) 36 ++ js "_" ++ randomPart
    /\ startsWith id (js "tx_") = true
    /\ parseInt (String_substring id 3 (List.length id)) 36 = Some (clock s)
    /\ List.length randomPart <= 8
    /\ (List.length random <= 2 -> randomPart = []).
Proof.
  intros random s.
  exists (js "tx_" ++ Number_toString (clock s) 36 ++ js "_"
             ++ String_substring random 2 10),
         (String_substring random 2 10).
  split; [reflexivity|]. split; [reflexivity|].
  split; [reflexivity|]. split; [|split].
  - unfold String_substring at 1.
    set (tail := Number_toString (clock s) 36 ++ js "_"
                   ++ String_substring random 2 10).
    change (js "tx_" ++ tail) with (116 :: 120 :: 95 :: tail)%N.
    cbn [List.length].
    replace (Nat.min 3 (S (S (S (List.length tail))))) with 3 by lia.
    replace (Nat.max 3 (S (S (S (List.length tail)))) - 3)
      with (List.length tail) by lia.
    cbn [skipn]. rewrite firstn_all. unfold tail.
    apply (@parseInt_Number_toString (clock s) 36 []); try lia; reflexivity.
  - apply (length_String_substring random 2 10).
  - intros H. unfold String_substring. cbn [Nat.min Nat.max].
    rewrite skipn_all2 by exact H. reflexivity.
Qed.

(** X2. Two ids that [generateTransactionId] makes are the same exactly
    when they were made at the same time (the same millisecond) from
    random texts that agree from the third code unit to the tenth: ids
    made at different times differ whatever the random texts are, and at
    the same time nothing but the random text tells them apart. *)
Theorem generateTransactionId_collides_iff :
  forall (random1 random2 : jsstring) (s1 s2 : Store),
    fst (generateTransactionId random1 s1)
    = fst (generateTransactionId random2 s2)
    <-> clock s1 = clock s2
        /\ String_substring random1 2 10 = String_substring random2 2 10.
Proof.
  intros random1 random2 s1 s2.
  unfold generateTransactionId, bindM, Date_now, ret. cbn [fst].
  split.
  - intros E. injection E as E.
    apply split_at_first in E;
      try (apply Number_toString_no_underscore; lia).
    destruct E as [E1 E2]. split; [|exact E2].
    apply (@Number_toString_inj _ _ 36); [lia | lia | exact E1].
  - intros [-> ->]. reflexivity.
Qed.

(* ================================================================ *)
(** ** The configuration *)

Lemma numbers_load (e : env.t) :
  env.numbers (env.load e)
  = map (fun v => parseInt (env.or (e (fst v)) (snd v)) 10) env.numeric.
Proof. reflexivity. Qed.

(** X7. With none of the variables set, or with those that are set
    empty, and the monitor not switched off, the configuration is the
    default one: a timeout of 15000 ms, a tick every 5000 ms, the monitor
    on, at most 10 transactions, and for the pool 20 connections and
    30000 ms for both of its timeouts. *)
Theorem env_load_defaults :
  forall e : env.t,
    (forall v, In v env.numeric -> e (fst v) = None \/ e (fst v) = Some []) ->
    e (js "ENABLE_TRANSACTION_MONITOR") <> Some (js "false") ->
    env.settings (env.load e) = Some config.default
    /\ env.pg_maxConnections (env.load e) = Some 20%Z
    /\ env.pg_idleTimeoutMillis (env.load e) = Some 30000%Z
    /\ env.pg_statementTimeout (env.load e) = Some 30000%Z.
Proof.
  intros e H F.
  assert (N : env.numbers (env.load e)
              = [Some 15000; Some 5000; Some 10; Some 20; Some 30000;
                 Some 30000]%Z).
  { rewrite numbers_load.
    assert (G : forall v, In v env.numeric ->
                          parseInt (env.or (e (fst v)) (snd v)) 10
                          = parseInt (snd v) 10).
    { intros v Hv. destruct (H v Hv) as [-> | ->]; reflexivity. }
    rewrite (map_ext_in _ _ _ G). reflexivity. }
  assert (F' : forall i, nth i (env.numbers (env.load e)) None
                        = nth i [Some 15000; Some 5000; Some 10; Some 20;
                                 Some 30000; Some 30000]%Z None)
    by (intros i; rewrite N; reflexivity).
  pose proof (F' 0) as N1. pose proof (F' 1) as N2. pose proof (F' 2) as N3.
  pose proof (F' 3) as N4. pose proof (F' 4) as N5. pose proof (F' 5) as N6.
  cbn [nth env.numbers] in N1, N2, N3, N4, N5, N6.
  unfold env.settings. rewrite N1, N2, N3.
  assert (M : env.enableTransactionMonitor (env.load e) = true).
  { unfold env.load, env.enableTransactionMonitor.
    destruct (e (js "ENABLE_TRANSACTION_MONITOR")) as [v|]; [|reflexivity].
    unfold jsstring_eqb. destruct (jsstring_eq_dec v (js "false")); [|reflexivity].
    subst v. congruence. }
  rewrite M. repeat split; assumption.
Qed.

(** X8. A variable that holds a decimal numeral, with or without
    white space before it and with or without other text after it (a
    unit, say), sets its number to the value of the numeral.  So a number
    written as [toString] writes it is read back, and [30000ms] reads as
    30000.  (The value is to be one that a double holds exactly, of at
    most 2^53 in size.) *)
Theorem env_load_reads_numerals :
  forall (e : env.t) (i : nat) (name fallback ws rest : jsstring) (n : Z),
    (Z.abs n <= 9007199254740992)%Z ->
    nth_error env.numeric i = Some (name, fallback) ->
    forallb isWhiteSpace ws = true ->
    endsNumber 10 rest ->
    e name = Some (ws ++ Number_toString n 10 ++ rest) ->
    nth_error (env.numbers (env.load e)) i = Some (Some n).
Proof.
  intros e i name fallback ws rest n _ Hi W E He.
  rewrite numbers_load, nth_error_map, Hi. cbn [option_map fst snd].
  rewrite He. f_equal.
  assert (Ne : exists c t, ws ++ Number_toString n 10 ++ rest = c :: t).
  { destruct ws as [|c ws]; [|exists c; eexists; reflexivity].
    destruct n as [|p|p]; cbn [app Number_toString];
      try (eexists _, _; reflexivity).
    destruct (@leadingDigits_digitsOf 10 ltac:(lia) (N.size_nat (Npos p))
                                      (Npos p) None [])
      as [Ne _]; [split; [lia | apply size_nat_bound]|].
    destruct (digitsOf _ _ _) as [|c t]; [congruence|].
    eexists _, _; reflexivity. }
  destruct Ne as (c & t & Ec). rewrite Ec. cbn [env.or]. rewrite <- Ec.
  apply parseInt_Number_toString; try lia; assumption.
Qed.



(** X10. The monitor is off exactly when the variable
    [ENABLE_TRANSACTION_MONITOR] is the text [false], letter for letter:
    it stays on when the variable is not set, and also when it is set to
    [FALSE], to [0], to [no] or to the empty text. *)
Theorem env_load_monitor_flag :
  forall e : env.t,
    (env.enableTransactionMonitor (env.load e) = false
     <-> e (js "ENABLE_TRANSACTION_MONITOR") = Some (js "false"))
    /\ forall v, In v [js "FALSE"; js "False"; js "0"; js "no"; js "off"; []] ->
         env.enableTransactionMonitor
           (env.load (env.set (js "ENABLE_TRANSACTION_MONITOR") v e)) = true.
Proof.
  intros e. split.
  - unfold env.load, env.enableTransactionMonitor.
    destruct (e (js "ENABLE_TRANSACTION_MONITOR")) as [v|].
    + unfold jsstring_eqb. destruct (jsstring_eq_dec v (js "false")) as [->|N].
      * split; reflexivity.
      * split; [discriminate | congruence].
    + split; discriminate.
  - intros v Hv. simpl in Hv.
    repeat (destruct Hv as [<-|Hv]; [reflexivity|]). destruct Hv.
Qed.

(* ================================================================ *)
(** ** The tools [execute_commit] and [execute_rollback] *)

Lemma commitAndRemove_completes (l : Loop) (id : jsstring) :
  complete (commitAndRemove id) l
  = match Map_lookup (transactions (store l)) id with
    | None => (Throw (CommitNotFound id), l)
    | Some r =>
        let c := tx_client (heap_get (heap (store l)) r) in
        let s0 := set_heap (heap_update (heap (store l)) r (with_state terminating))
                           (store l) in
        let s1 := record (ClientQuery c (js "COMMIT")) s0 in
        match queryThrows s0 c (js "COMMIT") with
        | Some e => (Throw e, with_store (snd (removeTransaction id s1)) l)
        | None =>
            let s2 := set_clock (snd (queryAnswer s1 c (js "COMMIT"))) s1 in
            match fst (queryAnswer s1 c (js "COMMIT")) with
            | Normal _ =>
                (Normal tt,
                 with_store
                   (snd (removeTransaction id (record (Console (LogCommitted id)) s2)))
                   l)
            | Throw e => (Throw e, with_store (snd (removeTransaction id s2)) l)
            end
        end
    end.
Proof.
  unfold commitAndRemove. rewrite complete_bind, complete_lift. simpl.
  destruct (Map_lookup (transactions (store l)) id) as [r|].
  - complete_step. rewrite heap_get_update_client by reflexivity.
    destruct (queryThrows _ _ _) as [e|].
    + complete_step. rewrite removeTransaction_normal. reflexivity.
    + destruct (queryAnswer _ _ _) as [[q|e] t]; simpl; complete_step;
        rewrite removeTransaction_normal; reflexivity.
  - rewrite with_store_same. reflexivity.
Qed.

Lemma rollbackAndRemove_completes (l : Loop) (id initiator reason : jsstring) :
  complete (rollbackAndRemove id initiator reason) l
  = match Map_lookup (transactions (store l)) id with
    | None =>
        (Normal tt,
         with_store (record (Console (LogRollbackMissing id)) (store l)) l)
    | Some r =>
        let c := tx_client (heap_get (heap (store l)) r) in
        let s0 := record (Console (LogRollingBack id initiator reason))
                    (set_heap (heap_update (heap (store l)) r (with_state terminating))
                              (store l)) in
        let s1 := record (ClientQuery c (js "ROLLBACK")) s0 in
        match queryThrows s0 c (js "ROLLBACK") with
        | Some e =>
            (Normal tt,
             with_store (snd (removeTransaction id
                                (record (Console (ErrRollback id e)) s1))) l)
        | None =>
            let s2 := set_clock (snd (queryAnswer s1 c (js "ROLLBACK"))) s1 in
            (Normal tt,
             with_store
               (snd (removeTransaction id
                       (record (Console
                                  match fst (queryAnswer s1 c (js "ROLLBACK")) with
                                  | Normal _ => LogRolledBack id
                                  | Throw e => ErrRollback id e
                                  end) s2))) l)
        end
    end.
Proof.
  unfold rollbackAndRemove. rewrite complete_bind, complete_lift. simpl.
  destruct (Map_lookup (transactions (store l)) id) as [r|].
  - complete_step. rewrite heap_get_update_client by reflexivity.
    destruct (queryThrows _ _ _) as [e|].
    + complete_step. rewrite removeTransaction_normal. reflexivity.
    + destruct (queryAnswer _ _ _) as [[q|e] t]; simpl; complete_step;
        rewrite removeTransaction_normal; reflexivity.
  - complete_step. reflexivity.
Qed.

(** [removeTransaction] after steps that changed neither the registry
    nor the objects but for a state. *)
Lemma removeTransaction_after (s s' : Store) (id : jsstring) (r : ref) (v : TxState)
      (evs : list event) :
  transactions s' = transactions s ->
  heap s' = heap_update (heap s) r (with_state v) ->
  history s' = history s ++ evs ->
  let s'' := snd (removeTransaction id s') in
  transactions s'' = Map_remove (transactions s) id
  /\ Map_lookup (transactions s'') id = None
  /\ queries_of (history s'') = queries_of (history s) ++ queries_of evs
  /\ releases_of (history s'')
     = releases_of (history s) ++ releases_of evs ++ to_release s id
  /\ connects_of (history s'') = connects_of (history s) + connects_of evs
  /\ started (history s'') = started (history s) ++ started evs.
Proof.
  intros Ht Hh Hy. cbv zeta.
  destruct (removeTransaction_effect s' id) as (_ & T & R & Q & C & _).
  pose proof (removeTransaction_started s' id) as S.
  assert (TR : to_release s' id = to_release s id).
  { unfold to_release. rewrite Ht, Hh.
    destruct (Map_lookup (transactions s) id) as [r'|]; [|reflexivity].
    rewrite (heap_get_update_field tx_released) by reflexivity.
    rewrite (heap_get_update_field tx_client) by reflexivity.
    reflexivity. }
  rewrite T, R, Q, C, S, Ht, Hy, TR, queries_of_app, releases_of_app,
    connects_of_app, started_app, <- app_assoc.
  repeat split. apply Map_lookup_remove.
Qed.

(** X11. [handleExecuteCommit] never fails: every outcome is an
    answer.  For an id that is not registered the answer is "not found"
    and nothing happened at all.  For an id that is registered, [COMMIT]
    is sent on the connection of its entry and on no other, the entry is
    removed and the connection released (unless it was marked released
    before), whether the commit went through or not; the answer is
    "committed" when the call of [query] did not throw and the query
    succeeded, and otherwise an error that carries what the commit failed
    with.  The pool is not asked for a connection. *)
Theorem handleExecuteCommit_answers :
  forall (l : Loop) (id : jsstring),
    let res := fst (complete (handleExecuteCommit id) l) in
    let l' := snd (complete (handleExecuteCommit id) l) in
    match Map_lookup (transactions (store l)) id with
    | None => res = Normal (TransactionNotFound id) /\ l' = l
    | Some r =>
        let c := tx_client (heap_get (heap (store l)) r) in
        let s0 := set_heap (heap_update (heap (store l)) r (with_state terminating))
                           (store l) in
        let s1 := record (ClientQuery c (js "COMMIT")) s0 in
        res = Normal match queryThrows s0 c (js "COMMIT") with
                     | Some e => TransactionError e id
                     | None =>
                         match fst (queryAnswer s1 c (js "COMMIT")) with
                         | Normal _ => Committed id
                         | Throw e => TransactionError e id
                         end
                     end
        /\ has l' id = false
        /\ transactions (store l') = Map_remove (transactions (store l)) id
        /\ tasks l' = tasks l
        /\ queries_of (history (store l'))
           = queries_of (history (store l)) ++ [(c, js "COMMIT")]
        /\ releases_of (history (store l'))
           = releases_of (history (store l)) ++ to_release (store l) id
        /\ connects_of (history (store l')) = connects_of (history (store l))
    end.
Proof.
  intros l id. cbv zeta. unfold handleExecuteCommit.
  rewrite complete_try_catch, complete_bind, complete_lift.
  unfold hasTransaction, Map_has. cbn [fst snd].
  rewrite with_store_same.
  destruct (Map_lookup (transactions (store l)) id) as [r|] eqn:L;
    cbn [negb]; [|split; reflexivity].
  rewrite complete_bind, commitAndRemove_completes, L. cbv zeta.
  set (c := tx_client (heap_get (heap (store l)) r)).
  set (s0 := set_heap _ (store l)).
  set (s1 := record (ClientQuery c (js "COMMIT")) s0).
  assert (F : forall s' evs,
             transactions s' = transactions (store l) ->
             heap s' = heap_update (heap (store l)) r (with_state terminating) ->
             history s' = history (store l) ++ evs ->
             queries_of evs = [(c, js "COMMIT")] ->
             releases_of evs = [] -> connects_of evs = 0 ->
             let l' := with_store (snd (removeTransaction id s')) l in
             has l' id = false
             /\ transactions (store l') = Map_remove (transactions (store l)) id
             /\ tasks l' = tasks l
             /\ queries_of (history (store l'))
                = queries_of (history (store l)) ++ [(c, js "COMMIT")]
             /\ releases_of (history (store l'))
                = releases_of (history (store l)) ++ to_release (store l) id
             /\ connects_of (history (store l')) = connects_of (history (store l))).
  { intros s' evs Ht Hh Hy Q R Cn. cbv zeta.
    destruct (@removeTransaction_after (store l) s' id r terminating evs Ht Hh Hy)
      as (T & La & Qa & Ra & Ca & _).
    unfold has. cbn [store tasks with_store].
    rewrite La, T, Qa, Ra, Ca, Q, R, Cn. repeat split. lia. }
  destruct (queryThrows s0 c (js "COMMIT")) as [e|].
  - cbn [fst snd]. split; [reflexivity|].
    apply (F s1 [ClientQuery c (js "COMMIT")]); reflexivity.
  - destruct (queryAnswer s1 c (js "COMMIT")) as [[q|e] t]; cbn [fst snd].
    + rewrite complete_Ret. cbn [fst snd]. split; [reflexivity|].
      apply (F _ [ClientQuery c (js "COMMIT"); Console (LogCommitted id)]);
        try reflexivity.
      unfold record, s1, s0, record, set_clock, set_heap. cbn [history].
      rewrite <- app_assoc. reflexivity.
    + split; [reflexivity|].
      apply (F _ [ClientQuery c (js "COMMIT")]); reflexivity.
Qed.

(** X12. [handleExecuteRollback] never fails either.  For an id
    that is not registered the answer is "not found" and nothing
    happened.  For an id that is registered the answer is always "rolled
    back", also when the call of [query] threw or the [ROLLBACK] was
    rejected: the error goes to the console and not to the caller.
    [ROLLBACK] is sent on the connection of the entry, with the user as
    the initiator on the console, the entry is removed and the
    connection released (unless it was marked released before). *)
Theorem handleExecuteRollback_answers :
  forall (l : Loop) (id : jsstring),
    let res := fst (complete (handleExecuteRollback id) l) in
    let l' := snd (complete (handleExecuteRollback id) l) in
    match Map_lookup (transactions (store l)) id with
    | None => res = Normal (TransactionNotFound id) /\ l' = l
    | Some r =>
        let c := tx_client (heap_get (heap (store l)) r) in
        res = Normal (RolledBack id)
        /\ has l' id = false
        /\ transactions (store l') = Map_remove (transactions (store l)) id
        /\ tasks l' = tasks l
        /\ queries_of (history (store l'))
           = queries_of (history (store l)) ++ [(c, js "ROLLBACK")]
        /\ releases_of (history (store l'))
           = releases_of (history (store l)) ++ to_release (store l) id
        /\ connects_of (history (store l')) = connects_of (history (store l))
        /\ started (history (store l'))
           = started (history (store l)) ++ [(id, initiator_user, reason_user)]
    end.
Proof.
  intros l id. cbv zeta. unfold handleExecuteRollback.
  rewrite complete_try_catch, complete_bind, complete_lift.
  unfold hasTransaction, Map_has. cbn [fst snd].
  rewrite with_store_same.
  destruct (Map_lookup (transactions (store l)) id) as [r|] eqn:L;
    cbn [negb]; [|split; reflexivity].
  rewrite complete_bind, rollbackAndRemove_completes, L. cbv zeta.
  set (c := tx_client (heap_get (heap (store l)) r)).
  set (s0 := record (Console (LogRollingBack id initiator_user reason_user)) _).
  set (s1 := record (ClientQuery c (js "ROLLBACK")) s0).
  assert (F : forall s' ln,
             transactions s' = transactions (store l) ->
             heap s' = heap_update (heap (store l)) r (with_state terminating) ->
             history s'
             = history (store l)
                 ++ [Console (LogRollingBack id initiator_user reason_user);
                     ClientQuery c (js "ROLLBACK"); Console ln] ->
             (forall a b d, ln <> LogRollingBack a b d) ->
             let l' := with_store (snd (removeTransaction id s')) l in
             has l' id = false
             /\ transactions (store l') = Map_remove (transactions (store l)) id
             /\ tasks l' = tasks l
             /\ queries_of (history (store l'))
                = queries_of (history (store l)) ++ [(c, js "ROLLBACK")]
             /\ releases_of (history (store l'))
                = releases_of (history (store l)) ++ to_release (store l) id
             /\ connects_of (history (store l')) = connects_of (history (store l))
             /\ started (history (store l'))
                = started (history (store l))
                    ++ [(id, initiator_user, reason_user)]).
  { intros s' ln Ht Hh Hy Hln. cbv zeta.
    destruct (@removeTransaction_after (store l) s' id r terminating _ Ht Hh Hy)
      as (T & La & Qa & Ra & Ca & Sa).
    unfold has. cbn [store tasks with_store].
    rewrite La, T, Qa, Ra, Ca, Sa. cbn [queries_of releases_of connects_of app].
    repeat split; try lia.
    f_equal. cbn [started]. destruct ln; try reflexivity.
    exfalso. eapply Hln. reflexivity. }
  assert (Y : forall t ln,
             history (record (Console ln) (set_clock t s1))
             = history (store l)
                 ++ [Console (LogRollingBack id initiator_user reason_user);
                     ClientQuery c (js "ROLLBACK"); Console ln]).
  { intros t ln. unfold record, s1, s0, record, set_clock, set_heap.
    cbn [history]. rewrite <- !app_assoc. reflexivity. }
  destruct (queryThrows s0 c (js "ROLLBACK")) as [e|].
  - rewrite complete_Ret. cbn [fst snd]. split; [reflexivity|].
    apply (F _ (ErrRollback id e)); try reflexivity; try discriminate.
    unfold record, s1, s0, record, set_heap. cbn [history].
    rewrite <- !app_assoc. reflexivity.
  - rewrite complete_Ret. cbn [fst snd]. split; [reflexivity|].
    destruct (queryAnswer s1 c (js "ROLLBACK")) as [[q|e] t]; cbn [fst snd].
    + apply (F _ (LogRolledBack id)); try reflexivity; try discriminate.
      apply Y.
    + apply (F _ (ErrRollback id e)); try reflexivity; try discriminate.
      apply Y.
Qed.

Lemma handleExecuteCommit_shape (l : Loop) (id : jsstring) :
  exists a, fst (complete (handleExecuteCommit id) l) = Normal a
            /\ forall e, a <> TransactionToolFailure e.
Proof.
  unfold handleExecuteCommit.
  rewrite complete_try_catch, complete_bind, complete_lift.
  unfold hasTransaction, Map_has. cbn [fst snd].
  destruct (Map_lookup (transactions (store l)) id) as [r|]; cbn [negb].
  - rewrite complete_bind.
    destruct (complete (commitAndRemove id) _) as [[[]|e] l1];
      rewrite ?complete_Ret; cbn [fst]; eexists; split; try reflexivity;
      discriminate.
  - rewrite complete_Ret. cbn [fst]. eexists. split; [reflexivity|].
    discriminate.
Qed.

Lemma handleExecuteRollback_shape (l : Loop) (id : jsstring) :
  exists a, fst (complete (handleExecuteRollback id) l) = Normal a
            /\ forall e, a <> TransactionToolFailure e.
Proof.
  unfold handleExecuteRollback.
  rewrite complete_try_catch, complete_bind, complete_lift.
  unfold hasTransaction, Map_has. cbn [fst snd].
  destruct (Map_lookup (transactions (store l)) id) as [r|]; cbn [negb].
  - rewrite complete_bind.
    destruct (complete (rollbackAndRemove id _ _) _) as [[[]|e] l1];
      rewrite ?complete_Ret; cbn [fst]; eexists; split; try reflexivity;
      discriminate.
  - rewrite complete_Ret. cbn [fst]. eexists. split; [reflexivity|].
    discriminate.
Qed.

(** X13. The tools [execute_commit] and [execute_rollback] answer
    what their handlers answer and leave what the handlers leave: the
    handlers let no error out, so that the answer of a tool is never the
    bare text of an error. *)
Theorem execute_commit_and_rollback_answer_as_handlers :
  forall (l : Loop) (id : jsstring),
    complete (execute_commit id) l = complete (handleExecuteCommit id) l
    /\ complete (execute_rollback id) l = complete (handleExecuteRollback id) l
    /\ (exists r, fst (complete (execute_commit id) l) = Normal r
                  /\ forall e, r <> TransactionToolFailure e)
    /\ (exists r, fst (complete (execute_rollback id) l) = Normal r
                  /\ forall e, r <> TransactionToolFailure e).
Proof.
  intros l id.
  pose proof (handleExecuteCommit_shape l id) as C.
  pose proof (handleExecuteRollback_shape l id) as R.
  unfold execute_commit, execute_rollback.
  rewrite !complete_try_catch, !complete_bind.
  destruct (complete (handleExecuteCommit id) l) as [rc lc].
  destruct (complete (handleExecuteRollback id) l) as [rr lr].
  cbn [fst] in C, R. destruct C as (ac & -> & Hc). destruct R as (ar & -> & Hr).
  rewrite !complete_Ret. cbn [fst].
  split; [reflexivity|]. split; [reflexivity|].
  split; eexists; (split; [reflexivity|assumption]).
Qed.

(* ================================================================ *)
(** ** The type of an operation *)

Lemma startsWith_first2 (n p : jsstring) (a b : N) :
  startsWith n (a :: b :: p) = true -> exists t, n = a :: b :: t.
Proof.
  intros H. apply startsWith_prefix in H as [rest ->]. eexists. reflexivity.
Qed.

(** No text begins with two of the key words. *)
Lemma operationKeywords_exclusive (n k1 k2 : jsstring) :
  In k1 operationKeywords -> In k2 operationKeywords ->
  startsWith n k1 = true -> startsWith n k2 = true -> k1 = k2.
Proof.
  unfold operationKeywords. intros I1 I2 H1 H2. simpl in I1, I2.
  repeat (destruct I1 as [<-|I1]); try contradiction;
    repeat (destruct I2 as [<-|I2]); try contradiction;
    try reflexivity;
    apply startsWith_first2 in H1 as [t1 E1];
    apply startsWith_first2 in H2 as [t2 E2];
    rewrite E1 in E2; discriminate.
Qed.

Lemma getOperationType_cases (sql : jsstring) :
  let n := toUpperCase unicodeUpper (String_trim sql) in
  (exists kw, In kw operationKeywords /\ startsWith n kw = true
              /\ getOperationType unicodeUpper sql = kw)
  \/ ((forall kw, In kw operationKeywords -> startsWith n kw = false)
      /\ getOperationType unicodeUpper sql = unknownOperation).
Proof.
  cbv zeta. unfold getOperationType, operationKeywords.
  set (n := toUpperCase unicodeUpper (String_trim sql)).
  destruct (startsWith n (js "INSERT")) eqn:H1;
    [left; eexists; split; [|split; [exact H1|reflexivity]]; simpl; auto 10|].
  destruct (startsWith n (js "UPDATE")) eqn:H2;
    [left; eexists; split; [|split; [exact H2|reflexivity]]; simpl; auto 10|].
  destruct (startsWith n (js "DELETE")) eqn:H3;
    [left; eexists; split; [|split; [exact H3|reflexivity]]; simpl; auto 10|].
  destruct (startsWith n (js "CREATE")) eqn:H4;
    [left; eexists; split; [|split; [exact H4|reflexivity]]; simpl; auto 10|].
  destruct (startsWith n (js "ALTER")) eqn:H5;
    [left; eexists; split; [|split; [exact H5|reflexivity]]; simpl; auto 10|].
  destruct (startsWith n (js "DROP")) eqn:H6;
    [left; eexists; split; [|split; [exact H6|reflexivity]]; simpl; auto 10|].
  destruct (startsWith n (js "TRUNCATE")) eqn:H7;
    [left; eexists; split; [|split; [exact H7|reflexivity]]; simpl; auto 10|].
  destruct (startsWith n (js "GRANT")) eqn:H8;
    [left; eexists; split; [|split; [exact H8|reflexivity]]; simpl; auto 10|].
  destruct (startsWith n (js "REVOKE")) eqn:H9;
    [left; eexists; split; [|split; [exact H9|reflexivity]]; simpl; auto 10|].
  right. split; [|reflexivity]. intros kw Hk. simpl in Hk.
  repeat (destruct Hk as [<-|Hk]; [assumption|]). destruct Hk.
Qed.

Lemma unknownOperation_no_keyword : ~ In unknownOperation operationKeywords.
Proof.
  unfold operationKeywords. simpl. intros H.
  repeat (destruct H as [H|H]; [discriminate|]). exact H.
Qed.

(** X5. [getOperationType] answers one of its nine key words or
    "unknown".  It answers a key word exactly when the statement, with
    the white space trimmed off its ends and put in upper case, begins
    with that key word; the order in which the key words are tried plays
    no part, since no text begins with two of them.  It answers
    "unknown" exactly when the statement begins with none. *)
Theorem getOperationType_by_prefix :
  forall sql : jsstring,
    let n := toUpperCase unicodeUpper (String_trim sql) in
    In (getOperationType unicodeUpper sql) (unknownOperation :: operationKeywords)
    /\ (forall kw, In kw operationKeywords ->
          (getOperationType unicodeUpper sql = kw <-> startsWith n kw = true))
    /\ (getOperationType unicodeUpper sql = unknownOperation
        <-> forall kw, In kw operationKeywords -> startsWith n kw = false).
Proof.
  intros sql. cbv zeta.
  destruct (getOperationType_cases sql) as [(k & Hk & Hs & E)|[Hn E]];
    cbv zeta in *.
  - split; [rewrite E; right; exact Hk|]. split.
    + intros kw Hkw. split.
      * intros E'. rewrite E in E'. subst kw. exact Hs.
      * intros Hs'. rewrite E. apply (operationKeywords_exclusive _ Hk Hkw Hs Hs').
    + split.
      * intros E'. exfalso. apply unknownOperation_no_keyword.
        rewrite <- E', E. exact Hk.
      * intros Hn. rewrite (Hn k Hk) in Hs. discriminate.
  - split; [rewrite E; left; reflexivity|]. split.
    + intros kw Hkw. split.
      * intros E'. exfalso. apply unknownOperation_no_keyword.
        rewrite <- E, E'. exact Hkw.
      * intros Hs. rewrite (Hn kw Hkw) in Hs. discriminate.
    + split; [intros _; exact Hn | intros _; exact E].
Qed.

Lemma caseMap_first (ascii : N -> N)
      (unicode : jsstring -> N -> jsstring -> jsstring) (c : N) (t : jsstring) :
  isAscii c = true ->
  caseMap ascii unicode [] (c :: t)
  = ascii c :: caseMap ascii unicode [c] t.
Proof. intros H. simpl. rewrite H. reflexivity. Qed.

(** X6. A statement that [isReadOnlyQuery] takes for read-only
    has no operation type that [getOperationType] knows: for it the
    answer is "unknown".  (The statement is to begin, after the white
    space, with a code unit of ASCII, where the case mappings are the
    fixed ones.) *)
Theorem read_only_has_no_operation_type :
  forall sql : jsstring,
    (forall c t, String_trim sql = c :: t -> isAscii c = true) ->
    isReadOnlyQuery unicodeLower sql = true ->
    getOperationType unicodeUpper sql = unknownOperation.
Proof.
  intros sql A R.
  apply isReadOnlyQuery_true in R as (kw & rest & Hkw & E).
  destruct (String_trim sql) as [|c t] eqn:T.
  { exfalso. unfold readOnlyKeywords in Hkw. simpl in Hkw, E.
    repeat (destruct Hkw as [<-|Hkw]; [discriminate|]). exact Hkw. }
  specialize (A c t eq_refl).
  unfold toLowerCase in E. rewrite caseMap_first in E by exact A.
  destruct (getOperationType_cases sql) as [(k & Hk & Hs & _)|[_ E']];
    [|exact E'].
  exfalso. cbv zeta in Hs. rewrite T in Hs. unfold toUpperCase in Hs.
  rewrite caseMap_first in Hs by exact A.
  assert (L : asciiToLower c = 115%N \/ asciiToLower c = 119%N
              \/ asciiToLower c = 101%N).
  { unfold readOnlyKeywords in Hkw. simpl in Hkw.
    repeat (destruct Hkw as [<-|Hkw]; [injection E as E _; auto|]).
    destruct Hkw. }
  assert (U : asciiToUpper c = 83%N \/ asciiToUpper c = 87%N
              \/ asciiToUpper c = 69%N).
  { clear -L. unfold asciiToLower, asciiToUpper in *.
    destruct ((65 <=? c) && (c <=? 90))%N eqn:X;
      destruct ((97 <=? c) && (c <=? 122))%N eqn:Y;
      try (apply andb_true_iff in X as [X1 X2]; apply N.leb_le in X1, X2);
      try (apply andb_true_iff in Y as [Y1 Y2]; apply N.leb_le in Y1, Y2);
      try (apply andb_false_iff in X as [X|X]; apply N.leb_gt in X);
      try (apply andb_false_iff in Y as [Y|Y]; apply N.leb_gt in Y);
      lia. }
  unfold operationKeywords in Hk. simpl in Hk.
  apply startsWith_prefix in Hs as [r Hr].
  repeat (destruct Hk as [<-|Hk];
          [match type of Hr with
           | _ = ?k ++ _ =>
               let v := eval vm_compute in k in change k with v in Hr
           end;
           injection Hr as Hr _; lia|]).
  destruct Hk.
Qed.

Lemma trimStart_all_spaces (s : jsstring) :
  forallb isWhiteSpace s = true -> trimStart s = [].
Proof.
  intros H. rewrite <- (app_nil_r s) at 1.
  rewrite trimStart_spaces by exact H. reflexivity.
Qed.

Lemma trimStart_app (s r : jsstring) :
  trimStart s <> [] -> trimStart (s ++ r) = trimStart s ++ r.
Proof.
  induction s as [|c s IH]; simpl; [congruence|].
  destruct (isWhiteSpace c); [exact IH | reflexivity].
Qed.

Lemma trimStart_empty (s : jsstring) :
  trimStart s = [] -> forallb isWhiteSpace s = true.
Proof.
  induction s as [|c s IH]; simpl; [reflexivity|].
  destruct (isWhiteSpace c); [exact IH | discriminate].
Qed.

Lemma forallb_rev (X : Type) (f : X -> bool) (xs : list X) :
  forallb f xs = true -> forallb f (rev xs) = true.
Proof.
  rewrite !forallb_forall. intros H x Hx. apply H, in_rev, Hx.
Qed.

Lemma trimEnd_spaces (s r : jsstring) :
  forallb isWhiteSpace r = true -> trimEnd (s ++ r) = trimEnd s.
Proof.
  intros H. unfold trimEnd. rewrite rev_app_distr.
  rewrite trimStart_spaces by (apply forallb_rev, H). reflexivity.
Qed.

(** White space around a text does not change what [trim] leaves. *)
Lemma String_trim_padded (l s r : jsstring) :
  forallb isWhiteSpace l = true -> forallb isWhiteSpace r = true ->
  String_trim (l ++ s ++ r) = String_trim s.
Proof.
  intros Hl Hr. unfold String_trim. rewrite trimStart_spaces by exact Hl.
  destruct (trimStart s) as [|c t] eqn:T.
  - rewrite trimStart_all_spaces; [reflexivity|].
    rewrite forallb_app, Hr, (trimStart_empty _ T). reflexivity.
  - rewrite trimStart_app by congruence. rewrite T.
    apply trimEnd_spaces, Hr.
Qed.

(** X4. White space before and after a statement, of any kind
    that [trim] takes off (blanks, tabs, line ends, no-break spaces),
    changes neither what [isReadOnlyQuery] says of it nor the operation
    type that [getOperationType] gives it. *)
Theorem classification_ignores_white_space_around :
  forall l sql r : jsstring,
    forallb isWhiteSpace l = true ->
    forallb isWhiteSpace r = true ->
    isReadOnlyQuery unicodeLower (l ++ sql ++ r)
    = isReadOnlyQuery unicodeLower sql
    /\ getOperationType unicodeUpper (l ++ sql ++ r)
       = getOperationType unicodeUpper sql.
Proof.
  intros l sql r Hl Hr.
  unfold isReadOnlyQuery, getOperationType.
  rewrite (String_trim_padded l sql r Hl Hr). split; reflexivity.
Qed.

(* ================================================================ *)
(** ** The release guard, and adding and removing together *)

(** X3. [safelyReleaseClient] never throws.  Given no client
    ([null]) it does nothing at all; given a client it calls [release] on
    it once, and when that call throws, the error is written on the
    console and goes no further.  The guard keeps no record of what it
    released: called again on the same client it calls [release] again,
    so that the one release per connection is the doing of the registry
    (its [released] mark) and not of the guard. *)
Theorem safelyReleaseClient_never_throws :
  forall (client : option Client) (s : Store),
    let s' := snd (safelyReleaseClient client s) in
    fst (safelyReleaseClient client s) = Normal tt
    /\ transactions s' = transactions s /\ heap s' = heap s
    /\ history s'
       = history s
           ++ match client with
              | None => []
              | Some c =>
                  ClientRelease c
                  :: match releaseThrows s c with
                     | Some e => [Console (ErrRelease e)]
                     | None => []
                     end
              end
    /\ releases_of (history (snd (safelyReleaseClient client s')))
       = releases_of (history s)
           ++ match client with None => [] | Some c => [c; c] end.
Proof.
  intros client s. cbv zeta.
  unfold safelyReleaseClient, tryCatch, client_release, console_error, emit,
    ret, record.
  destruct client as [c|]; cbn [fst snd].
  - destruct (releaseThrows s c) as [e|]; cbn [fst snd history transactions heap].
    + repeat split; [rewrite <- app_assoc; reflexivity|].
      destruct (releaseThrows _ c); cbn [fst snd history];
        rewrite !releases_of_app; cbn [releases_of];
        rewrite ?app_nil_r, <- !app_assoc; reflexivity.
    + repeat split.
      destruct (releaseThrows _ c); cbn [fst snd history];
        rewrite !releases_of_app; cbn [releases_of];
        rewrite ?app_nil_r, <- !app_assoc; reflexivity.
  - rewrite !app_nil_r. repeat split.
Qed.

Lemma Map_remove_insert (m : list (jsstring * ref)) (k : jsstring) (v : ref) :
  Map_remove (Map_insert m k v) k = Map_remove m k.
Proof.
  induction m as [|[k' v'] m IH]; simpl.
  - destruct (jsstring_eq_dec k k); [reflexivity | congruence].
  - destruct (jsstring_eq_dec k k') as [->|N]; simpl.
    + destruct (jsstring_eq_dec k' k'); [reflexivity | congruence].
    + destruct (jsstring_eq_dec k k'); [congruence|]. rewrite IH. reflexivity.
Qed.

(** X18. [addTransaction] followed by [removeTransaction] of
    the same id releases the connection that was added, once, and leaves
    the registry without an entry for the id.  If the id was new, the
    registry is as it was before the two calls.  If the id was in use,
    its earlier entry is gone as well, and the connection of that entry
    was not released: its object is as it was, not marked released. *)
Theorem addTransaction_then_removeTransaction :
  forall (s : Store) (id : jsstring) (c : Client) (sql : jsstring),
    let s1 := snd (addTransaction id c sql s) in
    let s2 := snd (removeTransaction id s1) in
    transactions s2 = Map_remove (transactions s) id
    /\ (Map_lookup (transactions s) id = None -> transactions s2 = transactions s)
    /\ releases_of (history s2) = releases_of (history s) ++ [c]
    /\ tx_released (heap_get (heap s2) (List.length (heap s))) = true
    /\ (forall r, r < List.length (heap s) ->
          heap_get (heap s2) r = heap_get (heap s) r).
Proof.
  intros s id c sql. cbv zeta.
  set (s1 := snd (addTransaction id c sql s)).
  assert (T1 : transactions s1 = Map_insert (transactions s) id (List.length (heap s)))
    by reflexivity.
  assert (H1 : heap s1
               = heap s ++ [{| tx_id := id; tx_client := c;
                               tx_startTime := clock s; tx_sql := sql;
                               tx_state := active; tx_released := false |}])
    by reflexivity.
  assert (R1 : releases_of (history s1) = releases_of (history s)).
  { unfold s1, addTransaction, bindM, Date_now, new_object, Map_set,
      console_log, emit, record. cbn [fst snd history set_heap set_transactions].
    rewrite releases_of_app, app_nil_r. reflexivity. }
  assert (L1 : Map_lookup (transactions s1) id = Some (List.length (heap s)))
    by (rewrite T1; apply Map_lookup_insert).
  assert (G1 : heap_get (heap s1) (List.length (heap s))
               = {| tx_id := id; tx_client := c; tx_startTime := clock s;
                    tx_sql := sql; tx_state := active; tx_released := false |})
    by (rewrite H1; apply heap_get_new).
  destruct (removeTransaction_effect s1 id) as (_ & T2 & R2 & _ & _ & H2 & _).
  assert (TR : to_release s1 id = [c])
    by (unfold to_release; rewrite L1, G1; reflexivity).
  rewrite TR, L1 in H2. rewrite TR, R1 in R2.
  split; [rewrite T2, T1; apply Map_remove_insert|].
  split; [intros N; rewrite T2, T1, Map_remove_insert;
          apply Map_remove_absent, N|].
  split; [exact R2|]. split.
  - rewrite H2, heap_get_update; [rewrite G1; reflexivity|].
    rewrite H1, length_app. simpl. lia.
  - intros r Hr. rewrite H2, heap_get_update_other by lia.
    rewrite H1. apply heap_get_old, Hr.
Qed.

(* ================================================================ *)
(** ** What escapes the tool [execute_dml_ddl_dcl_tcl] *)

(** The write handler ends with an error only when the pool gave no
    connection, and then [connect] is all that happened. *)
Lemma handleExecuteDML_fails_on_connect (l : Loop) (sql : jsstring) (timeoutMs : Z) :
  match fst (complete (handleExecuteDML sql timeoutMs) l) with
  | Normal _ => True
  | Throw e =>
      isReadOnlyQuery unicodeLower sql = false
      /\ fst (connectAnswer (record PoolConnect (store l))) = Throw e
      /\ history (store (snd (complete (handleExecuteDML sql timeoutMs) l)))
         = history (store l) ++ [PoolConnect]
  end.
Proof.
  unfold handleExecuteDML.
  generalize (firstn 100 sql) as sqlHead. intros sqlHead.
  destruct (isReadOnlyQuery unicodeLower sql); [exact I|].
  rewrite complete_bind, complete_pool_connect.
  destruct (connectAnswer (record PoolConnect (store l))) as [[c|e] t];
    cbn [fst snd].
  - complete_step. repeat (ask_outside; simpl; complete_step).
    all: exact I.
  - repeat split.
Qed.

(** X16. No error escapes the tool [execute_dml_ddl_dcl_tcl]:
    every call ends with an answer.  The answer is the bare text of an
    error only when the registry was below its limit, the statement was
    not read-only and the pool gave no connection; the error is then the
    one of [connect], no query was sent and there is nothing to
    release. *)
Theorem execute_dml_never_fails :
  forall (l : Loop) (sql : jsstring),
    let l' := snd (complete (execute_dml_ddl_dcl_tcl sql) l) in
    exists r,
      fst (complete (execute_dml_ddl_dcl_tcl sql) l) = Normal r
      /\ forall e,
          r = ToolFailure e ->
          (Z.of_nat (List.length (transactions (store l)))
           < config.maxConcurrentTransactions cfg)%Z
          /\ isReadOnlyQuery unicodeLower sql = false
          /\ fst (connectAnswer (record PoolConnect (store l))) = Throw e
          /\ history (store l') = history (store l) ++ [PoolConnect].
Proof.
  intros l sql. cbv zeta. unfold execute_dml_ddl_dcl_tcl.
  rewrite complete_try_catch, complete_bind, complete_lift.
  unfold transactionCount, Map_size. cbn [fst snd]. rewrite with_store_same.
  destruct (Z.geb_spec (Z.of_nat (List.length (transactions (store l))))
                       (config.maxConcurrentTransactions cfg)) as [G|G].
  - rewrite complete_Ret. cbn [fst snd]. eexists. split; [reflexivity|].
    discriminate.
  - rewrite complete_bind.
    pose proof (handleExecuteDML_fails_on_connect l sql
                  (config.transactionTimeoutMs cfg)) as F.
    destruct (complete (handleExecuteDML sql (config.transactionTimeoutMs cfg)) l)
      as [[r|e] l1] eqn:C; cbn [fst snd] in F |- *.
    + rewrite complete_Ret. cbn [fst snd]. exists r. split; [reflexivity|].
      intros e E. exfalso. subst r. revert C.
      unfold handleExecuteDML.
      generalize (firstn 100 sql) as sqlHead. intros sqlHead.
      destruct (isReadOnlyQuery unicodeLower sql); [discriminate|].
      rewrite complete_bind, complete_pool_connect.
      destruct (connectAnswer (record PoolConnect (store l))) as [[c|e'] t];
        cbn [fst snd]; [|discriminate].
      complete_step. repeat (ask_outside; simpl; complete_step).
      all: discriminate.
    + rewrite complete_Ret. cbn [fst snd]. eexists. split; [reflexivity|].
      intros e' E. injection E as <-. destruct F as (F1 & F2 & F3).
      repeat split; assumption.
Qed.

(* ================================================================ *)
(** ** A commit that meets a rollback under way *)

Lemma nth_error_last (X : Type) (xs : list X) (x : X) :
  nth_error (xs ++ [x]) (List.length xs) = Some x.
Proof.
  rewrite nth_error_app2 by lia. rewrite Nat.sub_diag. reflexivity.
Qed.

Lemma remove_nth_last (X : Type) (xs : list X) (x : X) :
  remove_nth (List.length xs) (xs ++ [x]) = xs.
Proof. induction xs as [|y xs IH]; simpl; [|rewrite IH]; reflexivity. Qed.

(** X14. The registry never reads the state of an entry.  While a
    rollback of an entry is under way (its [ROLLBACK] sent and not yet
    settled, as after a tick of the monitor or at shutdown), the entry is
    still registered, in the state [terminating], and
    [handleExecuteCommit] does not answer "not found" for it: it sends
    [COMMIT] on the same connection, behind the [ROLLBACK], removes the
    entry and releases the connection, and answers "committed" if that
    [COMMIT] succeeds.  When the [ROLLBACK] settles afterwards, nothing
    is left for it to do: the connection is not released a second
    time. *)
Theorem commit_meets_rollback_under_way :
  forall (l : Loop) (id initiator reason : jsstring) (r : ref),
    Map_lookup (transactions (store l)) id = Some r ->
    tx_released (heap_get (heap (store l)) r) = false ->
    let c := tx_client (heap_get (heap (store l)) r) in
    queryThrows
      (record (Console (LogRollingBack id initiator reason))
              (set_heap (heap_update (heap (store l)) r (with_state terminating))
                        (store l)))
      c (js "ROLLBACK") = None ->
    let l1 := spawn (rollbackAndRemove id initiator reason) l in
    let t0 := set_heap (heap_update (heap (store l1)) r (with_state terminating))
                       (store l1) in
    let t1 := record (ClientQuery c (js "COMMIT")) t0 in
    let res := fst (complete (handleExecuteCommit id) l1) in
    let l2 := snd (complete (handleExecuteCommit id) l1) in
    (has l1 id = true
     /\ tx_state (heap_get (heap (store l1)) r) = terminating
     /\ List.length (tasks l1) = S (List.length (tasks l)))
    /\ res = Normal match queryThrows t0 c (js "COMMIT") with
                    | Some e => TransactionError e id
                    | None =>
                        match fst (queryAnswer t1 c (js "COMMIT")) with
                        | Normal _ => Committed id
                        | Throw e => TransactionError e id
                        end
                    end
    /\ queries_of (history (store l2))
       = queries_of (history (store l))
           ++ [(c, js "ROLLBACK"); (c, js "COMMIT")]
    /\ releases_of (history (store l2)) = releases_of (history (store l)) ++ [c]
    /\ has l2 id = false
    /\ forall o : completion QueryResult,
        let l3 := settle_query (List.length (tasks l)) o l2 in
        tasks l3 = tasks l
        /\ transactions (store l3) = transactions (store l2)
        /\ releases_of (history (store l3)) = releases_of (history (store l2))
        /\ queries_of (history (store l3)) = queries_of (history (store l2)).
Proof.
  intros l id initiator reason r L U c Hq. cbv zeta.
  pose proof (rollbackAndRemove_runs l id initiator reason) as R.
  rewrite L in R. cbv zeta in R. fold c in R. rewrite Hq in R.
  destruct R as (k & R & K).
  unfold spawn. rewrite R. cbn [park].
  set (s0 := record (Console (LogRollingBack id initiator reason)) _) in *.
  set (s1 := record (ClientQuery c (js "ROLLBACK")) s0) in *.
  set (l1 := {| store := store (with_store s1 l);
                tasks := tasks (with_store s1 l) ++ [TaskQuery c (js "ROLLBACK") k] |}).
  assert (S1 : store l1 = s1) by reflexivity.
  assert (T1 : transactions s1 = transactions (store l)) by reflexivity.
  assert (H1 : heap s1 = heap_update (heap (store l)) r (with_state terminating))
    by reflexivity.
  assert (Y1 : history s1
               = history (store l)
                   ++ [Console (LogRollingBack id initiator reason);
                       ClientQuery c (js "ROLLBACK")]).
  { unfold s1, s0, record, set_heap. cbn [history].
    rewrite <- app_assoc. reflexivity. }
  assert (K1 : tasks l1 = tasks l ++ [TaskQuery c (js "ROLLBACK") k])
    by reflexivity.
  assert (In1 : r < List.length (heap (store l)))
    by (apply unreleased_in_heap, U).
  assert (C1 : tx_client (heap_get (heap s1) r) = c)
    by (rewrite H1; apply heap_get_update_client; reflexivity).
  assert (TR1 : to_release s1 id = [c]).
  { unfold to_release. rewrite T1, L, H1.
    rewrite (heap_get_update_field tx_released) by reflexivity.
    rewrite (heap_get_update_field tx_client) by reflexivity.
    rewrite U. reflexivity. }
  split.
  { unfold has. rewrite S1, T1, L, K1, H1, length_app.
    rewrite heap_get_update by exact In1. cbn [List.length].
    repeat split. lia. }
  (* the commit *)
  unfold handleExecuteCommit.
  rewrite complete_try_catch, complete_bind, complete_lift.
  unfold hasTransaction, Map_has. cbn [fst snd].
  rewrite with_store_same, S1, T1, L. cbn [negb].
  rewrite complete_bind, commitAndRemove_completes, S1, T1, L. cbv zeta.
  rewrite C1.
  set (t0 := set_heap (heap_update (heap s1) r (with_state terminating)) s1).
  set (t1 := record (ClientQuery c (js "COMMIT")) t0).
  assert (F : forall s' evs,
             transactions s' = transactions s1 ->
             heap s' = heap_update (heap s1) r (with_state terminating) ->
             history s' = history s1 ++ evs ->
             queries_of evs = [(c, js "COMMIT")] ->
             releases_of evs = [] ->
             let l2 := with_store (snd (removeTransaction id s')) l1 in
             queries_of (history (store l2))
             = queries_of (history (store l))
                 ++ [(c, js "ROLLBACK"); (c, js "COMMIT")]
             /\ releases_of (history (store l2))
                = releases_of (history (store l)) ++ [c]
             /\ has l2 id = false
             /\ forall o : completion QueryResult,
                 let l3 := settle_query (List.length (tasks l)) o l2 in
                 tasks l3 = tasks l
                 /\ transactions (store l3) = transactions (store l2)
                 /\ releases_of (history (store l3))
                    = releases_of (history (store l2))
                 /\ queries_of (history (store l3))
                    = queries_of (history (store l2))).
  { intros s' evs Ht Hh Hy Q Rl. cbv zeta.
    destruct (@removeTransaction_after s1 s' id r terminating evs Ht Hh Hy)
      as (T & La & Qa & Ra & _).
    cbn [store tasks with_store].
    split; [rewrite Qa, Y1, Q, queries_of_app, <- app_assoc; reflexivity|].
    split; [rewrite Ra, Y1, Rl, TR1, releases_of_app; cbn [releases_of app];
            rewrite app_nil_r; reflexivity|].
    split; [unfold has; cbn [store with_store]; rewrite La; reflexivity|].
    intros o. unfold settle_query. cbn [store tasks with_store].
    rewrite K1, nth_error_last, remove_nth_last, K. cbn [park store tasks with_store].
    match goal with |- context [removeTransaction id ?s] =>
      destruct (removeTransaction_effect s id) as (_ & Tb & Rb & Qb & _);
      assert (TRb : to_release s id = [])
        by (unfold to_release, record; cbn [transactions]; rewrite La;
            reflexivity)
    end.
    split; [reflexivity|].
    split; [rewrite Tb; unfold record; cbn [transactions];
            apply Map_remove_absent, La|].
    split; [rewrite Rb, TRb, app_nil_r; unfold record; cbn [history];
            rewrite releases_of_app, app_nil_r; reflexivity|].
    rewrite Qb. unfold record. cbn [history].
    rewrite queries_of_app, app_nil_r. reflexivity. }
  destruct (queryThrows t0 c (js "COMMIT")) as [e|].
  - cbn [fst snd]. split; [reflexivity|].
    apply (F t1 [ClientQuery c (js "COMMIT")]); reflexivity.
  - destruct (queryAnswer t1 c (js "COMMIT")) as [[q|e] t]; cbn [fst snd].
    + rewrite complete_Ret. cbn [fst snd]. split; [reflexivity|].
      apply (F _ [ClientQuery c (js "COMMIT"); Console (LogCommitted id)]);
        try reflexivity.
      unfold record, t1, t0, record, set_clock, set_heap. cbn [history].
      rewrite <- app_assoc. reflexivity.
    + split; [reflexivity|].
      apply (F _ [ClientQuery c (js "COMMIT")]); reflexivity.
Qed.

(* ================================================================ *)
(** ** Invariants by the steps that the registry takes *)

Lemma stable_steady (J : Store -> Prop) : stable J -> steady J.
Proof.
  intros (A & B & C & D & E). repeat split; auto.
Qed.

Lemma steady_client_query J (c : Client) (text : jsstring) :
  steady J -> keeps J (client_query c text).
Proof.
  intros (Hrec & _). unfold client_query.
  apply keeps_bind.
  - apply keeps_lift. intros s Hs. unfold client_query_call.
    destruct (queryThrows s c text); apply Hrec; auto; discriminate.
  - intros _ r. apply keeps_resume.
Qed.

Lemma steady_log J (ln : line) : steady J -> keeps J (lift (console_log ln)).
Proof.
  intros (Hrec & _). apply keeps_lift. intros s Hs.
  apply Hrec; auto; discriminate.
Qed.

Lemma steady_removeTransaction J (id : jsstring) :
  steady J -> keeps J (lift (removeTransaction id)).
Proof. intros (_ & _ & Hrm & _). apply keeps_lift. intros s. apply Hrm. Qed.

Lemma steady_rollbackAndRemove J (id initiator reason : jsstring) :
  steady J -> keeps J (rollbackAndRemove id initiator reason).
Proof.
  intros St. pose proof St as (Hrec & Hst & Hrm & _).
  unfold rollbackAndRemove.
  apply keeps_bind; [apply keeps_lift; auto|].
  intros [r|]; [|apply steady_log, St].
  apply keeps_bind; [apply keeps_lift; intros s; apply Hst|]. intros _.
  apply keeps_try_finally; [|apply steady_removeTransaction, St].
  apply keeps_try_catch; [|intros e; apply steady_log, St].
  apply keeps_bind; [apply steady_log, St|]. intros _.
  apply keeps_bind; [apply keeps_lift; auto|]. intros t.
  apply keeps_bind; [apply steady_client_query, St|]. intros _.
  apply steady_log, St.
Qed.

Lemma steady_commitAndRemove J (id : jsstring) :
  steady J -> keeps J (commitAndRemove id).
Proof.
  intros St. pose proof St as (Hrec & Hst & Hrm & _).
  unfold commitAndRemove.
  apply keeps_bind; [apply keeps_lift; auto|].
  intros [r|]; [|exact I].
  apply keeps_bind; [apply keeps_lift; intros s; apply Hst|]. intros _.
  apply keeps_try_finally; [|apply steady_removeTransaction, St].
  apply keeps_bind; [apply keeps_lift; auto|]. intros t.
  apply keeps_bind; [apply steady_client_query, St|]. intros _.
  apply steady_log, St.
Qed.

Lemma steady_checkTransactionTimeouts J :
  steady J -> keeps J checkTransactionTimeouts.
Proof.
  intros St. unfold checkTransactionTimeouts, Map_forEach.
  apply keeps_bind; [apply keeps_lift; auto|]. intros now.
  apply keeps_bind; [apply keeps_lift; auto|]. intros keys.
  apply keeps_forEach_from. intros r k.
  apply keeps_bind; [apply keeps_lift; auto|]. intros t.
  apply keeps_bind; [apply keeps_lift; auto|]. intros timeout.
  destruct (_ >? _)%Z; [|exact I].
  apply keeps_bind; [apply steady_log, St|]. intros _.
  apply keeps_fire_and_forget; [apply steady_rollbackAndRemove, St|].
  intros e. apply steady_log, St.
Qed.

Lemma steady_destroy J : steady J -> keeps J destroy.
Proof.
  intros St. pose proof St as (_ & _ & _ & Hmon & _). unfold destroy.
  apply keeps_bind.
  - apply keeps_lift. intros s Hs.
    unfold bindM, get_monitorInterval, clearInterval, set_monitorInterval, ret.
    simpl. destruct (monitorInterval s) as [h|]; simpl; [|exact Hs].
    apply (Hmon s h Hs).
  - intros _. apply keeps_bind; [apply keeps_lift; auto|]. intros ids.
    apply keeps_for_of. intros id.
    apply keeps_fire_and_forget; [apply steady_rollbackAndRemove, St|].
    intros e. apply steady_log, St.
Qed.

(** The calls left waiting keep a steady invariant, whatever is called
    on the registry. *)
Lemma perform_tasks_steady (J : Store -> Prop) (a : action) (l : Loop) :
  steady J ->
  Forall (task_keeps J) (tasks l) ->
  Forall (task_keeps J) (tasks (perform a l)).
Proof.
  intros St Ht.
  assert (Sp : forall p : async unit,
             keeps J p -> Forall (task_keeps J) (tasks (spawn p l))).
  { intros p Hp. apply (@spawn_keeps J p l Hp Ht). }
  destruct a as [timeout interval enable|id c sql|id|id|id i rz|h| |i r|t];
    cbn [perform]; try exact Ht.
  - apply Sp, steady_commitAndRemove, St.
  - apply Sp, steady_rollbackAndRemove, St.
  - unfold tick. destruct (existsb _ _); [|exact Ht].
    apply (@run_keeps J _ checkTransactionTimeouts l
                      (steady_checkTransactionTimeouts St) Ht).
  - apply Sp, steady_destroy, St.
  - apply (@settle_query_keeps J i r l Ht).
Qed.

(** A call on the registry keeps a steady invariant, given that it does
    when the call makes a manager or adds an entry. *)
Lemma perform_store_steady (J : Store -> Prop) (a : action) (l : Loop) :
  steady J ->
  match a with
  | Add id c sql => J (snd (addTransaction id c sql (store l)))
  | New t i e => J (snd (TransactionManager_new t i e (store l)))
  | _ => True
  end ->
  Forall (task_keeps J) (tasks l) ->
  J (store l) -> J (store (perform a l)).
Proof.
  intros St Ha Ht Hs.
  assert (Sp : forall p : async unit, keeps J p -> J (store (spawn p l))).
  { intros p Hp. apply (@spawn_keeps J p l Hp Ht), Hs. }
  destruct a as [timeout interval enable|id c sql|id|id|id i rz|h| |i r|t];
    cbn [perform].
  - exact Ha.
  - exact Ha.
  - apply St, Hs.
  - apply Sp, steady_commitAndRemove, St.
  - apply Sp, steady_rollbackAndRemove, St.
  - unfold tick. destruct (existsb _ _); [|exact Hs].
    apply (@run_keeps J _ checkTransactionTimeouts l
                      (steady_checkTransactionTimeouts St) Ht), Hs.
  - apply Sp, steady_destroy, St.
  - apply (@settle_query_keeps J i r l Ht), Hs.
  - apply St, Hs.
Qed.

Lemma perform_all_app (a1 a2 : list action) (l : Loop) :
  perform_all (a1 ++ a2) l = perform_all a2 (perform_all a1 l).
Proof. unfold perform_all. apply fold_left_app. Qed.

(** The calls that wait in a loop that the registry can reach keep every
    steady invariant. *)
Lemma perform_all_tasks_steady (J : Store -> Prop) (acts : list action) :
  steady J ->
  forall l : Loop,
    Forall (task_keeps J) (tasks l) ->
    Forall (task_keeps J) (tasks (perform_all acts l)).
Proof.
  intros St. induction acts as [|a acts IH]; intros l Ht; [exact Ht|].
  cbn [perform_all fold_left]. apply IH.
  apply perform_tasks_steady; assumption.
Qed.

(* ================================================================ *)
(** ** The life of a transaction object *)

Lemma heap_get_update_cases (h : list TrackedTransaction) (r' r : ref) f :
  heap_get (heap_update h r' f) r = heap_get h r
  \/ (r = r' /\ heap_get (heap_update h r' f) r = f (heap_get h r)).
Proof.
  unfold heap_get. revert r' r.
  induction h as [|t h IH]; intros [|r'] [|r]; simpl; auto.
  destruct (IH r' r) as [E|[-> E]]; auto.
Qed.

Lemma later_refl (t : TrackedTransaction) : later t t.
Proof. unfold later. repeat split; auto. Qed.

Lemma later_trans (t1 t2 t3 : TrackedTransaction) :
  later t1 t2 -> later t2 t3 -> later t1 t3.
Proof.
  unfold later. intros (A1 & B1 & C1 & D1 & E1 & F1) (A2 & B2 & C2 & D2 & E2 & F2).
  repeat split; try congruence; auto.
Qed.

Lemma later_update (h : list TrackedTransaction) (r' r : ref) f :
  (forall t, later t (f t)) ->
  later (heap_get h r) (heap_get (heap_update h r' f) r).
Proof.
  intros Hf. destruct (heap_get_update_cases h r' r f) as [->|[_ ->]];
    [apply later_refl | apply Hf].
Qed.

Lemma steady_grown_from (h0 : list TrackedTransaction) : steady (grown_from h0).
Proof.
  unfold steady, grown_from.
  split; [|split; [|split; [|split]]].
  - intros s e _ H. exact H.
  - intros s r [Hl Hg]. unfold set_heap. cbn [heap]. rewrite length_heap_update.
    split; [exact Hl|]. intros r0 Hr0.
    eapply later_trans; [apply Hg, Hr0|]. apply later_update.
    intros t. unfold later, with_state. cbn. repeat split; auto.
  - intros s id [Hl Hg].
    destruct (removeTransaction_effect s id) as (_ & _ & _ & _ & _ & -> & _).
    destruct (to_release s id); [split; assumption|].
    destruct (Map_lookup (transactions s) id) as [r|]; [|split; assumption].
    rewrite length_heap_update. split; [exact Hl|]. intros r0 Hr0.
    eapply later_trans; [apply Hg, Hr0|]. apply later_update.
    intros t. unfold later, with_released. cbn. repeat split; auto.
  - intros s h H. exact H.
  - intros s t H. exact H.
Qed.

Lemma grown_from_add (h0 : list TrackedTransaction) (s : Store) id c sql :
  grown_from h0 s -> grown_from h0 (snd (addTransaction id c sql s)).
Proof.
  intros [Hl Hg]. unfold grown_from, addTransaction, bindM, Date_now,
    new_object, Map_set, console_log, emit, record, set_heap,
    set_transactions.
  cbn [fst snd heap]. rewrite length_app. split; [lia|].
  intros r Hr. rewrite heap_get_old by lia. apply Hg, Hr.
Qed.

Lemma grown_from_new (h0 : list TrackedTransaction) (s : Store) t i e :
  grown_from h0 s -> grown_from h0 (snd (TransactionManager_new t i e s)).
Proof.
  intros H. unfold grown_from, TransactionManager_new, startMonitor, bindM,
    get_monitorInterval, clearInterval, setInterval, set_monitorInterval,
    get_monitorIntervalMs, console_log, emit, ret, record.
  destruct e; exact H.
Qed.

Lemma perform_all_grown_from (h0 : list TrackedTransaction) (acts : list action) :
  forall l : Loop,
    grown_from h0 (store l) ->
    Forall (task_keeps (grown_from h0)) (tasks l) ->
    grown_from h0 (store (perform_all acts l)).
Proof.
  induction acts as [|a acts IH]; intros l Hs Ht; [exact Hs|].
  cbn [perform_all fold_left]. apply IH.
  - apply perform_store_steady; try assumption; [apply steady_grown_from|].
    destruct a; try exact I.
    + apply grown_from_new, Hs.
    + apply grown_from_add, Hs.
  - apply perform_tasks_steady; [apply steady_grown_from | exact Ht].
Qed.

(** X19. A transaction object only moves forward.  Whatever is
    called on the registry and however the queries settle, an object that
    was made stays in the heap with the id, the connection, the start
    time and the statement it was made with; once its state is
    [terminating] it does not become [active] again, and once it is
    marked released the mark is not taken off. *)
Theorem transaction_objects_move_forward :
  forall (before after : list action) (r : ref),
    let s := store (perform_all before idle) in
    let s' := store (perform_all (before ++ after) idle) in
    r < List.length (heap s) ->
    r < List.length (heap s')
    /\ tx_id (heap_get (heap s') r) = tx_id (heap_get (heap s) r)
    /\ tx_client (heap_get (heap s') r) = tx_client (heap_get (heap s) r)
    /\ tx_startTime (heap_get (heap s') r) = tx_startTime (heap_get (heap s) r)
    /\ tx_sql (heap_get (heap s') r) = tx_sql (heap_get (heap s) r)
    /\ (tx_state (heap_get (heap s) r) = terminating ->
        tx_state (heap_get (heap s') r) = terminating)
    /\ (tx_released (heap_get (heap s) r) = true ->
        tx_released (heap_get (heap s') r) = true).
Proof.
  intros before after r. cbv zeta. intros Hr.
  rewrite perform_all_app.
  set (l0 := perform_all before idle) in *.
  assert (G : grown_from (heap (store l0)) (store (perform_all after l0))).
  { apply perform_all_grown_from.
    - split; [lia|]. intros r0 _. apply later_refl.
    - apply perform_all_tasks_steady; [apply steady_grown_from|].
      constructor. }
  destruct G as [Gl Gg]. split; [lia|]. apply (Gg r Hr).
Qed.

(* ================================================================ *)
(** ** No connection is lost *)

Lemma Map_insert_absent (m : list (jsstring * ref)) (k : jsstring) (v : ref) :
  Map_lookup m k = None -> Map_insert m k v = m ++ [(k, v)].
Proof.
  induction m as [|[k' v'] m IH]; simpl; [reflexivity|].
  destruct (jsstring_eq_dec k k'); [discriminate|].
  intros H. rewrite IH by exact H. reflexivity.
Qed.

Lemma stable_tracked : stable tracked.
Proof.
  pose proof stable_registry_wf as (R1 & R2 & R3 & R4 & R5).
  unfold stable, tracked.
  split; [|split; [|split; [|split]]].
  - intros s e He [W C]. split; [apply R1; assumption | exact C].
  - intros s r v [W C]. split; [apply R2, W|].
    unfold set_heap. cbn [heap transactions]. rewrite length_heap_update.
    intros r0 Hr0. rewrite (heap_get_update_field tx_released) by reflexivity.
    apply C, Hr0.
  - intros s id [W C]. split; [apply R3, W|].
    destruct W as (Wf & Nd & Un).
    destruct (removeTransaction_effect s id) as (_ & -> & _ & _ & _ & -> & _).
    unfold to_release.
    destruct (Map_lookup (transactions s) id) as [r|] eqn:L.
    + assert (Keep : forall r0, r0 <> r -> In r0 (map snd (transactions s)) ->
                     In r0 (map snd (Map_remove (transactions s) id))).
      { intros r0 Nr I. apply in_map_iff in I as ([k r1] & E & I).
        simpl in E. subst r1. apply in_map_iff. exists (k, r0).
        split; [reflexivity|]. rewrite Map_remove_filter. apply filter_In.
        split; [exact I|]. simpl. unfold jsstring_eqb.
        destruct (jsstring_eq_dec id k) as [->|]; [|reflexivity].
        pose proof (@Map_lookup_In _ (k, r0) Wf I) as L'. simpl in L'.
        congruence. }
      destruct (tx_released (heap_get (heap s) r)) eqn:Rl.
      * intros r0 Hr0. destruct (Nat.eq_dec r0 r) as [->|Nr]; [auto|].
        destruct (C r0 Hr0); auto.
      * rewrite length_heap_update. intros r0 Hr0.
        destruct (Nat.eq_dec r0 r) as [->|Nr].
        -- left. rewrite heap_get_update by exact Hr0. reflexivity.
        -- rewrite heap_get_update_other by congruence.
           destruct (C r0 Hr0); auto.
    + rewrite Map_remove_absent by exact L. exact C.
  - intros s mi ts nt H. exact H.
  - intros s t H. exact H.
Qed.

Lemma tracked_add (s : Store) id c sql :
  Map_lookup (transactions s) id = None ->
  tracked s -> tracked (snd (addTransaction id c sql s)).
Proof.
  intros L [W C]. split; [apply addTransaction_registry_wf, W|].
  unfold addTransaction, bindM, Date_now, new_object, Map_set, console_log,
    emit, record, set_heap, set_transactions.
  cbn [fst snd heap transactions]. rewrite length_app. cbn [List.length].
  rewrite Map_insert_absent by exact L. rewrite map_app. cbn [map snd].
  intros r Hr. destruct (Nat.eq_dec r (List.length (heap s))) as [->|N].
  - right. apply in_or_app. right. left. reflexivity.
  - rewrite heap_get_old by lia. destruct (C r); [lia|auto|].
    right. apply in_or_app. auto.
Qed.

Lemma tracked_new (s : Store) t i e :
  transactions s = [] ->
  tracked s -> tracked (snd (TransactionManager_new t i e s)).
Proof.
  intros E [W C]. split; [apply TransactionManager_new_registry_wf|].
  assert (H : heap (snd (TransactionManager_new t i e s)) = heap s).
  { unfold TransactionManager_new, startMonitor, bindM,
      get_monitorInterval, clearInterval, setInterval, set_monitorInterval,
      get_monitorIntervalMs, console_log, emit, ret, record.
    destruct e; reflexivity. }
  rewrite H. intros r Hr. destruct (C r Hr) as [Rl|I]; [auto|].
  rewrite E in I. destruct I.
Qed.

(** In a careful use of the registry the connections staged are the
    connections of the objects made, and every object is tracked. *)
Lemma careful_tracked (acts : list action) :
  forall (l : Loop) (L : list Client),
    careful acts l ->
    staged_are L (store l) -> tracked (store l) ->
    (forall J, steady J -> Forall (task_keeps J) (tasks l)) ->
    staged_are (L ++ staged acts) (store (perform_all acts l))
    /\ tracked (store (perform_all acts l)).
Proof.
  induction acts as [|a acts IH]; intros l L Hc Hs Ht Hk.
  - cbn. rewrite app_nil_r. auto.
  - destruct Hc as [Ha Hc]. cbn [perform_all fold_left].
    replace (L ++ staged (a :: acts)) with ((L ++ staged [a]) ++ staged acts)
      by (rewrite <- app_assoc, <- staged_app; reflexivity).
    apply IH.
    + exact Hc.
    + apply perform_staged; [exact Hs|].
      intros L'. apply Hk, stable_steady, stable_staged_are.
    + apply perform_store_steady;
        [apply stable_steady, stable_tracked| |apply Hk, stable_steady,
                                               stable_tracked|exact Ht].
      destruct a; try exact I.
      * apply tracked_new; assumption.
      * apply tracked_add; [|exact Ht]. unfold has in Ha.
        destruct (Map_lookup (transactions (store l)) id);
          [discriminate | reflexivity].
    + intros J St. apply perform_tasks_steady; [exact St | apply Hk, St].
Qed.

Lemma count_occ_map_split (X : Type) (f : X -> Client) (p : X -> bool)
      (xs : list X) (c : Client) :
  count_occ Nat.eq_dec (map f xs) c
  = count_occ Nat.eq_dec (map f (filter p xs)) c
    + count_occ Nat.eq_dec (map f (filter (fun x => negb (p x)) xs)) c.
Proof.
  induction xs as [|x xs IH]; simpl; [reflexivity|].
  destruct (p x); simpl; destruct (Nat.eq_dec (f x) c); lia.
Qed.

(** The objects of a heap that satisfy [p], by their places. *)
Lemma filter_by_place (X : Type) (f : TrackedTransaction -> X)
      (p : TrackedTransaction -> bool) (h : list TrackedTransaction) :
  map (fun r => f (heap_get h r))
      (filter (fun r => p (heap_get h r)) (seq 0 (List.length h)))
  = map f (filter p h).
Proof.
  induction h as [|t h IH] using rev_ind; [reflexivity|].
  rewrite length_app. cbn [List.length]. rewrite Nat.add_1_r, seq_S.
  rewrite !filter_app, !map_app. cbn [filter plus].
  rewrite heap_get_new. f_equal.
  - rewrite <- IH.
    assert (E : forall r, In r (seq 0 (List.length h)) ->
                          heap_get (h ++ [t]) r = heap_get h r).
    { intros r Hr. apply in_seq in Hr. apply heap_get_old. lia. }
    rewrite (filter_ext_in _ (fun r => p (heap_get h r))).
    + apply map_ext_in. intros r Hr. apply filter_In in Hr as [Hr _].
      rewrite E by exact Hr. reflexivity.
    + intros r Hr. rewrite E by exact Hr. reflexivity.
  - destruct (p t); cbn [map]; [rewrite heap_get_new|]; reflexivity.
Qed.

Lemma count_occ_same_elements (X : Type) (g : X -> Client) (c : Client) :
  forall l1 l2 : list X,
    NoDup l1 -> NoDup l2 -> (forall x, In x l1 <-> In x l2) ->
    count_occ Nat.eq_dec (map g l1) c = count_occ Nat.eq_dec (map g l2) c.
Proof.
  induction l1 as [|x l1 IH]; intros l2 N1 N2 H.
  - destruct l2 as [|y l2]; [reflexivity|].
    exfalso. apply (H y). left. reflexivity.
  - inversion N1 as [|? ? Nx N1']; subst.
    assert (Hx : In x l2) by (apply H; left; reflexivity).
    apply in_split in Hx as (a & b & ->).
    pose proof (NoDup_remove_1 _ _ _ N2) as N2'.
    pose proof (NoDup_remove_2 _ _ _ N2) as Nx'.
    assert (E : count_occ Nat.eq_dec (map g l1) c
                = count_occ Nat.eq_dec (map g (a ++ b)) c).
    { apply IH; [exact N1' | exact N2'|]. intros y. split.
      - intros Hy.
        assert (Hy' : In y (a ++ x :: b)) by (apply H; right; exact Hy).
        apply in_app_or in Hy' as [Hy'|[->|Hy']]; [| contradiction |];
          apply in_or_app; auto.
      - intros Hy. assert (Hy' : In y (x :: l1)).
        { apply H. apply in_app_or in Hy as [Hy|Hy]; apply in_or_app;
            [left | right; right]; exact Hy. }
        destruct Hy' as [->|Hy']; [contradiction | exact Hy']. }
    cbn [map count_occ]. rewrite E, !map_app, !count_occ_app.
    cbn [map count_occ]. destruct (Nat.eq_dec (g x) c); lia.
Qed.

(** The account of a store whose objects are tracked: the connections of
    the objects made are those released and those registered. *)
Lemma tracked_account (s : Store) (L : list Client) (c : Client) :
  staged_are L s -> tracked s ->
  count_occ Nat.eq_dec L c
  = count_occ Nat.eq_dec (releases_of (history s)) c
    + count_occ Nat.eq_dec (registered s) c.
Proof.
  intros [Ha <-] [(Wf & Nd & Un) C].
  rewrite (count_occ_map_split tx_client tx_released (heap s) c).
  rewrite (Ha c). unfold marked_released. f_equal.
  rewrite <- (filter_by_place tx_client (fun t => negb (tx_released t)) (heap s)).
  unfold registered. rewrite <- (map_map snd (fun r => tx_client (heap_get (heap s) r))).
  apply count_occ_same_elements.
  - apply NoDup_filter, seq_NoDup.
  - exact Nd.
  - intros r. rewrite filter_In, in_seq. split.
    + intros [Hr Hn]. destruct (C r) as [Rl|I]; [lia| |exact I].
      rewrite Rl in Hn. discriminate.
    + intros I. apply in_map_iff in I as (e & <- & He).
      rewrite Forall_forall in Un. specialize (Un e He).
      rewrite Un. split; [|reflexivity].
      pose proof (unreleased_in_heap _ _ Un). lia.
Qed.

(** X20. No connection is lost.  In a use of the registry in which
    an id is added only when it is not registered, and a manager is made
    only when none holds an entry, every connection that was staged is
    accounted for at every moment: it was released, or it is the
    connection of an entry that is still registered, as often as it was
    staged.  This holds through commits, rollbacks, ticks of the
    monitor, shutdown and queries that settle in any order and fail or
    succeed. *)
Theorem no_connection_is_lost :
  forall (acts : list action) (c : Client),
    careful acts idle ->
    count_occ Nat.eq_dec (staged acts) c
    = count_occ Nat.eq_dec
                (releases_of (history (store (perform_all acts idle)))) c
      + count_occ Nat.eq_dec (registered (store (perform_all acts idle))) c.
Proof.
  intros acts c Hc.
  destruct (@careful_tracked acts idle [] Hc) as [Hs Ht].
  - split; [intros c0|]; reflexivity.
  - split; [repeat split; constructor|]. intros r Hr. simpl in Hr. lia.
  - intros J _. constructor.
  - apply (tracked_account c Hs Ht).
Qed.

(* ================================================================ *)
(** ** A registry without a monitor *)

Lemma steady_no_timers : steady (fun s => timers s = []).
Proof.
  unfold steady. split; [|split; [|split; [|split]]].
  - intros s e _ H. exact H.
  - intros s r H. exact H.
  - intros s id H.
    destruct (removeTransaction_effect s id)
      as (_ & _ & _ & _ & _ & _ & -> & _).
    exact H.
  - intros s h H. unfold set_monitor. cbn [timers]. rewrite H. reflexivity.
  - intros s t H. exact H.
Qed.

Lemma monitor_off_run (acts : list action) :
  forall l : Loop,
    forallb (fun a => negb (startsMonitor a)) acts = true ->
    timers (store l) = [] ->
    Forall (task_keeps (fun s => timers s = [])) (tasks l) ->
    perform_all acts l
    = perform_all (filter (fun a => negb (isTimerFires a)) acts) l
    /\ timers (store (perform_all acts l)) = [].
Proof.
  induction acts as [|a acts IH]; intros l Hoff Hs Ht; [split; auto|].
  cbn [forallb] in Hoff. apply andb_true_iff in Hoff as [Ha Hoff].
  assert (Hs' : timers (store (perform a l)) = []).
  { apply (@perform_store_steady (fun s => timers s = []));
      [apply steady_no_timers| |exact Ht|exact Hs].
    destruct a as [t i e| | | | | | | |]; try exact I.
    - cbn [startsMonitor negb] in Ha. destruct e; [discriminate|].
      exact Hs.
    - exact Hs. }
  assert (Ht' : Forall (task_keeps (fun s => timers s = [])) (tasks (perform a l)))
    by (apply perform_tasks_steady; [apply steady_no_timers | exact Ht]).
  destruct (IH (perform a l) Hoff Hs' Ht') as [E T].
  cbn [filter perform_all fold_left]. fold (perform_all acts (perform a l)).
  destruct (isTimerFires a) eqn:Tf; cbn [negb].
  - destruct a; try discriminate. cbn [perform] in *. unfold tick in *.
    rewrite Hs in *. cbn [existsb] in *. split; [exact E | exact T].
  - cbn [perform_all fold_left].
    fold (perform_all (filter (fun a0 => negb (isTimerFires a0)) acts)
                      (perform a l)).
    split; [exact E | exact T].
Qed.

(** X22. When every manager is made with the monitor switched
    off, no timer runs, and a timer that fires changes nothing: the
    registry goes the way it goes without such events, so that no
    transaction is rolled back for its age, however old it gets. *)
Theorem monitor_off_never_times_out :
  forall acts : list action,
    forallb (fun a => negb (startsMonitor a)) acts = true ->
    perform_all acts idle
    = perform_all (filter (fun a => negb (isTimerFires a)) acts) idle
    /\ timers (store (perform_all acts idle)) = []
    /\ forall h, tick h (perform_all acts idle) = perform_all acts idle.
Proof.
  intros acts Hoff.
  destruct (@monitor_off_run acts idle Hoff eq_refl (Forall_nil _)) as [E T].
  split; [exact E|]. split; [exact T|].
  intros h. unfold tick. rewrite T. reflexivity.
Qed.

(* ================================================================ *)
(** ** The error that the write handler reports *)

(** X15. When the database takes [BEGIN] and rejects the
    statement, [handleExecuteDML] answers with the error of the
    statement, whatever becomes of the [ROLLBACK] that it sends next: an
    error of the rollback goes to the console only.  [COMMIT] is not
    sent, and the connection is released. *)
Theorem handleExecuteDML_reports_statement_error :
  forall (l : Loop) (sql : jsstring) (timeoutMs : Z) (c : Client) (e : error),
    isReadOnlyQuery unicodeLower sql = false ->
    (forall s c' text, queryThrows s c' text = None) ->
    (forall s, fst (connectAnswer s) = Normal c) ->
    (forall s, exists q, fst (queryAnswer s c (js "BEGIN")) = Normal q) ->
    (forall s, fst (queryAnswer s c sql) = Throw e) ->
    let res := fst (complete (handleExecuteDML sql timeoutMs) l) in
    let l' := snd (complete (handleExecuteDML sql timeoutMs) l) in
    res = Normal (ExecutionError e sql)
    /\ queries_of (history (store l'))
       = queries_of (history (store l))
           ++ [(c, js "BEGIN"); (c, sql); (c, js "ROLLBACK")]
    /\ releases_of (history (store l')) = releases_of (history (store l)) ++ [c].
Proof.
  intros l sql timeoutMs c e Hw Hthrows Hconn Hbegin Hsql. cbv zeta.
  unfold handleExecuteDML. rewrite Hw.
  generalize (firstn 100 sql) as sqlHead. intros sqlHead.
  rewrite complete_bind, complete_pool_connect, Hconn.
  complete_step.
  repeat (rewrite ?Hthrows;
          try match goal with
              | |- context [fst (queryAnswer ?s c (js "BEGIN"))] =>
                  let q := fresh "q" in
                  let Hq := fresh "Hq" in
                  destruct (Hbegin s) as [q Hq]; rewrite Hq; clear Hq
              end;
          rewrite ?Hsql; simpl; complete_step).
  match goal with
  | |- context [queryAnswer ?s c (js "ROLLBACK")] =>
      destruct (queryAnswer s c (js "ROLLBACK")) as [[q'|e'] t']
  end; simpl; complete_step.
  all: repeat (rewrite ?Hthrows; simpl; complete_step).
  all: match goal with
       | |- context [releaseThrows ?s ?c0] => destruct (releaseThrows s c0)
       end; simpl.
  all: unfold record; simpl;
    rewrite ?queries_of_app, ?releases_of_app; simpl;
    rewrite ?queries_of_app, ?releases_of_app; simpl.
  all: rewrite ?app_nil_r, <- ?app_assoc; simpl; repeat split.
Qed.

(* ================================================================ *)
(** ** The registry as the tools use it *)

(** The write handler, followed to its return, leaves the registry and
    the tasks as they were. *)
Lemma handleExecuteDML_registry (l : Loop) (sql : jsstring) (timeoutMs : Z) :
  transactions (store (snd (complete (handleExecuteDML sql timeoutMs) l)))
  = transactions (store l)
  /\ tasks (snd (complete (handleExecuteDML sql timeoutMs) l)) = tasks l.
Proof.
  unfold handleExecuteDML.
  generalize (firstn 100 sql) as sqlHead. intros sqlHead.
  destruct (isReadOnlyQuery unicodeLower sql); [split; reflexivity|].
  rewrite complete_bind, complete_pool_connect.
  destruct (connectAnswer (record PoolConnect (store l))) as [[c|e] t];
    cbn [fst snd]; [|split; reflexivity].
  complete_step. repeat (ask_outside; simpl; complete_step).
  all: split; reflexivity.
Qed.

Lemma serve_empty (q : request) (l : Loop) :
  (0 < config.maxConcurrentTransactions cfg)%Z ->
  transactions (store l) = [] ->
  transactions (store (snd (serve q l))) = []
  /\ tasks (snd (serve q l)) = tasks l
  /\ replyOfEmptyRegistry q (fst (serve q l)).
Proof.
  intros Hmax He. destruct q as [sql|id|id]; cbn [serve].
  - pose proof (execute_dml_proceeds_below_the_limit l sql) as P.
    rewrite He in P. specialize (P Hmax).
    destruct (handleExecuteDML_registry l sql (config.transactionTimeoutMs cfg))
      as [Ht Hk].
    rewrite P.
    destruct (complete (handleExecuteDML sql (config.transactionTimeoutMs cfg)) l)
      as [[a|e] l1] eqn:C; cbn [fst snd] in *.
    + rewrite Ht, He. repeat split; try assumption.
      revert C. unfold handleExecuteDML.
      generalize (firstn 100 sql) as sqlHead. intros sqlHead.
      destruct (isReadOnlyQuery unicodeLower sql);
        [intros [= <- _]; exact I|].
      rewrite complete_bind, complete_pool_connect.
      destruct (connectAnswer (record PoolConnect (store l))) as [[c|e'] t];
        cbn [fst snd]; [|discriminate].
      complete_step. repeat (ask_outside; simpl; complete_step).
      all: intros [= <- _]; exact I.
    + rewrite Ht, He. repeat split; assumption.
  - unfold execute_commit, handleExecuteCommit.
    rewrite !complete_try_catch, !complete_bind, complete_try_catch,
      complete_bind, complete_lift.
    unfold hasTransaction, Map_has. cbn [fst snd]. rewrite He. cbn.
    rewrite with_store_same. repeat split. exact He.
  - unfold execute_rollback, handleExecuteRollback.
    rewrite !complete_try_catch, !complete_bind, complete_try_catch,
      complete_bind, complete_lift.
    unfold hasTransaction, Map_has. cbn [fst snd]. rewrite He. cbn.
    rewrite with_store_same. repeat split. exact He.
Qed.

(** X17. Through the tools the registry is never filled.  From
    a registry that holds nothing, whatever statements are executed and
    whatever is committed or rolled back, with the pool, the database and
    the connections behaving in any way, the registry holds nothing
    after every call and no call is left waiting; so every
    [execute_commit] and [execute_rollback] is answered "not found", and
    no statement is turned away for the limit of transactions (given a
    limit above 0).  No error gets out of a tool. *)
Theorem tools_leave_the_registry_empty :
  forall (qs : list request) (l : Loop),
    (0 < config.maxConcurrentTransactions cfg)%Z ->
    transactions (store l) = [] ->
    transactions (store (snd (serve_all qs l))) = []
    /\ tasks (snd (serve_all qs l)) = tasks l
    /\ Forall2 replyOfEmptyRegistry qs (fst (serve_all qs l)).
Proof.
  intros qs. induction qs as [|q qs IH]; intros l Hmax He.
  - repeat split; [exact He | constructor].
  - cbn [serve_all].
    destruct (serve_empty q l Hmax He) as (He1 & Hk1 & Hr1).
    destruct (serve q l) as [a l1]. cbn [fst snd] in *.
    destruct (IH l1 Hmax He1) as (He2 & Hk2 & Hr2).
    destruct (serve_all qs l1) as [answers l2]. cbn [fst snd] in *.
    repeat split; [exact He2 | congruence | constructor; assumption].
Qed.

(** X21. A tick of the monitor that finds no entry overdue, as
    on a registry that holds nothing, changes nothing at all: no line is
    written, nothing is sent, and no call is left waiting. *)
Theorem checkTransactionTimeouts_with_nothing_overdue :
  forall l : Loop,
    Map_wf (transactions (store l)) ->
    overdue (store l) (clock (store l)) = [] ->
    run checkTransactionTimeouts l = (Finished (Normal tt), l)
    /\ forall h, tick h l = l.
Proof.
  intros l W E.
  assert (R : run checkTransactionTimeouts l = (Finished (Normal tt), l)).
  { rewrite (checkTransactionTimeouts_runs l W), E. reflexivity. }
  split; [exact R|]. intros h. unfold tick. rewrite R.
  destruct (existsb _ _); reflexivity.
Qed.

End Server.

(* ================================================================== *)
(** ** The theorems at work *)

(** C1, at a write statement that the handler accepts and that succeeds.
    The handler sends [BEGIN], the statement and then [COMMIT], releases
    the connection and answers without any transaction id; nothing is put
    in the registry, so that [has] answers [false] for every id. *)
Theorem handleExecuteDML_commits_at_once :
  let call :=
    complete query_succeeds connect_succeeds
             (execute_dml_ddl_dcl_tcl plainCase plainCase query_returns
                                      release_returns config.default
                                      (js "insert into t values (1)"))
             booted in
  fst call = Normal (DmlSuccess (js "INSERT") 1 5)
  /\ queries_of (history (store (snd call)))
     = [(7, js "BEGIN"); (7, js "insert into t values (1)"); (7, js "COMMIT")]
  /\ releases_of (history (store (snd call))) = [7]
  /\ transactions (store (snd call)) = transactions (store booted)
  /\ transactions (store (snd call)) = []
  /\ tasks (snd call) = []
  /\ (forall id, has (snd call) id = false).
Proof. vm_compute. repeat split. Qed.

(** C9, as the claim has it, fails: a second [addTransaction] with an id
    that is present ends without an error, and the entry of the id is the
    new one. *)
Lemma addTransaction_twice_replaces :
  let s1 := snd (addTransaction (js "tx1") 1 (js "insert into t values (1)")
                                emptyStore) in
  let second := addTransaction (js "tx1") 2 (js "delete from t") s1 in
  Map_lookup (transactions s1) (js "tx1") = Some 0
  /\ fst second = Normal tt
  /\ transactions (snd second) = [(js "tx1", 1)]
  /\ tx_client (heap_get (heap (snd second)) 1) = 2
  /\ releases_of (history (snd second)) = [].
Proof. vm_compute. repeat split. Qed.

(** The keys of the registry of the example are distinct. *)
Lemma threeStaged_wf : Map_wf (transactions (store threeStaged)).
Proof.
  unfold Map_wf. vm_compute.
  repeat constructor; simpl; intuition discriminate.
Defined.

(** C6 at the example: the limit is three and three are staged. *)
Lemma execute_dml_rejects_at_the_limit_witness :
  (Z.of_nat (List.length (transactions (store threeStaged)))
   >= config.maxConcurrentTransactions smallConfig)%Z
  /\ run (execute_dml_ddl_dcl_tcl plainCase plainCase query_returns
                                  release_returns smallConfig
                                  (js "insert into t values (2)"))
         threeStaged
     = (Finished (Normal (LimitReached 3)), threeStaged).
Proof.
  split; [vm_compute; discriminate|].
  apply (@execute_dml_rejects_at_the_limit
           plainCase plainCase query_returns release_returns smallConfig
           threeStaged (js "insert into t values (2)")).
  vm_compute. discriminate.
Defined.

(** C7 at the example, where the call of [query] on the connection of
    [tx2] would throw: only [tx1] is overdue; it is rolled back, and when
    its query has settled it is gone and the two others are still there. *)
Lemma checkTransactionTimeouts_rolls_back_overdue_witness :
  Map_wf (transactions (store threeStaged))
  /\ Forall2 task_removes [] (tasks threeStaged)
  /\ map fst (overdue (store threeStaged) (clock (store threeStaged)))
     = [js "tx1"]
  /\ (let l' := snd (run (checkTransactionTimeouts (query_throws_on 2)
                                                   release_returns)
                         threeStaged) in
      queries_of (history (store l')) = [(1, js "ROLLBACK")]
      /\ (forall schedule id,
             tasks (drain schedule l') = [] ->
             has (drain schedule l') id
             = if in_dec jsstring_eq_dec id [js "tx1"] then false
               else has threeStaged id)
      /\ map fst (transactions
                    (store (drain [(0, Throw (DriverError 9))] l')))
         = [js "tx2"; js "tx3"]).
Proof.
  split; [exact threeStaged_wf|]. split; [constructor|].
  split; [vm_compute; reflexivity|]. cbv zeta.
  destruct (@checkTransactionTimeouts_rolls_back_overdue
              (query_throws_on 2) release_returns threeStaged []
              threeStaged_wf (Forall2_nil _))
    as (_ & _ & _ & _ & _ & H & _).
  split; [vm_compute; reflexivity|]. split; [exact H|].
  vm_compute. reflexivity.
Defined.

(** C8, as the claim has it, fails: when [destroy] returns, the three
    rollbacks have been sent and none has settled, and the three entries
    are still in the registry, in the state [terminating]. *)
Lemma destroy_returns_before_the_rollbacks_settle :
  let l' := snd (run (destroy query_returns release_returns) threeStaged) in
  List.length (transactions (store threeStaged)) = 3
  /\ fst (run (destroy query_returns release_returns) threeStaged)
     = Finished (Normal tt)
  /\ queries_of (history (store l'))
     = [(1, js "ROLLBACK"); (2, js "ROLLBACK"); (3, js "ROLLBACK")]
  /\ map fst (transactions (store l')) = [js "tx1"; js "tx2"; js "tx3"]
  /\ List.length (transactions (store l')) = 3
  /\ transactions (store l') <> []
  /\ map (fun e => tx_state (heap_get (heap (store l')) (snd e)))
         (transactions (store l'))
     = [terminating; terminating; terminating]
  /\ List.length (tasks l') = 3.
Proof. vm_compute. repeat split. discriminate. Qed.

(** C8 at the example, where the call of [query] on the connection of
    [tx2] throws: [ROLLBACK] is sent three times all the same, and when the
    two pending queries have settled, one of them failing, the registry is
    empty and each connection has been released once. *)
Lemma destroy_sweeps_the_registry_witness :
  Map_wf (transactions (store threeStaged))
  /\ Forall2 task_removes [] (tasks threeStaged)
  /\ (let l' := snd (run (destroy (query_throws_on 2) release_returns)
                         threeStaged) in
      queries_of (history (store l'))
      = [(1, js "ROLLBACK"); (2, js "ROLLBACK"); (3, js "ROLLBACK")]
      /\ map fst (transactions (store l')) = [js "tx1"; js "tx3"]
      /\ (forall schedule,
             tasks (drain schedule l') = [] ->
             transactions (store (drain schedule l')) = [])
      /\ (let settled :=
            drain [(1, Normal {| rowCount := None |});
                   (0, Throw (DriverError 9))] l' in
          tasks settled = []
          /\ transactions (store settled) = []
          /\ releases_of (history (store settled)) = [2; 3; 1])).
Proof.
  split; [exact threeStaged_wf|]. split; [constructor|]. cbv zeta.
  destruct (@destroy_sweeps_the_registry
              (query_throws_on 2) release_returns threeStaged []
              threeStaged_wf (Forall2_nil _))
    as (_ & _ & _ & _ & _ & _ & H & _).
  split; [vm_compute; reflexivity|]. split; [vm_compute; reflexivity|].
  split; [exact H|]. vm_compute. repeat split.
Defined.

(* ================================================================== *)
(** ** More of the code at work *)

(** X7 at an environment that sets one of the variables to the
    empty text and none of the others. *)
Lemma env_load_defaults_witness :
  let e := env.set (js "MONITOR_INTERVAL_MS") [] env.empty in
  (forall v, In v env.numeric -> e (fst v) = None \/ e (fst v) = Some [])
  /\ e (js "ENABLE_TRANSACTION_MONITOR") <> Some (js "false")
  /\ env.settings (env.load e) = Some config.default.
Proof.
  cbv zeta.
  assert (H1 : forall v, In v env.numeric ->
                 env.set (js "MONITOR_INTERVAL_MS") [] env.empty (fst v) = None
                 \/ env.set (js "MONITOR_INTERVAL_MS") [] env.empty (fst v)
                    = Some []).
  { intros v Hv. simpl in Hv.
    repeat (destruct Hv as [<-|Hv]; [vm_compute; auto|]). destruct Hv. }
  assert (H2 : env.set (js "MONITOR_INTERVAL_MS") [] env.empty
                       (js "ENABLE_TRANSACTION_MONITOR") <> Some (js "false"))
    by (vm_compute; discriminate).
  split; [exact H1|]. split; [exact H2|].
  apply (@env_load_defaults _ H1 H2).
Defined.

(** X8 at a timeout written with a blank before it and a unit
    after it. *)
Lemma env_load_reads_numerals_witness :
  let e := env.set (js "TRANSACTION_TIMEOUT_MS") (js " 60000ms") env.empty in
  (Z.abs 60000 <= 9007199254740992)%Z
  /\ nth_error env.numeric 0 = Some (js "TRANSACTION_TIMEOUT_MS", js "15000")
  /\ forallb isWhiteSpace (js " ") = true
  /\ endsNumber 10 (js "ms")
  /\ e (js "TRANSACTION_TIMEOUT_MS")
     = Some (js " " ++ Number_toString 60000 10 ++ js "ms")
  /\ nth_error (env.numbers (env.load e)) 0 = Some (Some 60000%Z).
Proof.
  cbv zeta.
  assert (H3 : endsNumber 10 (js "ms")) by (vm_compute; discriminate).
  assert (H4 : env.set (js "TRANSACTION_TIMEOUT_MS") (js " 60000ms") env.empty
                       (js "TRANSACTION_TIMEOUT_MS")
               = Some (js " " ++ Number_toString 60000 10 ++ js "ms"))
    by (vm_compute; reflexivity).
  assert (H0 : (Z.abs 60000 <= 9007199254740992)%Z) by (simpl; lia).
  split; [exact H0|].
  split; [reflexivity|]. split; [reflexivity|]. split; [exact H3|].
  split; [exact H4|].
  apply (@env_load_reads_numerals _ 0 (js "TRANSACTION_TIMEOUT_MS")
           (js "15000") (js " ") (js "ms") 60000%Z H0 eq_refl eq_refl H3 H4).
Defined.


(** X6 at a query with blanks before it. *)
Lemma read_only_has_no_operation_type_witness :
  (forall c t, String_trim (js "  Select * from t") = c :: t -> isAscii c = true)
  /\ isReadOnlyQuery plainCase (js "  Select * from t") = true
  /\ getOperationType plainCase (js "  Select * from t") = unknownOperation.
Proof.
  assert (H1 : forall c t, String_trim (js "  Select * from t") = c :: t ->
                           isAscii c = true).
  { intros c t H. vm_compute in H. injection H as <- _. reflexivity. }
  assert (H2 : isReadOnlyQuery plainCase (js "  Select * from t") = true)
    by (vm_compute; reflexivity).
  split; [exact H1|]. split; [exact H2|].
  apply (@read_only_has_no_operation_type plainCase plainCase _ H1 H2).
Defined.

(** X4 at a statement with blanks and a tab before it and a
    no-break space and a line end after it. *)
Lemma classification_ignores_white_space_around_witness :
  let l := [32; 32; 9]%N in
  let r := [160; 10]%N in
  forallb isWhiteSpace l = true
  /\ forallb isWhiteSpace r = true
  /\ isReadOnlyQuery plainCase (l ++ js "Insert into t values (1)" ++ r) = false
  /\ getOperationType plainCase (l ++ js "Insert into t values (1)" ++ r)
     = js "INSERT".
Proof.
  cbv zeta. split; [reflexivity|]. split; [reflexivity|].
  destruct (@classification_ignores_white_space_around plainCase plainCase
              [32; 32; 9]%N (js "Insert into t values (1)") [160; 10]%N
              eq_refl eq_refl) as [A B].
  split; [rewrite A | rewrite B]; vm_compute; reflexivity.
Defined.

(** X14 at the example: the monitor has begun to roll [tx1] back,
    and the commit that comes then is answered with "committed". *)
Lemma commit_meets_rollback_under_way_witness :
  let l1 := spawn (rollbackAndRemove query_returns release_returns (js "tx1")
                                     initiator_automatic reason_timed_out)
                  threeStaged in
  let res := complete query_succeeds connect_succeeds
                      (handleExecuteCommit query_returns release_returns (js "tx1"))
                      l1 in
  Map_lookup (transactions (store threeStaged)) (js "tx1") = Some 0
  /\ tx_released (heap_get (heap (store threeStaged)) 0) = false
  /\ query_returns
       (record (Console (LogRollingBack (js "tx1") initiator_automatic
                                        reason_timed_out))
               (set_heap (heap_update (heap (store threeStaged)) 0
                                      (with_state terminating))
                         (store threeStaged)))
       (tx_client (heap_get (heap (store threeStaged)) 0)) (js "ROLLBACK")
     = None
  /\ has l1 (js "tx1") = true
  /\ fst res = Normal (Committed (js "tx1"))
  /\ queries_of (history (store (snd res)))
     = [(1, js "ROLLBACK"); (1, js "COMMIT")]
  /\ releases_of (history (store (snd res))) = [1].
Proof.
  cbv zeta.
  split; [vm_compute; reflexivity|]. split; [vm_compute; reflexivity|].
  split; [reflexivity|].
  destruct (@commit_meets_rollback_under_way
              query_returns release_returns query_succeeds connect_succeeds
              threeStaged (js "tx1") initiator_automatic reason_timed_out 0
              eq_refl eq_refl eq_refl)
    as ((A & _) & B & C & D & _).
  split; [exact A|]. split; [rewrite B; vm_compute; reflexivity|].
  split; [rewrite C | rewrite D]; vm_compute; reflexivity.
Defined.

(** X19 at an object that is rolled back, with its id then used
    for another transaction. *)
Lemma transaction_objects_move_forward_witness :
  let before := [New 15000 5000 true;
                 Add (js "tx1") 1 (js "delete from t")] in
  let after := [Rollback (js "tx1") initiator_user reason_user;
                QuerySettles 0 (Throw (DriverError 9));
                Add (js "tx1") 2 (js "update t set x = 1")] in
  let s := store (perform_all query_returns release_returns before idle) in
  let s' := store (perform_all query_returns release_returns
                               (before ++ after) idle) in
  0 < List.length (heap s)
  /\ tx_client (heap_get (heap s') 0) = tx_client (heap_get (heap s) 0)
  /\ tx_released (heap_get (heap s) 0) = false
  /\ tx_released (heap_get (heap s') 0) = true
  /\ List.length (heap s') = 2.
Proof.
  cbv zeta.
  assert (H : 0 < List.length
                    (heap (store (perform_all query_returns release_returns
                                    [New 15000 5000 true;
                                     Add (js "tx1") 1 (js "delete from t")]
                                    idle))))
    by (vm_compute; lia).
  split; [exact H|].
  destruct (@transaction_objects_move_forward query_returns release_returns
              [New 15000 5000 true; Add (js "tx1") 1 (js "delete from t")]
              [Rollback (js "tx1") initiator_user reason_user;
               QuerySettles 0 (Throw (DriverError 9));
               Add (js "tx1") 2 (js "update t set x = 1")]
              0 H) as (_ & _ & A & _).
  split; [exact A|]. vm_compute. repeat split.
Defined.

(** X20 at two transactions, one rolled back and one committed,
    with the rollback failing. *)
Lemma no_connection_is_lost_witness :
  let acts := [New 15000 5000 true;
               Add (js "tx1") 1 (js "delete from t");
               Add (js "tx2") 2 (js "update t set x = 1");
               Rollback (js "tx1") initiator_user reason_user;
               Commit (js "tx2");
               QuerySettles 1 (Normal {| rowCount := None |});
               QuerySettles 0 (Throw (DriverError 9))] in
  let s := store (perform_all query_returns release_returns acts idle) in
  careful query_returns release_returns acts idle
  /\ staged acts = [1; 2]
  /\ releases_of (history s) = [2; 1]
  /\ registered s = []
  /\ count_occ Nat.eq_dec (staged acts) 1
     = count_occ Nat.eq_dec (releases_of (history s)) 1
       + count_occ Nat.eq_dec (registered s) 1.
Proof.
  cbv zeta.
  assert (H : careful query_returns release_returns
                [New 15000 5000 true;
                 Add (js "tx1") 1 (js "delete from t");
                 Add (js "tx2") 2 (js "update t set x = 1");
                 Rollback (js "tx1") initiator_user reason_user;
                 Commit (js "tx2");
                 QuerySettles 1 (Normal {| rowCount := None |});
                 QuerySettles 0 (Throw (DriverError 9))] idle)
    by (vm_compute; repeat split).
  split; [exact H|]. split; [reflexivity|].
  split; [vm_compute; reflexivity|]. split; [vm_compute; reflexivity|].
  apply (@no_connection_is_lost query_returns release_returns _ 1 H).
Defined.

(** X22 at a transaction that is left alone far beyond the
    timeout. *)
Lemma monitor_off_never_times_out_witness :
  let acts := [New 15000 5000 false;
               Add (js "tx1") 1 (js "delete from t");
               TimePasses 99999;
               TimerFires 0; TimerFires 1] in
  forallb (fun a => negb (startsMonitor a)) acts = true
  /\ timers (store (perform_all query_returns release_returns acts idle)) = []
  /\ has (perform_all query_returns release_returns acts idle) (js "tx1") = true
  /\ queries_of (history (store (perform_all query_returns release_returns
                                             acts idle))) = [].
Proof.
  cbv zeta. split; [reflexivity|].
  destruct (@monitor_off_never_times_out query_returns release_returns
              [New 15000 5000 false;
               Add (js "tx1") 1 (js "delete from t");
               TimePasses 99999;
               TimerFires 0; TimerFires 1] eq_refl) as (_ & A & _).
  split; [exact A|]. vm_compute. repeat split.
Defined.

(** X15 at an insert that the database rejects. *)
Lemma handleExecuteDML_reports_statement_error_witness :
  let sql := js "insert into t values (1)" in
  let res := complete (query_fails_on sql) connect_succeeds
                      (handleExecuteDML plainCase plainCase query_returns
                                        release_returns sql 15000)
                      booted in
  isReadOnlyQuery plainCase sql = false
  /\ (forall s c' text, query_returns s c' text = None)
  /\ (forall s, fst (connect_succeeds s) = Normal 7)
  /\ (forall s, exists q, fst (query_fails_on sql s 7 (js "BEGIN")) = Normal q)
  /\ (forall s, fst (query_fails_on sql s 7 sql) = Throw (DriverError 23505))
  /\ fst res = Normal (ExecutionError (DriverError 23505) sql)
  /\ map snd (queries_of (history (store (snd res))))
     = [js "BEGIN"; sql; js "ROLLBACK"].
Proof.
  cbv zeta.
  assert (H1 : isReadOnlyQuery plainCase (js "insert into t values (1)") = false)
    by (vm_compute; reflexivity).
  assert (H2 : forall (s : Store) (c' : Client) (text : jsstring),
                 query_returns s c' text = None) by reflexivity.
  assert (H3 : forall s, fst (connect_succeeds s) = Normal 7) by reflexivity.
  assert (H4 : forall s, exists q,
                 fst (query_fails_on (js "insert into t values (1)") s 7
                                     (js "BEGIN")) = Normal q)
    by (intros s; eexists; vm_compute; reflexivity).
  assert (H5 : forall s,
                 fst (query_fails_on (js "insert into t values (1)") s 7
                                     (js "insert into t values (1)"))
                 = Throw (DriverError 23505))
    by (intros s; vm_compute; reflexivity).
  split; [exact H1|]. split; [exact H2|]. split; [exact H3|].
  split; [exact H4|]. split; [exact H5|].
  destruct (@handleExecuteDML_reports_statement_error
              plainCase plainCase query_returns release_returns
              (query_fails_on (js "insert into t values (1)")) connect_succeeds
              booted (js "insert into t values (1)") 15000%Z 7
              (DriverError 23505) H1 H2 H3 H4 H5) as (A & B & _).
  split; [exact A|]. rewrite B. vm_compute. reflexivity.
Defined.

(** X17 at a manager just built: an insert is executed and
    committed at once, so that the commit and the rollback that follow
    find nothing. *)
Lemma tools_leave_the_registry_empty_witness :
  let qs := [ExecuteDml (js "insert into t values (1)");
             ExecuteCommit (js "tx_1");
             ExecuteRollback (js "tx_1")] in
  let served := serve_all plainCase plainCase query_returns release_returns
                          query_succeeds connect_succeeds config.default
                          qs booted in
  (0 < config.maxConcurrentTransactions config.default)%Z
  /\ transactions (store booted) = []
  /\ transactions (store (snd served)) = []
  /\ fst served
     = [DmlReply (DmlSuccess (js "INSERT") 1 5);
        TransactionReply (TransactionNotFound (js "tx_1"));
        TransactionReply (TransactionNotFound (js "tx_1"))].
Proof.
  cbv zeta. split; [reflexivity|]. split; [reflexivity|].
  destruct (@tools_leave_the_registry_empty
              plainCase plainCase query_returns release_returns
              query_succeeds connect_succeeds config.default
              [ExecuteDml (js "insert into t values (1)");
               ExecuteCommit (js "tx_1");
               ExecuteRollback (js "tx_1")] booted eq_refl eq_refl)
    as (A & _).
  split; [exact A|]. vm_compute. reflexivity.
Defined.

(** X21 at the three transactions 6000 ms earlier, when none
    of them was overdue. *)
Lemma checkTransactionTimeouts_with_nothing_overdue_witness :
  let l := with_store (set_clock 14000 (store threeStaged)) threeStaged in
  Map_wf (transactions (store l))
  /\ overdue (store l) (clock (store l)) = []
  /\ tick query_returns release_returns 0 l = l.
Proof.
  cbv zeta.
  assert (W : Map_wf (transactions
                        (store (with_store (set_clock 14000 (store threeStaged))
                                           threeStaged)))).
  { unfold Map_wf. vm_compute.
    repeat constructor; simpl; intuition discriminate. }
  assert (H : overdue (store (with_store (set_clock 14000 (store threeStaged))
                                         threeStaged))
                      (clock (store (with_store (set_clock 14000 (store threeStaged))
                                                threeStaged))) = [])
    by (vm_compute; reflexivity).
  split; [exact W|]. split; [exact H|].
  destruct (@checkTransactionTimeouts_with_nothing_overdue
              query_returns release_returns
              (with_store (set_clock 14000 (store threeStaged)) threeStaged)
              W H) as [_ T].
  exact (T 0).
Defined.
